(** * Membership and failure-detection overlay: seed directory and peer node

    A shallow embedding of [seed.py] (class [SeedNode]) and [peer.py]
    (class [PeerNode]).  Python sets are [gset], dictionaries are [gmap],
    floats are the primitive binary64 [float], socket traffic is an explicit list of events returned next to the new
    state, and everything the process reads from outside (reachability of a
    destination, ping outcomes, random draws, seed replies) is an argument
    of the operation that consumes it. *)

From Stdlib Require Import ZArith List Lia PrimFloat.
From stdpp Require Import gmap strings pretty list fin_maps fin_sets.

Set Warnings "-clear-no-such-hyp".

Open Scope Z_scope.

(** ** Endpoints, frames and events *)

(** [(ip, port)] tuples: the identity of seeds and peers alike. *)
Abbreviation Endpoint := (string * Z)%type.

(** One JSON object per connection, dispatched on its ["type"] field. *)
Inductive frame : Type :=
| Register (peer : Endpoint)
| RegisterVote (peer voter : Endpoint)
| GetPeers
| PeersReply (peers : list Endpoint)
| StatusReply (status : string)
| PeerInfo (peer : Endpoint)
| Gossip (message : string)
| Ping
| Pong
| SuspicionVote (suspect voter : Endpoint)
| DeadNode (dead reporter : Endpoint)
| DeadVote (peer voter : Endpoint)
| Unknown (type : string).

(** Lines handed to [log_message]. *)
Inductive log_entry : Type :=
| LogSeedStarted (quorum : nat)
| LogRegistrationProposal (peer : Endpoint)
| LogRegistered (peer : Endpoint)
| LogDeadProposal (peer : Endpoint)
| LogRemoved (peer : Endpoint)
| LogListenerStarted
| LogRegistrationSent (seed : Endpoint)
| LogSeedRegisterFailed (seed : Endpoint)
| LogPeerListObtained (selected : list Endpoint)
| LogGossipReceived (message : string)
| LogPingReceived (addr : Endpoint)
| LogConsensusReached (peer : Endpoint).

(** What a call does to the outside world, in program order.  [Send dst f]
    is a frame written on a fresh connection to [dst]; it is recorded only
    when the connection could be opened, since a failed [connect] raises
    before [send] and the exception is swallowed.  [Reply f] is written on
    the accepted socket. *)
Inductive event : Type :=
| Send (dst : Endpoint) (f : frame)
| Reply (f : frame)
| Log (entry : log_entry).

#[global] Instance frame_eq_dec : EqDecision frame.
Proof. solve_decision. Defined.

#[global] Instance log_entry_eq_dec : EqDecision log_entry.
Proof. solve_decision. Defined.

#[global] Instance event_eq_dec : EqDecision event.
Proof. solve_decision. Defined.

(** Reachability of a destination during one call. *)
Abbreviation network := (Endpoint → bool).

(** [for dst in dsts: try: connect; send(f) except: pass] *)
Definition send_each (up : network) (dsts : list Endpoint) (f : frame) : list event :=
  (λ dst, Send dst f) <$> filter (λ dst, up dst = true) dsts.

(** The frames written to other nodes, with their destinations, in order. *)
Definition sends (evs : list event) : list (Endpoint * frame) :=
  omap (λ e, match e with Send dst f => Some (dst, f) | _ => None end) evs.

(** The log lines, in order. *)
Definition logs (evs : list event) : list log_entry :=
  omap (λ e, match e with Log entry => Some entry | _ => None end) evs.

(** [math.floor(n / 2) + 1] *)
Definition majority (n : nat) : nat := (n / 2 + 1)%nat.

(** ** Seed directory ([seed.py]) *)
Module Seed.

Record SeedNode : Type := mkSeed {
  ip : string;
  port : Z;
  seed_nodes : list Endpoint;
  quorum : nat;
  peer_list : gset Endpoint;
  register_votes : gmap Endpoint (gset Endpoint);
  dead_votes : gmap Endpoint (gset Endpoint)
}.

Definition self (s : SeedNode) : Endpoint := (ip s, port s).

(** [SeedNode.__init__], with the parsed configuration file as argument. *)
Definition init (ip0 : string) (port0 : Z) (config : list Endpoint) : SeedNode :=
  {| ip := ip0; port := port0; seed_nodes := config;
     quorum := majority (length config);
     peer_list := ∅; register_votes := ∅; dead_votes := ∅ |}.

Definition set_peer_list (s : SeedNode) (d : gset Endpoint) : SeedNode :=
  {| ip := ip s; port := port s; seed_nodes := seed_nodes s; quorum := quorum s;
     peer_list := d; register_votes := register_votes s;
     dead_votes := dead_votes s |}.

Definition set_register_votes (s : SeedNode) (m : gmap Endpoint (gset Endpoint)) : SeedNode :=
  {| ip := ip s; port := port s; seed_nodes := seed_nodes s; quorum := quorum s;
     peer_list := peer_list s; register_votes := m;
     dead_votes := dead_votes s |}.

Definition set_dead_votes (s : SeedNode) (m : gmap Endpoint (gset Endpoint)) : SeedNode :=
  {| ip := ip s; port := port s; seed_nodes := seed_nodes s; quorum := quorum s;
     peer_list := peer_list s; register_votes := register_votes s;
     dead_votes := m |}.

(** [if peer not in votes: votes[peer] = set()] then [votes[peer].add(voter)] *)
Definition add_vote (votes : gmap Endpoint (gset Endpoint)) (peer voter : Endpoint)
  : gmap Endpoint (gset Endpoint) :=
  <[peer := default ∅ (votes !! peer) ∪ {[voter]}]> votes.

(** [len(votes.get(peer, []))] *)
Definition tally (votes : gmap Endpoint (gset Endpoint)) (peer : Endpoint) : nat :=
  size (default ∅ (votes !! peer)).

Definition other_seeds (s : SeedNode) : list Endpoint :=
  filter (λ e, ¬ (e.1 = ip s ∧ e.2 = port s)) (seed_nodes s).

Definition broadcast_to_seeds (up : network) (s : SeedNode) (payload : frame) : list event :=
  send_each up (other_seeds s) payload.

Definition check_register_quorum (s : SeedNode) (peer : Endpoint) : SeedNode * list event :=
  let votes := tally (register_votes s) peer in
  if bool_decide (quorum s ≤ votes)%nat && bool_decide (peer ∉ peer_list s)
  then (set_peer_list s (peer_list s ∪ {[peer]}), [Log (LogRegistered peer)])
  else (s, []).

Definition handle_register_request (up : network) (s : SeedNode) (peer : Endpoint)
  : SeedNode * list event :=
  let s1 := set_register_votes s (add_vote (register_votes s) peer (self s)) in
  let sent := broadcast_to_seeds up s1 (RegisterVote peer (self s)) in
  let '(s2, logged) := check_register_quorum s1 peer in
  (s2, Log (LogRegistrationProposal peer) :: sent ++ logged).

Definition handle_register_vote (s : SeedNode) (peer voter : Endpoint)
  : SeedNode * list event :=
  check_register_quorum
    (set_register_votes s (add_vote (register_votes s) peer voter)) peer.

Definition check_dead_quorum (s : SeedNode) (peer : Endpoint) : SeedNode * list event :=
  let votes := tally (dead_votes s) peer in
  if bool_decide (quorum s ≤ votes)%nat && bool_decide (peer ∈ peer_list s)
  then (set_peer_list s (peer_list s ∖ {[peer]}), [Log (LogRemoved peer)])
  else (s, []).

Definition handle_dead_report (up : network) (s : SeedNode) (peer : Endpoint)
  : SeedNode * list event :=
  let s1 := set_dead_votes s (add_vote (dead_votes s) peer (self s)) in
  let sent := broadcast_to_seeds up s1 (DeadVote peer (self s)) in
  let '(s2, logged) := check_dead_quorum s1 peer in
  (s2, Log (LogDeadProposal peer) :: sent ++ logged).

Definition handle_dead_vote (s : SeedNode) (peer voter : Endpoint)
  : SeedNode * list event :=
  check_dead_quorum
    (set_dead_votes s (add_vote (dead_votes s) peer voter)) peer.

(** [handle_client]: the dispatch on ["type"]; any other frame, and the
    reply frames themselves, fall through every branch. *)
Definition handle_client (up : network) (s : SeedNode) (req : frame)
  : SeedNode * list event :=
  match req with
  | Register peer =>
      let '(s', evs) := handle_register_request up s peer in
      (s', evs ++ [Reply (StatusReply "pending")])
  | RegisterVote peer voter => handle_register_vote s peer voter
  | GetPeers => (s, [Reply (PeersReply (elements (peer_list s)))])
  | DeadNode peer _ =>
      let '(s', evs) := handle_dead_report up s peer in
      (s', evs ++ [Reply (StatusReply "received")])
  | DeadVote peer voter => handle_dead_vote s peer voter
  | _ => (s, [])
  end.

(** States a seed can be in: it starts from [init] and serves requests one
    after the other, each under whatever network conditions hold then. *)
Inductive reachable (ip0 : string) (port0 : Z) (config : list Endpoint)
  : SeedNode → Prop :=
| reach_init : reachable ip0 port0 config (init ip0 port0 config)
| reach_step s up req :
    reachable ip0 port0 config s →
    reachable ip0 port0 config (handle_client up s req).1.

(** The handlers run in one thread per connection and take [self.lock]
    once to record a vote and once more to check the tally, so other
    threads may run in between.  These are the four critical sections. *)
Inductive locked : Type :=
| RecordRegister (peer voter : Endpoint)
| CheckRegister (peer : Endpoint)
| RecordDead (peer voter : Endpoint)
| CheckDead (peer : Endpoint).

Definition enter (s : SeedNode) (c : locked) : SeedNode :=
  match c with
  | RecordRegister peer voter =>
      set_register_votes s (add_vote (register_votes s) peer voter)
  | CheckRegister peer => (check_register_quorum s peer).1
  | RecordDead peer voter =>
      set_dead_votes s (add_vote (dead_votes s) peer voter)
  | CheckDead peer => (check_dead_quorum s peer).1
  end.

(** The critical sections a request goes through, in program order. *)
Definition sections_of (s : SeedNode) (req : frame) : list locked :=
  match req with
  | Register peer => [RecordRegister peer (self s); CheckRegister peer]
  | RegisterVote peer voter => [RecordRegister peer voter; CheckRegister peer]
  | DeadNode peer _ => [RecordDead peer (self s); CheckDead peer]
  | DeadVote peer voter => [RecordDead peer voter; CheckDead peer]
  | _ => []
  end.

(** States reached under any interleaving of critical sections. *)
Inductive interleaved (ip0 : string) (port0 : Z) (config : list Endpoint)
  : SeedNode → Prop :=
| inter_init : interleaved ip0 port0 config (init ip0 port0 config)
| inter_step s c :
    interleaved ip0 port0 config s →
    interleaved ip0 port0 config (enter s c).

(** The directory invariant. *)
Definition listed_with_quorum (s : SeedNode) : Prop :=
  ∀ p, p ∈ peer_list s → (quorum s ≤ tally (register_votes s) p)%nat.

(** The same [register] request served once per entry of [ups]. *)
Definition register_repeatedly (s : SeedNode) (peer : Endpoint) (ups : list network)
  : SeedNode :=
  foldl (λ st up, (handle_client up st (Register peer)).1) s ups.

(** Requests served one after the other, each with the network
    conditions of its own, oldest first. *)
Fixpoint serve (s : SeedNode) (script : list (network * frame))
  : SeedNode * list event :=
  match script with
  | [] => (s, [])
  | (up, req) :: rest =>
      let '(s1, evs) := handle_client up s req in
      let '(s2, evs') := serve s1 rest in
      (s2, evs ++ evs')
  end.

(** The endpoint a request is about, for the requests that have one. *)
Definition subject (req : frame) : option Endpoint :=
  match req with
  | Register peer | RegisterVote peer _ | DeadNode peer _ | DeadVote peer _ =>
      Some peer
  | _ => None
  end.

(** The tally check has run on [p] with the ledger as it stands. *)
Definition settled (s : SeedNode) (p : Endpoint) : Prop :=
  (quorum s ≤ size (default ∅ (register_votes s !! p)))%nat → p ∈ peer_list s.

(** The votes of [votes] as [register_vote] requests about [peer]. *)
Definition register_votes_for (peer : Endpoint) (votes : list (network * Endpoint))
  : list (network * frame) :=
  (λ uv, (uv.1, RegisterVote peer uv.2)) <$> votes.

End Seed.

(** ** Peer node ([peer.py]) *)
Module Peer.

Record PeerNode : Type := mkPeer {
  ip : string;
  port : Z;
  seed_nodes : list Endpoint;
  registered_seeds : gset Endpoint;
  peers : gset Endpoint;
  message_list : gset Z;
  message_count : nat;
  suspicions : gmap Endpoint nat;
  suspicion_votes : gmap Endpoint (gset Endpoint)
}.

Definition self (s : PeerNode) : Endpoint := (ip s, port s).

(** [PeerNode.__init__], with the parsed configuration file as argument. *)
Definition init (ip0 : string) (port0 : Z) (config : list Endpoint) : PeerNode :=
  {| ip := ip0; port := port0; seed_nodes := config; registered_seeds := ∅;
     peers := ∅; message_list := ∅; message_count := 0;
     suspicions := ∅; suspicion_votes := ∅ |}.

Definition set_registered_seeds (s : PeerNode) (r : gset Endpoint) : PeerNode :=
  {| ip := ip s; port := port s; seed_nodes := seed_nodes s;
     registered_seeds := r; peers := peers s; message_list := message_list s;
     message_count := message_count s; suspicions := suspicions s;
     suspicion_votes := suspicion_votes s |}.

Definition set_peers (s : PeerNode) (p : gset Endpoint) : PeerNode :=
  {| ip := ip s; port := port s; seed_nodes := seed_nodes s;
     registered_seeds := registered_seeds s; peers := p;
     message_list := message_list s; message_count := message_count s;
     suspicions := suspicions s; suspicion_votes := suspicion_votes s |}.

Definition set_message_list (s : PeerNode) (l : gset Z) : PeerNode :=
  {| ip := ip s; port := port s; seed_nodes := seed_nodes s;
     registered_seeds := registered_seeds s; peers := peers s;
     message_list := l; message_count := message_count s;
     suspicions := suspicions s; suspicion_votes := suspicion_votes s |}.

Definition set_message_count (s : PeerNode) (c : nat) : PeerNode :=
  {| ip := ip s; port := port s; seed_nodes := seed_nodes s;
     registered_seeds := registered_seeds s; peers := peers s;
     message_list := message_list s; message_count := c;
     suspicions := suspicions s; suspicion_votes := suspicion_votes s |}.

Definition set_suspicions (s : PeerNode) (m : gmap Endpoint nat) : PeerNode :=
  {| ip := ip s; port := port s; seed_nodes := seed_nodes s;
     registered_seeds := registered_seeds s; peers := peers s;
     message_list := message_list s; message_count := message_count s;
     suspicions := m; suspicion_votes := suspicion_votes s |}.

Definition set_suspicion_votes (s : PeerNode) (m : gmap Endpoint (gset Endpoint)) : PeerNode :=
  {| ip := ip s; port := port s; seed_nodes := seed_nodes s;
     registered_seeds := registered_seeds s; peers := peers s;
     message_list := message_list s; message_count := message_count s;
     suspicions := suspicions s; suspicion_votes := m |}.

(** [math.floor(n / 2) + 1 if n > 0 else 1] with [n = len(self.peers)] *)
Definition quorum_neighbors (s : PeerNode) : nat :=
  let n := size (peers s) in
  if bool_decide (0 < n)%nat then majority n else 1%nat.

(** The voters recorded against [peer]: [suspicion_votes[peer]], empty when
    the key is absent. *)
Definition accusers (s : PeerNode) (peer : Endpoint) : gset Endpoint :=
  default ∅ (suspicion_votes s !! peer).

(** [suspicions.get(peer, 0)] *)
Definition strikes (s : PeerNode) (peer : Endpoint) : nat :=
  default 0%nat (suspicions s !! peer).

(** *** Seed registration *)

(** [register_with_seed], given the outcome [selected] of
    [select_seed_nodes] (a random sample of the configured seeds). *)
Fixpoint register_with_seed (up : network) (s : PeerNode) (selected : list Endpoint)
  : PeerNode * list event :=
  match selected with
  | [] => (s, [])
  | seed :: rest =>
      let '(s1, evs) :=
        if up seed
        then (set_registered_seeds s (registered_seeds s ∪ {[seed]}),
              [Send seed (Register (self s)); Log (LogRegistrationSent seed)])
        else (s, [Log (LogSeedRegisterFailed seed)]) in
      let '(s2, evs') := register_with_seed up s1 rest in
      (s2, evs ++ evs')
  end.

(** *** Power-law selection *)

(** Python floats are IEEE 754 binary64 numbers, the primitive type
    [float]; [+], [*], [/] and [<] on them are the primitive operations,
    rounding to nearest. *)

Section PowerLaw.

(** [d ** y] for an [int] [d] and a [float] [y] (the C library's [pow]
    behind [float.__pow__]) and the built-in [sum] over a list of floats;
    what they return is fixed by the interpreter and its platform. *)
Variable pow : nat → float → float.
Variable fsum : list float → float.

Definition alpha : float := 2%float.

(** [itertools.accumulate]: the running totals, the first of which is the
    first element itself. *)
Fixpoint running (total : float) (l : list float) : list float :=
  match l with
  | [] => []
  | x :: r => (total + x)%float :: running (total + x)%float r
  end.

Definition accumulate (l : list float) : list float :=
  match l with
  | [] => []
  | x :: r => x :: running x r
  end.

(** The loop of [bisect.bisect(a, x, lo, hi)]:
    [while lo < hi: mid = (lo + hi) // 2;
     if x < a[mid]: hi = mid else: lo = mid + 1].
    Every iteration shortens [hi - lo], so [hi - lo] iterations are
    enough. *)
Fixpoint bisect_loop (fuel : nat) (a : list float) (x : float) (lo hi : nat) : nat :=
  match fuel with
  | O => lo
  | S fuel' =>
      if bool_decide (lo < hi)%nat then
        let mid := ((lo + hi) / 2)%nat in
        if PrimFloat.ltb x (default 0%float (a !! mid))
        then bisect_loop fuel' a x lo mid
        else bisect_loop fuel' a x (mid + 1)%nat hi
      else lo
  end.

Definition bisect (a : list float) (x : float) (lo hi : nat) : nat :=
  bisect_loop (hi - lo) a x lo hi.

(** [random.choices(range(n), weights=weights, k=k)]: the [j]-th result is
    [bisect(cum_weights, random() * total, 0, n - 1)], where [rand j] is
    the [j]-th value returned by [random()].  The [ValueError] that
    [random.choices] raises for a total that is not a positive finite
    number is not represented. *)
Definition choices (rand : nat → float) (n : nat) (weights : list float) (k : nat)
  : list nat :=
  let cum_weights := accumulate weights in
  let total := (default 0%float (last cum_weights) + 0)%float in
  let hi := (n - 1)%nat in
  (λ j, bisect cum_weights (rand j * total)%float 0 hi) <$> seq 0 k.

(** The normalised rank weights handed to [random.choices]. *)
Definition power_law_probs (n : nat) : list float :=
  let degrees := (λ i, i + 1)%nat <$> seq 0 n in
  let probs := (λ d, pow d (- alpha)%float) <$> degrees in
  let total := fsum probs in
  (λ p, p / total)%float <$> probs.

Definition select_peers_power_law (rand : nat → float) (candidates : list Endpoint)
  : list Endpoint :=
  match candidates with
  | [] => []
  | first :: _ =>
      let probs := power_law_probs (length candidates) in
      let k := (3 `min` length candidates)%nat in
      let idx := choices rand (length candidates) probs k in
      (λ i, default first (candidates !! i)) <$> idx
  end.

End PowerLaw.

(** *** Connecting to the selected peers *)

Fixpoint connect_to_peers (up : network) (s : PeerNode) (selected : list Endpoint)
  : PeerNode * list event :=
  match selected with
  | [] => (s, [])
  | peer :: rest =>
      let '(s1, evs) :=
        if bool_decide (peer = self s) then (s, [])
        else if up peer
        then (set_peers s (peers s ∪ {[peer]}), [Send peer (PeerInfo (self s))])
        else (s, []) in
      let '(s2, evs') := connect_to_peers up s1 rest in
      (s2, evs ++ evs')
  end.

(** The [get_peers] round of [fetch_peers]: [replies seed] is what
    [json.loads(s.recv(4096))] yields for that seed, [None] when the
    exchange raises. *)
Fixpoint query_seeds (up : network) (replies : Endpoint → option (list Endpoint))
    (seeds : list Endpoint) : list Endpoint * list event :=
  match seeds with
  | [] => ([], [])
  | seed :: rest =>
      let '(found, evs) := query_seeds up replies rest in
      if up seed
      then (default [] (replies seed) ++ found, Send seed GetPeers :: evs)
      else (found, evs)
  end.

Definition fetch_peers (pow : nat → float → float) (fsum : list float → float)
    (up : network) (replies : Endpoint → option (list Endpoint))
    (rand : nat → float) (s : PeerNode) : PeerNode * list event :=
  let '(all_peers, asked) := query_seeds up replies (elements (registered_seeds s)) in
  let unique := elements (list_to_set all_peers : gset Endpoint) in
  let selected := select_peers_power_law pow fsum rand unique in
  let '(s', sent) := connect_to_peers up s selected in
  (s', asked ++ sent ++ [Log (LogPeerListObtained selected)]).

(** *** Gossip *)

(** [exclude] is [None] for the peer's own messages and the address of the
    accepted socket for relayed ones. *)
Definition broadcast_message (up : network) (s : PeerNode) (message : string)
    (exclude : option Endpoint) : list event :=
  send_each up (filter (λ e, Some e ≠ exclude) (elements (peers s))) (Gossip message).

(** [f"{time.time()}:{self.ip}:{self.message_count}"], where [now] is
    the text of [time.time()]. *)
Definition own_message (s : PeerNode) (now : string) : string :=
  (now +:+ ":" +:+ ip s +:+ ":" +:+ pretty (message_count s))%string.

(** One iteration of the origination loop of [start]. *)
Definition originate (up : network) (s : PeerNode) (now : string)
  : PeerNode * list event :=
  if bool_decide (message_count s < 10)%nat then
    let msg := own_message s now in
    (set_message_count s (message_count s + 1)%nat, broadcast_message up s msg None)
  else (s, []).

(** *** Liveness consensus *)

Definition report_dead_node (up : network) (s : PeerNode) (peer : Endpoint) : list event :=
  Log (LogConsensusReached peer)
  :: send_each up (elements (registered_seeds s)) (DeadNode peer (self s)).

Definition handle_suspicion_vote (up : network) (s : PeerNode) (peer voter : Endpoint)
  : PeerNode * list event :=
  let s' := set_suspicion_votes s
              (<[peer := accusers s peer ∪ {[voter]}]> (suspicion_votes s)) in
  if bool_decide (quorum_neighbors s' ≤ size (accusers s' peer))%nat
  then (s', report_dead_node up s' peer)
  else (s', []).

Definition broadcast_suspicion (up : network) (s : PeerNode) (peer : Endpoint) : list event :=
  send_each up (elements (peers s)) (SuspicionVote peer (self s)).

Definition start_suspicion (up : network) (s : PeerNode) (peer : Endpoint)
  : PeerNode * list event :=
  let s' := set_suspicions s (<[peer := (strikes s peer + 1)%nat]> (suspicions s)) in
  if bool_decide (strikes s' peer = 2%nat)
  then (s', broadcast_suspicion up s' peer)
  else (s', []).

(** The body of the [for] loop of [ping_peers]: [pong peer] tells whether
    the [recv] after the ping returned. *)
Definition ping_one (up pong : network) (s : PeerNode) (peer : Endpoint)
  : PeerNode * list event :=
  if up peer then
    if pong peer
    then (set_suspicions s (<[peer := 0%nat]> (suspicions s)), [Send peer Ping])
    else let '(s', evs) := start_suspicion up s peer in (s', Send peer Ping :: evs)
  else start_suspicion up s peer.

Fixpoint ping_all (up pong : network) (s : PeerNode) (peers_copy : list Endpoint)
  : PeerNode * list event :=
  match peers_copy with
  | [] => (s, [])
  | peer :: rest =>
      let '(s1, evs) := ping_one up pong s peer in
      let '(s2, evs') := ping_all up pong s1 rest in
      (s2, evs ++ evs')
  end.

(** One round of [ping_peers]. *)
Definition ping_peers (up pong : network) (s : PeerNode) : PeerNode * list event :=
  ping_all up pong s (elements (peers s)).

Section Handler.

(** Python's built-in [hash] on message texts, fixed for the lifetime of
    the process. *)
Variable hash : string → Z.

(** The float power and the built-in [sum], as in the power-law
    selection. *)
Variable pow : nat → float → float.
Variable fsum : list float → float.

(** [handle_peer]: [addr] is the remote address of the accepted socket. *)
Definition handle_peer (up : network) (s : PeerNode) (addr : Endpoint) (data : frame)
  : PeerNode * list event :=
  match data with
  | PeerInfo peer => (set_peers s (peers s ∪ {[peer]}), [])
  | Gossip msg =>
      let h := hash msg in
      if bool_decide (h ∉ message_list s) then
        let s' := set_message_list s (message_list s ∪ {[h]}) in
        (s', Log (LogGossipReceived msg) :: broadcast_message up s' msg (Some addr))
      else (s, [])
  | Ping => (s, [Reply Pong; Log (LogPingReceived addr)])
  | SuspicionVote peer voter => handle_suspicion_vote up s peer voter
  | _ => (s, [])
  end.

(** What can happen at a running peer. *)
Inductive input : Type :=
| RegisterWithSeed (selected : list Endpoint)
| FetchPeers (replies : Endpoint → option (list Endpoint)) (rand : nat → float)
| Originate (now : string)
| PingRound (pong : network)
| Receive (addr : Endpoint) (data : frame).

Definition step (up : network) (s : PeerNode) (i : input) : PeerNode * list event :=
  match i with
  | RegisterWithSeed selected => register_with_seed up s selected
  | FetchPeers replies rand => fetch_peers pow fsum up replies rand s
  | Originate now => originate up s now
  | PingRound pong => ping_peers up pong s
  | Receive addr data => handle_peer up s addr data
  end.

(** Runs: the inputs with the network conditions of each, oldest first. *)
Fixpoint run (s : PeerNode) (script : list (network * input)) : PeerNode * list event :=
  match script with
  | [] => (s, [])
  | (up, i) :: rest =>
      let '(s1, evs) := step up s i in
      let '(s2, evs') := run s1 rest in
      (s2, evs ++ evs')
  end.

Inductive reachable (ip0 : string) (port0 : Z) (config : list Endpoint)
  : PeerNode → Prop :=
| reach_init : reachable ip0 port0 config (init ip0 port0 config)
| reach_step s up i :
    reachable ip0 port0 config s →
    reachable ip0 port0 config (step up s i).1.

End Handler.

(** Events that carry a [dead_node] report to a seed. *)
Definition reports_death (e : event) : Prop :=
  match e with
  | Send _ (DeadNode _ _) => True
  | _ => False
  end.

(** Event lists without any such report. *)
Abbreviation quiet evs := (Forall (λ e, ¬ reports_death e) evs).

(** Whether an input is the arrival of a [gossip] frame with text [m]. *)
Definition receives_gossip (m : string) (i : input) : bool :=
  match i with
  | Receive _ (Gossip m') => bool_decide (m' = m)
  | _ => false
  end.

(** How often the receipt of [m] is logged in [evs]. *)
Definition receipts (m : string) (evs : list event) : nat :=
  length (filter (λ entry, entry = LogGossipReceived m) (logs evs)).

End Peer.

(** ** The seed list file ([read_seed_nodes] of both roles, and the
    start-up code of [seed.py]) *)
Module Config.

Definition newline : string := String (Ascii.ascii_of_nat 10) EmptyString.

(** The character [":"]. *)
Definition colon : Ascii.ascii := Ascii.ascii_of_nat 58.

(** [s.split(sep)] for a separator of one character. *)
Fixpoint split (sep : Ascii.ascii) (s : string) : list string :=
  match s with
  | EmptyString => [EmptyString]
  | String c rest =>
      if decide (c = sep) then EmptyString :: split sep rest
      else match split sep rest with
           | head :: tail => String c head :: tail
           | [] => [String c EmptyString]
           end
  end.

(** Whether a character occurs in a string. *)
Fixpoint occurs (c : Ascii.ascii) (s : string) : Prop :=
  match s with
  | EmptyString => False
  | String x rest => x = c ∨ occurs c rest
  end.

Section ReadSeedNodes.

(** The built-ins [str.strip] and [int]; [int] yields [None] where
    Python raises [ValueError]. *)
Variable strip : string → string.
Variable int : string → option Z.

(** [ip, port = line.strip().split(":")] followed by [(ip, int(port))];
    [None] when the unpacking or the conversion raises. *)
Definition parse_entry (line : string) : option Endpoint :=
  match split colon (strip line) with
  | [ip; port] => match int port with
                  | Some number => Some (ip, number)
                  | None => None
                  end
  | _ => None
  end.

(** The loop over the lines of the file, with the entries found so far:
    an exception ends the loop and leaves [seeds] as it is. *)
Fixpoint read_lines (lines : list string) (seeds : list Endpoint) : list Endpoint :=
  match lines with
  | [] => seeds
  | line :: rest =>
      if decide (strip line = EmptyString) then read_lines rest seeds
      else match parse_entry line with
           | Some seed => read_lines rest (seeds ++ [seed])
           | None => seeds
           end
  end.

(** Lines the loop gets past: blank ones and entries. *)
Definition well_formed (line : string) : Prop :=
  strip line = EmptyString ∨ is_Some (parse_entry line).

(** [read_seed_nodes]: [file] is [None] when the file cannot be opened. *)
Definition read_seed_nodes (file : option (list string)) : list Endpoint :=
  match file with
  | Some lines => read_lines lines []
  | None => []
  end.

End ReadSeedNodes.

(** [needle in haystack] on strings. *)
Fixpoint contains (needle haystack : string) : bool :=
  String.prefix needle haystack
  || match haystack with
     | EmptyString => false
     | String _ rest => contains needle rest
     end.

(** [f"{ip}:{port}"] *)
Definition entry (ip : string) (port : Z) : string :=
  (ip +:+ ":" +:+ pretty port)%string.

(** The start-up code of [seed.py]: the file is opened in mode ["a+"],
    read whole, and the seed's own entry is appended when the text of the
    entry does not occur in it. *)
Definition ensure_listed (content ip : string) (port : Z) : string :=
  if contains (entry ip port) content then content
  else (content +:+ entry ip port +:+ newline)%string.

End Config.

(** ** Choosing the seeds to register with ([select_seed_nodes]) *)
Module Startup.

Section SelectSeedNodes.

(** [random.sample(population, k)]; [None] where it raises
    [ValueError]. *)
Variable sample : list Endpoint → nat → option (list Endpoint).

Definition select_seed_nodes (s : Peer.PeerNode) : option (list Endpoint) :=
  let n := length (Peer.seed_nodes s) in
  let k := majority n in
  sample (Peer.seed_nodes s) k.

(** [register_with_seed] as [start] calls it; [None] when the selection
    raises. *)
Definition register (up : network) (s : Peer.PeerNode)
  : option (Peer.PeerNode * list event) :=
  match select_seed_nodes s with
  | Some selected => Some (Peer.register_with_seed up s selected)
  | None => None
  end.

End SelectSeedNodes.

(** What the documentation of [random.sample] promises: [k] elements
    from pairwise different positions of the population, or an exception
    when [k] exceeds its length. *)
Definition samples (sample : list Endpoint → nat → option (list Endpoint)) : Prop :=
  ∀ population k,
    ((length population < k)%nat → sample population k = None)
    ∧ ((k ≤ length population)%nat →
       ∃ chosen, sample population k = Some chosen
                 ∧ length chosen = k ∧ chosen ⊆+ population).

End Startup.

(** ** The growth simulation ([power_law_simulation.py]) *)
Module Simulation.

Record PeerNetwork : Type := mkNetwork {
  peers : list string;
  degrees : gmap string nat
}.

Definition empty : PeerNetwork := {| peers := []; degrees := ∅ |}.

Section Growth.

(** The float power and the built-in [sum], as in [Peer]. *)
Variable pow : nat → float → float.
Variable fsum : list float → float.

(** [select_peers_power_law]: the weight of a candidate is
    [(degree + 1) ** -2.0]; [None] stands for the [KeyError] of a
    candidate without degree. *)
Definition select_peers_power_law (rand : nat → float) (net : PeerNetwork)
    (candidates : list string) : option (list string) :=
  match candidates with
  | [] => Some []
  | first :: _ =>
      match mapM (λ peer, (λ d, d + 1)%nat <$> degrees net !! peer) candidates with
      | None => None
      | Some degs =>
          let probabilities := (λ d, pow d (- Peer.alpha)%float) <$> degs in
          let total := fsum probabilities in
          let probabilities := (λ p, p / total)%float <$> probabilities in
          let num_connections := (1 `min` length candidates)%nat in
          let selected_indices :=
            Peer.choices rand (length candidates) probabilities num_connections in
          Some ((λ i, default first (candidates !! i)) <$> selected_indices)
      end
  end.

(** [degrees[key] += 1] *)
Definition increment (key : string) (degs : gmap string nat) : option (gmap string nat) :=
  match degs !! key with
  | Some d => Some (<[key := (d + 1)%nat]> degs)
  | None => None
  end.

(** The loop over the selected peers in [add_peer]. *)
Fixpoint connect (new_peer : string) (selected : list string) (degs : gmap string nat)
  : option (gmap string nat) :=
  match selected with
  | [] => Some degs
  | peer :: rest =>
      match increment peer degs with
      | None => None
      | Some degs1 =>
          match increment new_peer degs1 with
          | None => None
          | Some degs2 => connect new_peer rest degs2
          end
      end
  end.

Definition add_peer (rand : nat → float) (net : PeerNetwork) : option PeerNetwork :=
  let new_peer := ("Peer" +:+ pretty (length (peers net) + 1)%nat)%string in
  let peers1 := peers net ++ [new_peer] in
  let degs := <[new_peer := 0%nat]> (degrees net) in
  if bool_decide (1 < length peers1)%nat then
    match select_peers_power_law rand {| peers := peers1; degrees := degs |}
            (take (length peers1 - 1) peers1) with
    | None => None
    | Some selected =>
        match connect new_peer selected degs with
        | None => None
        | Some degs' => Some {| peers := peers1; degrees := degs' |}
        end
    end
  else Some {| peers := peers1; degrees := degs |}.

(** [simulate]: [draws t] are the values of [random()] in the [t]-th
    call of [add_peer]. *)
Fixpoint simulate_from (draws : nat → nat → float) (t num_peers : nat) (net : PeerNetwork)
  : option PeerNetwork :=
  match num_peers with
  | O => Some net
  | S rest =>
      match add_peer (draws t) net with
      | None => None
      | Some net' => simulate_from draws (S t) rest net'
      end
  end.

Definition simulate (draws : nat → nat → float) (num_peers : nat) (net : PeerNetwork)
  : option PeerNetwork :=
  simulate_from draws 0 num_peers net.

End Growth.

(** The degree recorded for a peer, 0 when there is none. *)
Definition degree (net : PeerNetwork) (peer : string) : nat :=
  default 0%nat (degrees net !! peer).

Definition total_degree (net : PeerNetwork) : nat :=
  sum_list_with (degree net) (peers net).

(** The name given to the peer added after [i] others, and the names
    of the first [n] peers. *)
Definition name (i : nat) : string := ("Peer" +:+ pretty (i + 1)%nat)%string.

Definition names (n : nat) : list string := name <$> seq 0 n.

(** What [add_peer] relies on and keeps. *)
Definition consistent (net : PeerNetwork) : Prop :=
  peers net = names (length (peers net))
  ∧ ∀ p, p ∈ peers net → is_Some (degrees net !! p).

(** The invariant of the simulation. *)
Definition sound (net : PeerNetwork) : Prop :=
  consistent net
  ∧ total_degree net = (2 * (length (peers net) - 1))%nat
  ∧ ((2 ≤ length (peers net))%nat → ∀ p, p ∈ peers net → (1 ≤ degree net p)%nat).

End Simulation.

(** ** The process launcher ([starter.py]) *)
Module Starter.

(** A child process, by its command line. *)
Abbreviation process := (list string).

Record NodeManager : Type := mkManager {
  peer_port_start : Z;
  peer_port_end : Z;
  used_ports : gset Z;
  peer_processes : gmap Z process;
  seed_processes : list process
}.

(** [NodeManager.__init__], with the port range of the configuration. *)
Definition init (first last : Z) : NodeManager :=
  {| peer_port_start := first; peer_port_end := last; used_ports := ∅;
     peer_processes := ∅; seed_processes := [] |}.

(** The loop of [get_free_peer_port] over the ports still to try;
    [is_port_free] is what the operating system answers. *)
Fixpoint first_free (is_port_free : Z → bool) (used : gset Z) (ports : list Z)
  : option Z :=
  match ports with
  | [] => None
  | port :: rest =>
      if bool_decide (port ∈ used) then first_free is_port_free used rest
      else if is_port_free port then Some port
      else first_free is_port_free used rest
  end.

(** [get_free_peer_port]; [None] stands for the [RuntimeError]. *)
Definition get_free_peer_port (is_port_free : Z → bool) (m : NodeManager)
  : option (Z * NodeManager) :=
  let ports := seqZ (peer_port_start m) (peer_port_end m + 1 - peer_port_start m) in
  match first_free is_port_free (used_ports m) ports with
  | Some port =>
      Some (port,
            {| peer_port_start := peer_port_start m; peer_port_end := peer_port_end m;
               used_ports := used_ports m ∪ {[port]};
               peer_processes := peer_processes m;
               seed_processes := seed_processes m |})
  | None => None
  end.

Definition peer_command (port : Z) : process :=
  ["python"; "peer.py"; "127.0.0.1:" +:+ pretty port]%string.

Definition spawn_peer (is_port_free : Z → bool) (m : NodeManager)
  : option (Z * NodeManager) :=
  match get_free_peer_port is_port_free m with
  | Some (port, m1) =>
      Some (port,
            {| peer_port_start := peer_port_start m1; peer_port_end := peer_port_end m1;
               used_ports := used_ports m1;
               peer_processes := <[port := peer_command port]> (peer_processes m1);
               seed_processes := seed_processes m1 |})
  | None => None
  end.

Definition kill_peer (m : NodeManager) (port : Z) : NodeManager :=
  match peer_processes m !! port with
  | None => m
  | Some _ =>
      {| peer_port_start := peer_port_start m; peer_port_end := peer_port_end m;
         used_ports := used_ports m ∖ {[port]};
         peer_processes := delete port (peer_processes m);
         seed_processes := seed_processes m |}
  end.

End Starter.

(** ** Concrete nodes used in the examples below *)
Module Examples.

Definition localhost : string := "127.0.0.1".
Definition s1 : Endpoint := (localhost, 6001).
Definition s2 : Endpoint := (localhost, 6002).
Definition s3 : Endpoint := (localhost, 6003).
Definition p1 : Endpoint := (localhost, 7001).
Definition p2 : Endpoint := (localhost, 7002).
Definition p3 : Endpoint := (localhost, 7003).
Definition p4 : Endpoint := (localhost, 7004).
Definition config : list Endpoint := [s1; s2; s3].

Definition all_up : network := λ _, true.

(** Seed [s1] of a three-seed deployment, freshly started. *)
Definition seed1 : Seed.SeedNode := Seed.init localhost 6001 config.

(** [seed1] after [p1] registered there and [s2] seconded it. *)
Definition seed1_p1_listed : Seed.SeedNode :=
  (Seed.handle_client all_up
     (Seed.handle_client all_up seed1 (Register p1)).1 (RegisterVote p1 s2)).1.

(** ... and after [p1] was reported dead, again seconded by [s2]. *)
Definition seed1_p1_evicted : Seed.SeedNode :=
  (Seed.handle_client all_up
     (Seed.handle_client all_up seed1_p1_listed (DeadNode p1 p2)).1
     (DeadVote p1 s2)).1.

(** Three values of [random()]. *)
Definition draws (j : nat) : float :=
  match j with
  | 1%nat => 0.875%float
  | _ => 0.5%float
  end.

(** The numbers [0, 1, 2, ...] as floats. *)
Fixpoint float_of_nat (d : nat) : float :=
  match d with
  | O => 0%float
  | S d' => (float_of_nat d' + 1)%float
  end.

(** A stand-in for the float power at the exponent [-2.0]: the quotient
    [1 / (d * d)], rounded once, which is what [d ** -2.0] returns for the
    small [d] of the examples below. *)
Definition rounded_pow (d : nat) (y : float) : float :=
  (1 / (float_of_nat d * float_of_nat d))%float.

(** A stand-in for the built-in [sum]: left to right from [0], as
    CPython 3.11 adds floats. *)
Definition left_sum (l : list float) : float := foldl PrimFloat.add 0%float l.

(** A stand-in for the interpreter's string hash. *)
Definition text_hash (m : string) : Z := Z.of_nat (String.length m).

(** Peer [p1], freshly started. *)
Definition peer1 : Peer.PeerNode := Peer.init localhost 7001 config.

(** [peer1] after it registered with [s1] and [s2]. *)
Definition peer1_registered : Peer.PeerNode :=
  (Peer.register_with_seed all_up peer1 [s1; s2]).1.

(** ... and after [p2] introduced itself. *)
Definition peer1_with_p2 : Peer.PeerNode :=
  (Peer.handle_peer text_hash all_up peer1_registered (localhost, 50123)
     (PeerInfo p2)).1.

End Examples.

(** * Lists of endpoints and events *)
Section ListFacts.
Context {A : Type} `{EqDecision A}.

Lemma occurrences_absent (x : A) (l : list A) :
  x ∉ l → filter (λ y, y = x) l = [].
Proof.
  induction l as [|y l IH]; [done|].
  intros [Hne Hl]%not_elem_of_cons. rewrite filter_cons.
  case_decide; [congruence | by apply IH].
Qed.

Lemma occurrences_NoDup (x : A) (l : list A) :
  NoDup l → (length (filter (λ y, y = x) l) ≤ 1)%nat.
Proof.
  induction 1 as [|y l Hy Hl IH]; [simpl; lia|].
  rewrite filter_cons. case_decide; [subst|done].
  rewrite occurrences_absent by done. simpl; lia.
Qed.

End ListFacts.

(** * Properties of the seed directory *)
Module SeedFacts.
Import Seed.

Lemma check_register_quorum_ledgers s peer :
  register_votes (check_register_quorum s peer).1 = register_votes s
  ∧ dead_votes (check_register_quorum s peer).1 = dead_votes s
  ∧ quorum (check_register_quorum s peer).1 = quorum s.
Proof. unfold check_register_quorum. by case_match. Qed.

Lemma check_dead_quorum_ledgers s peer :
  register_votes (check_dead_quorum s peer).1 = register_votes s
  ∧ dead_votes (check_dead_quorum s peer).1 = dead_votes s
  ∧ quorum (check_dead_quorum s peer).1 = quorum s.
Proof. unfold check_dead_quorum. by case_match. Qed.

(** The directory after a tally check, as a set equation. *)
Lemma check_register_quorum_list s peer :
  peer_list (check_register_quorum s peer).1 =
    if bool_decide (quorum s ≤ tally (register_votes s) peer)%nat
    then peer_list s ∪ {[peer]} else peer_list s.
Proof.
  unfold check_register_quorum.
  repeat case_bool_decide; simpl; try done. set_solver.
Qed.

Lemma check_dead_quorum_list s peer :
  peer_list (check_dead_quorum s peer).1 =
    if bool_decide (quorum s ≤ tally (dead_votes s) peer)%nat
    then peer_list s ∖ {[peer]} else peer_list s.
Proof.
  unfold check_dead_quorum.
  repeat case_bool_decide; simpl; try done. set_solver.
Qed.

Lemma voters_add_vote votes peer voter q :
  default ∅ (add_vote votes peer voter !! q) =
    if decide (peer = q) then default ∅ (votes !! peer) ∪ {[voter]}
    else default ∅ (votes !! q).
Proof.
  unfold add_vote. rewrite lookup_insert. by case_decide.
Qed.

Lemma tally_add_vote_mono votes peer voter q :
  (tally votes q ≤ tally (add_vote votes peer voter) q)%nat.
Proof.
  unfold tally. rewrite voters_add_vote.
  case_decide; subst; [apply subseteq_size; set_solver | done].
Qed.

Lemma add_vote_idemp votes peer voter :
  add_vote (add_vote votes peer voter) peer voter = add_vote votes peer voter.
Proof.
  unfold add_vote. rewrite lookup_insert_eq, insert_insert_eq. simpl.
  f_equal. set_solver.
Qed.

(** Serving a request is running its critical sections back to back. *)
Lemma handle_client_sections up s req :
  (handle_client up s req).1 = foldl enter s (sections_of s req).
Proof.
  destruct req; simpl; try done.
  - unfold handle_register_request. by destruct (check_register_quorum _ _).
  - unfold handle_dead_report. by destruct (check_dead_quorum _ _).
Qed.

Lemma enter_self s c : ip (enter s c) = ip s ∧ port (enter s c) = port s.
Proof.
  destruct c; simpl; try done.
  - unfold check_register_quorum. by case_match.
  - unfold check_dead_quorum. by case_match.
Qed.

Lemma enter_quorum s c : quorum (enter s c) = quorum s.
Proof.
  destruct c; simpl; try done.
  - apply check_register_quorum_ledgers.
  - apply check_dead_quorum_ledgers.
Qed.

(** Ledgers only grow. *)
Lemma enter_ledgers_mono s c q :
  default ∅ (register_votes s !! q) ⊆ default ∅ (register_votes (enter s c) !! q)
  ∧ default ∅ (dead_votes s !! q) ⊆ default ∅ (dead_votes (enter s c) !! q).
Proof.
  destruct c; simpl.
  - rewrite voters_add_vote. case_decide; subst; set_solver.
  - by destruct (check_register_quorum_ledgers s peer) as (-> & -> & _).
  - rewrite voters_add_vote. case_decide; subst; set_solver.
  - by destruct (check_dead_quorum_ledgers s peer) as (-> & -> & _).
Qed.

(** The directory changes only in a tally check that finds a quorum. *)
Lemma enter_added s c p :
  p ∉ peer_list s → p ∈ peer_list (enter s c) →
  c = CheckRegister p ∧ (quorum s ≤ tally (register_votes s) p)%nat.
Proof.
  destruct c; simpl; try done.
  - rewrite check_register_quorum_list. case_bool_decide; [|done].
    intros ? [?| ->%elem_of_singleton]%elem_of_union; done.
  - rewrite check_dead_quorum_list. case_bool_decide; set_solver.
Qed.

Lemma enter_removed s c p :
  p ∈ peer_list s → p ∉ peer_list (enter s c) →
  c = CheckDead p ∧ (quorum s ≤ tally (dead_votes s) p)%nat.
Proof.
  destruct c; simpl; try done.
  - rewrite check_register_quorum_list. case_bool_decide; set_solver.
  - rewrite check_dead_quorum_list. case_bool_decide; [|done].
    intros Hin Hout. destruct (decide (peer = p)) as [->|]; [done|].
    set_solver.
Qed.

Lemma tally_enter_mono s c p :
  (tally (register_votes s) p ≤ tally (register_votes (enter s c)) p)%nat
  ∧ (tally (dead_votes s) p ≤ tally (dead_votes (enter s c)) p)%nat.
Proof.
  unfold tally. split; apply subseteq_size, enter_ledgers_mono.
Qed.

Lemma enter_preserves s c : listed_with_quorum s → listed_with_quorum (enter s c).
Proof.
  intros Hinv p Hp. rewrite enter_quorum.
  destruct (decide (p ∈ peer_list s)) as [Hin|Hout].
  - etrans; [by apply Hinv | apply tally_enter_mono].
  - destruct (enter_added _ _ _ Hout Hp) as [-> Hq].
    etrans; [exact Hq | apply tally_enter_mono].
Qed.

Lemma foldl_enter_preserves cs s :
  listed_with_quorum s → listed_with_quorum (foldl enter s cs).
Proof.
  revert s. induction cs as [|c cs IH]; intros s Hs; [done|].
  simpl. by apply IH, enter_preserves.
Qed.

Lemma foldl_enter_quorum cs s : quorum (foldl enter s cs) = quorum s.
Proof.
  revert s. induction cs as [|c cs IH]; intros s; [done|].
  simpl. by rewrite IH, enter_quorum.
Qed.

Lemma foldl_enter_tally cs s p :
  (tally (register_votes s) p ≤ tally (register_votes (foldl enter s cs)) p)%nat
  ∧ (tally (dead_votes s) p ≤ tally (dead_votes (foldl enter s cs)) p)%nat.
Proof.
  revert s. induction cs as [|c cs IH]; intros s; [done|].
  simpl. destruct (IH (enter s c)), (tally_enter_mono s c p). lia.
Qed.

Lemma foldl_enter_added cs s p :
  p ∉ peer_list s → p ∈ peer_list (foldl enter s cs) →
  (quorum s ≤ tally (register_votes (foldl enter s cs)) p)%nat.
Proof.
  revert s. induction cs as [|c cs IH]; intros s Hout Hin; [done|].
  simpl in *. destruct (decide (p ∈ peer_list (enter s c))) as [Hmid|Hmid].
  - destruct (enter_added _ _ _ Hout Hmid) as [-> Hq].
    destruct (tally_enter_mono s (CheckRegister p) p).
    destruct (foldl_enter_tally cs (enter s (CheckRegister p)) p). lia.
  - rewrite <- (enter_quorum s c). by apply IH.
Qed.

Lemma foldl_enter_removed cs s p :
  p ∈ peer_list s → p ∉ peer_list (foldl enter s cs) →
  (quorum s ≤ tally (dead_votes (foldl enter s cs)) p)%nat.
Proof.
  revert s. induction cs as [|c cs IH]; intros s Hin Hout; [done|].
  simpl in *. destruct (decide (p ∈ peer_list (enter s c))) as [Hmid|Hmid].
  - rewrite <- (enter_quorum s c). by apply IH.
  - destruct (enter_removed _ _ _ Hin Hmid) as [-> Hq].
    destruct (tally_enter_mono s (CheckDead p) p).
    destruct (foldl_enter_tally cs (enter s (CheckDead p)) p). lia.
Qed.

Lemma interleaved_quorum ip0 port0 config s :
  interleaved ip0 port0 config s → quorum s = majority (length config).
Proof. induction 1; [done|]. by rewrite enter_quorum. Qed.

(** Quorum safety holds whatever the interleaving of handler threads. *)
Lemma interleaved_listed_with_quorum ip0 port0 config s :
  interleaved ip0 port0 config s → listed_with_quorum s.
Proof.
  induction 1; [|by apply enter_preserves].
  intros p Hp. simpl in Hp. set_solver.
Qed.

Lemma foldl_enter_interleaved ip0 port0 config cs s :
  interleaved ip0 port0 config s →
  interleaved ip0 port0 config (foldl enter s cs).
Proof.
  revert s. induction cs as [|c cs IH]; intros s Hs; [done|].
  simpl. apply IH. by constructor.
Qed.

Lemma reachable_interleaved ip0 port0 config s :
  reachable ip0 port0 config s → interleaved ip0 port0 config s.
Proof.
  induction 1; [constructor|].
  rewrite handle_client_sections. by apply foldl_enter_interleaved.
Qed.

(** C2 (quorum safety): in every reachable state of a seed, each endpoint
    of [peer_list] has at least [Q = floor(|config|/2)+1] distinct voters
    in the register ledger; a request adds an endpoint only with a register
    tally of at least [Q] and removes one only with a dead tally of at
    least [Q]. *)
Theorem quorum_safety ip0 port0 config s :
  reachable ip0 port0 config s →
  let Q := majority (length config) in
  quorum s = Q
  ∧ (∀ p, p ∈ peer_list s → (Q ≤ size (default ∅ (register_votes s !! p)))%nat)
  ∧ (∀ up req p,
       let s' := (handle_client up s req).1 in
       (p ∉ peer_list s → p ∈ peer_list s' →
          (Q ≤ size (default ∅ (register_votes s' !! p)))%nat)
       ∧ (p ∈ peer_list s → p ∉ peer_list s' →
          (Q ≤ size (default ∅ (dead_votes s' !! p)))%nat)).
Proof.
  intros Hs%reachable_interleaved Q.
  pose proof (interleaved_quorum _ _ _ _ Hs) as HQ. fold Q in HQ.
  split_and!; [done| |].
  - intros p Hp. rewrite <- HQ.
    by apply (interleaved_listed_with_quorum _ _ _ _ Hs).
  - intros up req p s'. subst s'. rewrite handle_client_sections, <- HQ.
    split; [apply foldl_enter_added | apply foldl_enter_removed].
Qed.

Lemma quorum_safety_witness :
  reachable Examples.localhost 6001 Examples.config Examples.seed1_p1_listed
  ∧ Examples.p1 ∈ peer_list Examples.seed1_p1_listed
  ∧ (2 ≤ size (default ∅ (register_votes Examples.seed1_p1_listed !! Examples.p1)))%nat.
Proof.
  assert (reachable Examples.localhost 6001 Examples.config Examples.seed1_p1_listed)
    as Hs by (unfold Examples.seed1_p1_listed; do 2 apply reach_step; apply reach_init).
  split; [exact Hs|]. split; [vm_compute; reflexivity|].
  destruct (quorum_safety _ _ _ _ Hs) as (_ & Hlisted & _).
  apply Hlisted. vm_compute; reflexivity.
Defined.

(** *** Idempotence of requests and votes *)

Lemma handle_register_request_state up s peer :
  (handle_register_request up s peer).1 = (handle_register_vote s peer (self s)).1.
Proof.
  unfold handle_register_request, handle_register_vote.
  by destruct (check_register_quorum _ _).
Qed.

Lemma handle_dead_report_state up s peer :
  (handle_dead_report up s peer).1 = (handle_dead_vote s peer (self s)).1.
Proof.
  unfold handle_dead_report, handle_dead_vote.
  by destruct (check_dead_quorum _ _).
Qed.

Lemma handle_register_request_list up s peer :
  peer_list (handle_register_request up s peer).1 =
    if bool_decide (quorum s ≤ size (default ∅ (register_votes s !! peer) ∪ {[self s]}))%nat
    then peer_list s ∪ {[peer]} else peer_list s.
Proof.
  rewrite handle_register_request_state. unfold handle_register_vote.
  rewrite check_register_quorum_list.
  simpl. unfold tally. rewrite voters_add_vote. by rewrite decide_True.
Qed.

Lemma handle_dead_report_list up s peer :
  peer_list (handle_dead_report up s peer).1 =
    if bool_decide (quorum s ≤ size (default ∅ (dead_votes s !! peer) ∪ {[self s]}))%nat
    then peer_list s ∖ {[peer]} else peer_list s.
Proof.
  rewrite handle_dead_report_state. unfold handle_dead_vote.
  rewrite check_dead_quorum_list.
  simpl. unfold tally. rewrite voters_add_vote. by rewrite decide_True.
Qed.

Lemma handle_client_register_list up s peer :
  peer_list (handle_client up s (Register peer)).1 =
    peer_list (handle_register_request up s peer).1.
Proof. simpl. by destruct (handle_register_request up s peer). Qed.

Lemma handle_client_dead_list up s peer reporter :
  peer_list (handle_client up s (DeadNode peer reporter)).1 =
    peer_list (handle_dead_report up s peer).1.
Proof. simpl. by destruct (handle_dead_report up s peer). Qed.

Lemma register_repeatedly_list s peer ups :
  peer_list (register_repeatedly s peer ups) = peer_list s
  ∨ peer_list (register_repeatedly s peer ups) = peer_list s ∪ {[peer]}.
Proof.
  unfold register_repeatedly. revert s.
  induction ups as [|up ups IH]; intros s; [by left|].
  cbn [foldl]. destruct (IH (handle_client up s (Register peer)).1) as [-> | ->];
    rewrite handle_client_register_list, handle_register_request_list;
    case_bool_decide; auto; right; set_solver.
Qed.

(** A tally check that has just run changes nothing when run again. *)
Lemma check_register_quorum_idemp s peer :
  (check_register_quorum (check_register_quorum s peer).1 peer).1 =
    (check_register_quorum s peer).1.
Proof.
  unfold check_register_quorum at 2 3.
  destruct (bool_decide _ && bool_decide _) eqn:E; simpl.
  - unfold check_register_quorum. simpl.
    rewrite (bool_decide_eq_false_2 (peer ∉ _)); [|set_solver].
    by rewrite andb_false_r.
  - unfold check_register_quorum. by rewrite E.
Qed.

Lemma check_dead_quorum_idemp s peer :
  (check_dead_quorum (check_dead_quorum s peer).1 peer).1 =
    (check_dead_quorum s peer).1.
Proof.
  unfold check_dead_quorum at 2 3.
  destruct (bool_decide _ && bool_decide _) eqn:E; simpl.
  - unfold check_dead_quorum. simpl.
    rewrite (bool_decide_eq_false_2 (peer ∈ _)); [|set_solver].
    by rewrite andb_false_r.
  - unfold check_dead_quorum. by rewrite E.
Qed.

(** Recording a vote commutes with the tally check that precedes it, as
    far as the state after the next check is concerned. *)
Lemma register_vote_twice s peer voter :
  (handle_register_vote (handle_register_vote s peer voter).1 peer voter).1 =
    (handle_register_vote s peer voter).1.
Proof.
  unfold handle_register_vote.
  set (s1 := set_register_votes s _).
  assert (set_register_votes (check_register_quorum s1 peer).1
            (add_vote (register_votes (check_register_quorum s1 peer).1) peer voter)
          = (check_register_quorum s1 peer).1) as ->.
  { unfold check_register_quorum. case_match; simpl;
      unfold set_register_votes; simpl; by rewrite add_vote_idemp. }
  apply check_register_quorum_idemp.
Qed.

Lemma dead_vote_twice s peer voter :
  (handle_dead_vote (handle_dead_vote s peer voter).1 peer voter).1 =
    (handle_dead_vote s peer voter).1.
Proof.
  unfold handle_dead_vote.
  set (s1 := set_dead_votes s _).
  assert (set_dead_votes (check_dead_quorum s1 peer).1
            (add_vote (dead_votes (check_dead_quorum s1 peer).1) peer voter)
          = (check_dead_quorum s1 peer).1) as ->.
  { unfold check_dead_quorum. case_match; simpl;
      unfold set_dead_votes; simpl; by rewrite add_vote_idemp. }
  apply check_dead_quorum_idemp.
Qed.

Lemma handle_register_vote_self s peer voter :
  self (handle_register_vote s peer voter).1 = self s.
Proof.
  unfold handle_register_vote, check_register_quorum. by case_match.
Qed.

(** C6 (idempotence): serving the same [register] request any number of
    times leaves the directory either as it was or with that one endpoint
    added, so it grows by at most one entry and lists the endpoint at most
    once; a second identical request changes nothing at all; a [dead_node]
    report for an endpoint that is not in the directory leaves the
    directory as it is; and a vote that is cast twice leaves the state it
    left when cast once. *)
Theorem requests_idempotent s peer voter reporter up up' ups :
  let s' := register_repeatedly s peer ups in
  (peer_list s' = peer_list s ∨ peer_list s' = peer_list s ∪ {[peer]})
  ∧ (size (peer_list s') ≤ S (size (peer_list s)))%nat
  ∧ (length (filter (λ e, e = peer) (elements (peer_list s'))) ≤ 1)%nat
  ∧ (handle_client up' (handle_client up s (Register peer)).1 (Register peer)).1
      = (handle_client up s (Register peer)).1
  ∧ (peer ∉ peer_list s →
       peer_list (handle_client up s (DeadNode peer reporter)).1 = peer_list s)
  ∧ (handle_client up' (handle_client up s (RegisterVote peer voter)).1
         (RegisterVote peer voter)).1
      = (handle_client up s (RegisterVote peer voter)).1
  ∧ (handle_client up' (handle_client up s (DeadVote peer voter)).1
         (DeadVote peer voter)).1
      = (handle_client up s (DeadVote peer voter)).1.
Proof.
  intros s'. split_and!.
  - apply register_repeatedly_list.
  - unfold s'.
    destruct (register_repeatedly_list s peer ups) as [-> | ->]; [lia|].
    destruct (decide (peer ∈ peer_list s)).
    + replace (peer_list s ∪ {[peer]}) with (peer_list s) by set_solver. lia.
    + rewrite size_union, size_singleton by set_solver. lia.
  - apply occurrences_NoDup, NoDup_elements.
  - assert (∀ u t, (handle_client u t (Register peer)).1
                   = (handle_register_vote t peer (self t)).1) as Hreq.
    { intros u t. rewrite <- (handle_register_request_state u). simpl.
      by destruct (handle_register_request u t peer). }
    rewrite !Hreq, handle_register_vote_self. apply register_vote_twice.
  - intros Hout. rewrite handle_client_dead_list, handle_dead_report_list.
    case_bool_decide; set_solver.
  - simpl. apply register_vote_twice.
  - simpl. apply dead_vote_twice.
Qed.

Lemma requests_idempotent_witness :
  (Examples.p1 ∉ peer_list Examples.seed1_p1_evicted)
  ∧ (peer_list (handle_client Examples.all_up Examples.seed1_p1_evicted
                  (DeadNode Examples.p1 Examples.p2)).1
     = peer_list Examples.seed1_p1_evicted).
Proof.
  assert (Examples.p1 ∉ peer_list Examples.seed1_p1_evicted) as Hout
    by (vm_compute; intros [=]).
  split; [exact Hout|].
  apply (requests_idempotent Examples.seed1_p1_evicted Examples.p1 Examples.s2
           Examples.p2 Examples.all_up Examples.all_up []).
  exact Hout.
Defined.

(** Scenario: [p1] registers at [s1], [s2] seconds, and [get_peers]
    returns exactly [p1]. *)
Example get_peers_after_registration :
  (handle_client Examples.all_up Examples.seed1_p1_listed GetPeers).2
  = [Reply (PeersReply [Examples.p1])].
Proof. vm_compute. reflexivity. Qed.

(** *** Ledgers outlive directory transitions *)

Lemma foldl_enter_ledgers_mono cs s q :
  default ∅ (register_votes s !! q) ⊆ default ∅ (register_votes (foldl enter s cs) !! q)
  ∧ default ∅ (dead_votes s !! q) ⊆ default ∅ (dead_votes (foldl enter s cs) !! q).
Proof.
  revert s. induction cs as [|c cs IH]; intros s; [done|].
  simpl. destruct (IH (enter s c)), (enter_ledgers_mono s c q).
  split; by etrans.
Qed.

(** C10 (stale ledgers): no request ever shrinks a vote ledger; hence,
    when the register ledger of an absent endpoint already holds a quorum,
    one [register] request puts the endpoint back at once, whatever the
    other seeds do, and adds nothing to the ledger but the seed's own
    vote; and when the dead ledger of a listed endpoint already holds a
    quorum, one [dead_node] report removes it again. *)
Theorem stale_ledgers_reapply up s peer reporter :
  (∀ req q,
     default ∅ (register_votes s !! q)
       ⊆ default ∅ (register_votes (handle_client up s req).1 !! q)
     ∧ default ∅ (dead_votes s !! q)
       ⊆ default ∅ (dead_votes (handle_client up s req).1 !! q))
  ∧ ((quorum s ≤ size (default ∅ (register_votes s !! peer)))%nat →
     peer ∉ peer_list s →
     let s' := (handle_client up s (Register peer)).1 in
     peer ∈ peer_list s'
     ∧ default ∅ (register_votes s' !! peer)
       = default ∅ (register_votes s !! peer) ∪ {[self s]})
  ∧ ((quorum s ≤ size (default ∅ (dead_votes s !! peer)))%nat →
     peer ∈ peer_list s →
     let s' := (handle_client up s (DeadNode peer reporter)).1 in
     (peer ∉ peer_list s')
     ∧ default ∅ (dead_votes s' !! peer)
       = default ∅ (dead_votes s !! peer) ∪ {[self s]}).
Proof.
  split_and!.
  - intros req q. rewrite handle_client_sections.
    apply foldl_enter_ledgers_mono.
  - intros Hq Hout s'. split.
    + unfold s'. rewrite handle_client_register_list, handle_register_request_list.
      rewrite bool_decide_eq_true_2; [set_solver|].
      etrans; [exact Hq | apply subseteq_size; set_solver].
    + unfold s'. rewrite handle_client_sections. simpl.
      destruct (check_register_quorum_ledgers
                  (set_register_votes s (add_vote (register_votes s) peer (self s)))
                  peer) as (-> & _).
      simpl. rewrite voters_add_vote. by rewrite decide_True.
  - intros Hq Hin s'. split.
    + unfold s'. rewrite handle_client_dead_list, handle_dead_report_list.
      rewrite bool_decide_eq_true_2; [set_solver|].
      etrans; [exact Hq | apply subseteq_size; set_solver].
    + unfold s'. rewrite handle_client_sections. simpl.
      destruct (check_dead_quorum_ledgers
                  (set_dead_votes s (add_vote (dead_votes s) peer (self s)))
                  peer) as (_ & -> & _).
      simpl. rewrite voters_add_vote. by rewrite decide_True.
Qed.

Lemma stale_ledgers_reapply_witness :
  let s := Examples.seed1_p1_evicted in
  let s' := (handle_client (λ _, false) s (Register Examples.p1)).1 in
  ((quorum s ≤ size (default ∅ (register_votes s !! Examples.p1)))%nat
   ∧ (Examples.p1 ∉ peer_list s) ∧ Examples.p1 ∈ peer_list s')
  ∧ ((quorum s' ≤ size (default ∅ (dead_votes s' !! Examples.p1)))%nat
     ∧ Examples.p1 ∈ peer_list s'
     ∧ Examples.p1 ∉ peer_list
         (handle_client (λ _, false) s' (DeadNode Examples.p1 Examples.p2)).1).
Proof.
  intros s s'.
  assert (quorum s ≤ size (default ∅ (register_votes s !! Examples.p1)))%nat
    as Hq by (vm_compute; lia).
  assert (Examples.p1 ∉ peer_list s) as Hout by (vm_compute; intros [=]).
  assert (quorum s' ≤ size (default ∅ (dead_votes s' !! Examples.p1)))%nat
    as Hq' by (vm_compute; lia).
  assert (Examples.p1 ∈ peer_list s') as Hin by (vm_compute; reflexivity).
  split.
  - split; [exact Hq|]. split; [exact Hout|].
    apply (stale_ledgers_reapply (λ _, false) s Examples.p1 Examples.p2);
      [exact Hq | exact Hout].
  - split; [exact Hq'|]. split; [exact Hin|].
    apply (stale_ledgers_reapply (λ _, false) s' Examples.p1 Examples.p2);
      [exact Hq' | exact Hin].
Defined.

End SeedFacts.

(** * Properties of the peer node *)
Module PeerFacts.
Import Peer.

(** ** Events of a fan-out *)

Lemma elem_of_send_each up dsts f e :
  e ∈ send_each up dsts f ↔ ∃ dst, e = Send dst f ∧ dst ∈ dsts ∧ up dst = true.
Proof.
  unfold send_each. rewrite list_elem_of_fmap. split.
  - intros (dst & -> & [? ?]%list_elem_of_filter). eauto.
  - intros (dst & -> & ? & ?). exists dst. split; [done|].
    by apply list_elem_of_filter.
Qed.

Lemma send_each_all_up dsts f :
  send_each (λ _, true) dsts f = (λ dst, Send dst f) <$> dsts.
Proof.
  unfold send_each. f_equal. induction dsts as [|d dsts IH]; [done|].
  rewrite filter_cons. case_decide; [by f_equal | done].
Qed.

(** Exactly one frame per reachable destination when the destinations
    are pairwise distinct. *)
Lemma send_each_occurrences up dsts f dst :
  NoDup dsts →
  length (filter (λ e, e = Send dst f) (send_each up dsts f)) =
    if bool_decide (dst ∈ dsts ∧ up dst = true) then 1%nat else 0%nat.
Proof.
  unfold send_each. induction 1 as [|d dsts Hd Hnd IH].
  { rewrite bool_decide_eq_false_2; [done|]. by intros [?%elem_of_nil _]. }
  rewrite filter_cons. destruct (decide (up d = true)) as [Hup|Hup].
  - rewrite fmap_cons, filter_cons.
    destruct (decide (Send d f = Send dst f)) as [Heq|Heq].
    + injection Heq as ->. cbn [length]. rewrite IH.
      rewrite (bool_decide_eq_false_2 (dst ∈ dsts ∧ up dst = true)) by tauto.
      rewrite bool_decide_eq_true_2; [done|]. split; [left|done].
    + rewrite IH.
      rewrite (bool_decide_ext (dst ∈ d :: dsts ∧ up dst = true)
                 (dst ∈ dsts ∧ up dst = true)); [done|].
      rewrite elem_of_cons. split; [|tauto].
      intros [[->|?] ?]; [congruence|tauto].
  - rewrite IH.
    rewrite (bool_decide_ext (dst ∈ d :: dsts ∧ up dst = true)
               (dst ∈ dsts ∧ up dst = true)); [done|].
    rewrite elem_of_cons. split; [|tauto].
    intros [[->|?] ?]; [congruence|tauto].
Qed.

(** ** Suspicion votes *)

(** [quorum_neighbors] as a formula of the neighbor set. *)
Lemma quorum_neighbors_formula s :
  quorum_neighbors s
  = (if bool_decide (peers s = ∅) then 1 else size (peers s) / 2 + 1)%nat.
Proof.
  unfold quorum_neighbors, majority.
  destruct (decide (peers s = ∅)) as [He|Hne].
  - rewrite He, size_empty.
    rewrite (bool_decide_eq_true_2 (∅ = ∅)) by done.
    by rewrite bool_decide_eq_false_2 by lia.
  - rewrite (bool_decide_eq_false_2 (peers s = ∅)) by done.
    rewrite bool_decide_eq_true_2; [done|].
    apply Nat.neq_0_lt_0. by intros ?%size_empty_inv%leibniz_equiv.
Qed.


Lemma handle_suspicion_vote_state up s peer voter :
  (handle_suspicion_vote up s peer voter).1 =
    set_suspicion_votes s (<[peer := accusers s peer ∪ {[voter]}]> (suspicion_votes s)).
Proof. unfold handle_suspicion_vote. by case_match. Qed.

Lemma accusers_after_vote up s peer voter q :
  accusers (handle_suspicion_vote up s peer voter).1 q =
    if decide (peer = q) then accusers s peer ∪ {[voter]} else accusers s q.
Proof.
  rewrite handle_suspicion_vote_state. unfold accusers at 1. simpl.
  rewrite lookup_insert. by case_decide.
Qed.

Lemma handle_suspicion_vote_events up s peer voter :
  (handle_suspicion_vote up s peer voter).2 =
    if bool_decide (quorum_neighbors s ≤ size (accusers s peer ∪ {[voter]}))%nat
    then Log (LogConsensusReached peer)
         :: send_each up (elements (registered_seeds s)) (DeadNode peer (self s))
    else [].
Proof.
  unfold handle_suspicion_vote.
  set (s' := set_suspicion_votes s _).
  assert (accusers s' peer = accusers s peer ∪ {[voter]}) as ->.
  { unfold accusers at 1. simpl. by rewrite lookup_insert_eq. }
  change (quorum_neighbors s') with (quorum_neighbors s).
  by case_bool_decide.
Qed.

(** C9 (votes are taken at face value): whatever the state of the
    receiver, a [suspicion_vote] frame adds its voter to the accusers of
    its suspect and touches nothing else.  With [QN = floor(|peers|/2)+1],
    or 1 when there are no neighbors, the frames written while handling
    the vote are exactly these: when the accusers of the suspect, the
    voter included, number at least [QN], one [dead_node] report that
    names the suspect and the receiver, to every registered seed that can
    be reached; and none otherwise.  The consensus line is logged in the
    first case only.  Neither the neighbor set nor the strike counts nor
    the receiver's own identity enter the decision. *)
Theorem suspicion_vote_unconditional hash up s addr suspect voter :
  let r := handle_peer hash up s addr (SuspicionVote suspect voter) in
  let QN := (if bool_decide (peers s = ∅) then 1 else size (peers s) / 2 + 1)%nat in
  let reached := (QN ≤ size (accusers s suspect ∪ {[voter]}))%nat in
  accusers r.1 suspect = accusers s suspect ∪ {[voter]}
  ∧ (∀ q, q ≠ suspect → accusers r.1 q = accusers s q)
  ∧ peers r.1 = peers s
  ∧ suspicions r.1 = suspicions s
  ∧ registered_seeds r.1 = registered_seeds s
  ∧ message_list r.1 = message_list s
  ∧ (∀ dst f, Send dst f ∈ r.2 ↔
       reached ∧ dst ∈ registered_seeds s ∧ up dst = true
       ∧ f = DeadNode suspect (self s))
  ∧ (∀ seed, reached → seed ∈ registered_seeds s → up seed = true →
       length (filter (λ e, e = Send seed (DeadNode suspect (self s))) r.2) = 1%nat)
  ∧ (∀ entry, Log entry ∈ r.2 ↔ reached ∧ entry = LogConsensusReached suspect)
  ∧ (∀ f, Reply f ∉ r.2).
Proof.
  intros r QN reached. unfold r. cbn [handle_peer].
  assert (accusers (handle_suspicion_vote up s suspect voter).1 suspect
          = accusers s suspect ∪ {[voter]}) as Hacc.
  { rewrite accusers_after_vote. by rewrite decide_True. }
  assert (quorum_neighbors s = QN) as HQN by apply quorum_neighbors_formula.
  rewrite handle_suspicion_vote_events, HQN. fold reached.
  split_and!.
  - exact Hacc.
  - intros q Hq. rewrite accusers_after_vote. by rewrite decide_False.
  - by rewrite handle_suspicion_vote_state.
  - by rewrite handle_suspicion_vote_state.
  - by rewrite handle_suspicion_vote_state.
  - by rewrite handle_suspicion_vote_state.
  - intros dst f. case_bool_decide as Hq.
    + rewrite elem_of_cons, elem_of_send_each. split.
      * intros [[=]|(d & [= -> ->] & Hd%elem_of_elements & Hup)]. done.
      * intros (_ & Hd & Hup & ->). right. exists dst.
        by rewrite elem_of_elements.
    + split; [by intros ?%elem_of_nil|tauto].
  - intros seed Hq Hseed Hup. rewrite bool_decide_eq_true_2 by done.
    rewrite filter_cons, decide_False by done.
    rewrite send_each_occurrences by apply NoDup_elements.
    rewrite bool_decide_eq_true_2; [done|]. by rewrite elem_of_elements.
  - intros entry. case_bool_decide as Hq.
    + rewrite elem_of_cons, elem_of_send_each. split.
      * intros [[= ->]|(d & [=] & _)]. done.
      * intros (_ & ->). by left.
    + split; [by intros ?%elem_of_nil|tauto].
  - intros f. case_bool_decide as Hq; [|by intros ?%elem_of_nil].
    rewrite elem_of_cons, elem_of_send_each. by intros [[=]|(d & [=] & _)].
Qed.

Lemma suspicion_vote_unconditional_witness :
  let s := Examples.peer1_registered in
  let r := handle_peer Examples.text_hash Examples.all_up s
             (Examples.localhost, 50123) (SuspicionVote Examples.p1 Examples.p4) in
  peers s = ∅
  ∧ strikes s Examples.p1 = 0%nat
  ∧ accusers r.1 Examples.p1 = accusers s Examples.p1 ∪ {[Examples.p4]}
  ∧ Send Examples.s1 (DeadNode Examples.p1 Examples.p1) ∈ r.2
  ∧ length (filter (λ e, e = Send Examples.s1 (DeadNode Examples.p1 (self s))) r.2)
    = 1%nat.
Proof.
  intros s r.
  destruct (suspicion_vote_unconditional Examples.text_hash Examples.all_up s
              (Examples.localhost, 50123) Examples.p1 Examples.p4)
    as (Hacc & _ & _ & _ & _ & _ & Hsend & Hcount & _).
  assert (1 ≤ size (accusers s Examples.p1 ∪ {[Examples.p4]}))%nat as Hreached
    by (vm_compute; lia).
  assert (Examples.s1 ∈ registered_seeds s) as Hseed by (vm_compute; reflexivity).
  assert (Examples.all_up Examples.s1 = true) as Hup by reflexivity.
  assert (DeadNode Examples.p1 Examples.p1 = DeadNode Examples.p1 (self s)) as Hf
    by (vm_compute; reflexivity).
  split; [vm_compute; reflexivity|]. split; [vm_compute; reflexivity|].
  split; [exact Hacc|]. split.
  - exact (proj2 (Hsend Examples.s1 (DeadNode Examples.p1 Examples.p1))
             (conj Hreached (conj Hseed (conj Hup Hf)))).
  - exact (Hcount Examples.s1 Hreached Hseed Hup).
Defined.

(** A vote about the receiver itself, from a stranger, with no strikes on
    record and no neighbors: the receiver reports itself dead. *)
Example stranger_vote_reports_self :
  (handle_peer Examples.text_hash Examples.all_up Examples.peer1_registered
     (Examples.localhost, 50123) (SuspicionVote Examples.p1 Examples.p4)).2
  = [Log (LogConsensusReached Examples.p1);
     Send Examples.s1 (DeadNode Examples.p1 Examples.p1);
     Send Examples.s2 (DeadNode Examples.p1 Examples.p1)].
Proof. vm_compute. reflexivity. Qed.

(** ** Gossip *)

Lemma elem_of_broadcast_message up s message exclude e :
  e ∈ broadcast_message up s message exclude ↔
    ∃ n, e = Send n (Gossip message)
         ∧ n ∈ peers s ∧ Some n ≠ exclude ∧ up n = true.
Proof.
  unfold broadcast_message. rewrite elem_of_send_each. split.
  - intros (n & -> & [? ?%elem_of_elements]%list_elem_of_filter & ?). eauto.
  - intros (n & -> & ? & ? & ?). exists n. split_and!; [done| |done].
    apply list_elem_of_filter. by rewrite elem_of_elements.
Qed.

Lemma NoDup_send_each up dsts f : NoDup dsts → NoDup (send_each up dsts f).
Proof.
  intros Hnd. unfold send_each. apply NoDup_fmap_2.
  - by intros ?? [= ->].
  - by apply NoDup_filter.
Qed.

Lemma NoDup_broadcast_message up s message exclude :
  NoDup (broadcast_message up s message exclude).
Proof.
  unfold broadcast_message.
  apply NoDup_send_each, NoDup_filter, NoDup_elements.
Qed.

(** What a [gossip] frame does: one whose fingerprint is already in
    [message_list] changes nothing and sends nothing; otherwise the
    fingerprint is inserted and nothing else changes, the message is
    logged, and after the log line exactly one [gossip] frame with the same
    message goes to every neighbor that can be reached, except a neighbor
    whose endpoint is the address the frame came from. *)
Lemma gossip_frame_effect hash up s addr msg :
  let r := handle_peer hash up s addr (Gossip msg) in
  (hash msg ∈ message_list s → r = (s, []))
  ∧ (hash msg ∉ message_list s →
       r.1 = set_message_list s (message_list s ∪ {[hash msg]})
       ∧ ∃ sent,
           r.2 = Log (LogGossipReceived msg) :: sent
           ∧ NoDup sent
           ∧ ∀ e, e ∈ sent ↔
                  ∃ n, e = Send n (Gossip msg)
                       ∧ n ∈ peers s ∧ n ≠ addr ∧ up n = true).
Proof.
  intros r. unfold r. cbn [handle_peer]. split.
  - intros Hseen. rewrite bool_decide_eq_false_2; [done|]. by intros ?.
  - intros Hnew. rewrite bool_decide_eq_true_2 by done. split; [done|].
    eexists. split; [done|]. split; [apply NoDup_broadcast_message|].
    intros e. rewrite elem_of_broadcast_message. simpl.
    split; intros (n & -> & ? & ? & ?); exists n; split_and!; try done;
      congruence.
Qed.

(** C5 (gossip receipt), at the input where it breaks.  The frame carries
    no sender; [handle_peer] passes the remote address of the accepted
    socket as [exclude], and [broadcast_message] compares it with the
    listening endpoints in the neighbor set.  A neighbor relays from a
    fresh socket, whose port is not the one it listens on, so its
    connection comes from an address that is no neighbor's endpoint: a new
    message is logged, recorded, and sent to every neighbor that can be
    reached, the one it came from included. *)
Theorem gossip_sent_back_to_sender hash up s sender source_port msg :
  sender ∈ peers s → up sender = true →
  source_port ≠ sender.2 →
  hash msg ∉ message_list s →
  let addr := (sender.1, source_port) in
  let r := handle_peer hash up s addr (Gossip msg) in
  r.1 = set_message_list s (message_list s ∪ {[hash msg]})
  ∧ Log (LogGossipReceived msg) ∈ r.2
  ∧ Send sender (Gossip msg) ∈ r.2
  ∧ (∀ n, Send n (Gossip msg) ∈ r.2 ↔ n ∈ peers s ∧ n ≠ addr ∧ up n = true).
Proof.
  intros Hsender Hup Hport Hnew addr r.
  destruct (gossip_frame_effect hash up s addr msg) as [_ Hfresh].
  destruct (Hfresh Hnew) as (Hstate & sent & Hevs & _ & Hsent).
  fold r in Hstate, Hevs.
  assert (∀ n, Send n (Gossip msg) ∈ r.2 ↔ n ∈ peers s ∧ n ≠ addr ∧ up n = true)
    as Hall.
  { intros n. rewrite Hevs, elem_of_cons, Hsent. split.
    - intros [[=]|(n' & [= ->] & ?)]. done.
    - intros ?. right. by exists n. }
  split_and!; [done| |apply Hall|done].
  - rewrite Hevs. by left.
  - split_and!; [done| |done]. destruct sender as [sip sport].
    unfold addr. simpl in *. congruence.
Qed.

Lemma gossip_sent_back_to_sender_witness :
  let s := Examples.peer1_with_p2 in
  let r := handle_peer Examples.text_hash Examples.all_up s
             (Examples.localhost, 50123) (Gossip "hello") in
  Examples.p2 ∈ peers s
  ∧ (Examples.text_hash "hello" ∉ message_list s)
  ∧ Send Examples.p2 (Gossip "hello") ∈ r.2.
Proof.
  intros s r.
  assert (Examples.p2 ∈ peers s) as Hsender by (vm_compute; reflexivity).
  assert (Examples.all_up Examples.p2 = true) as Hup by reflexivity.
  assert (50123 ≠ Examples.p2.2) as Hport by (vm_compute; intros [=]).
  assert (Examples.text_hash "hello" ∉ message_list s) as Hnew
    by (vm_compute; intros [=]).
  destruct (gossip_sent_back_to_sender Examples.text_hash Examples.all_up s
              Examples.p2 50123 "hello" Hsender Hup Hport Hnew)
    as (_ & _ & Hback & _).
  split; [exact Hsender|]. split; [exact Hnew|exact Hback].
Defined.

(** The sender is recognised by the address of the accepted socket only:
    a neighbor relaying from another port gets the message back. *)
Example gossip_returns_to_sender :
  (handle_peer Examples.text_hash Examples.all_up Examples.peer1_with_p2
     (Examples.localhost, 50123) (Gossip "hello")).2
  = [Log (LogGossipReceived "hello"); Send Examples.p2 (Gossip "hello")]
  ∧ (handle_peer Examples.text_hash Examples.all_up Examples.peer1_with_p2
       Examples.p2 (Gossip "hello")).2
    = [Log (LogGossipReceived "hello")].
Proof. split; vm_compute; reflexivity. Qed.

(** Relaying is suppressed per fingerprint: once a message has been
    received, receiving it again sends nothing. *)
Lemma gossip_relayed_once hash up up' s addr addr' msg :
  (handle_peer hash up' (handle_peer hash up s addr (Gossip msg)).1 addr'
     (Gossip msg)).2 = [].
Proof.
  cbn [handle_peer]. destruct (bool_decide (hash msg ∉ message_list s)) eqn:E.
  - simpl. rewrite bool_decide_eq_false_2; [done|]. set_solver.
  - simpl. by rewrite E.
Qed.

Lemma originate_state up s now :
  message_list (originate up s now).1 = message_list s
  ∧ peers (originate up s now).1 = peers s.
Proof. unfold originate. by case_bool_decide. Qed.

(** C3 (each message broadcast at most once), at the input where it
    breaks: [originate] sends its message to the neighbors without
    recording the fingerprint, so when that message comes back the peer
    takes it for new and sends it to the same neighbor a second time. *)
Theorem own_message_broadcast_twice hash up up' s now addr q :
  (message_count s < 10)%nat →
  hash (own_message s now) ∉ message_list s →
  q ∈ peers s → q ≠ addr → up q = true → up' q = true →
  let r1 := originate up s now in
  let r2 := handle_peer hash up' r1.1 addr (Gossip (own_message s now)) in
  Send q (Gossip (own_message s now)) ∈ r1.2
  ∧ Send q (Gossip (own_message s now)) ∈ r2.2.
Proof.
  intros Hcount Hnew Hq Hne Hup Hup' r1 r2. split.
  - unfold r1, originate. rewrite bool_decide_eq_true_2 by done. simpl.
    fold (own_message s now). apply elem_of_broadcast_message.
    exists q. split_and!; done.
  - unfold r2, r1. cbn [handle_peer].
    destruct (originate_state up s now) as [-> Hpeers].
    rewrite bool_decide_eq_true_2 by done. simpl. right.
    apply elem_of_broadcast_message. exists q. split_and!; try done.
    + simpl. by rewrite Hpeers.
    + congruence.
Qed.

Lemma own_message_broadcast_twice_witness :
  let s := Examples.peer1_with_p2 in
  let now := "1700000000.5"%string in
  let msg := "1700000000.5:127.0.0.1:0"%string in
  let r1 := originate Examples.all_up s now in
  let r2 := handle_peer Examples.text_hash Examples.all_up r1.1
              (Examples.localhost, 50123) (Gossip msg) in
  own_message s now = msg
  ∧ Send Examples.p2 (Gossip msg) ∈ r1.2
  ∧ Send Examples.p2 (Gossip msg) ∈ r2.2.
Proof.
  intros s now msg r1 r2.
  assert (own_message s now = msg) as Hmsg by (vm_compute; reflexivity).
  split; [exact Hmsg|]. rewrite <- Hmsg.
  apply (own_message_broadcast_twice Examples.text_hash Examples.all_up
           Examples.all_up s now (Examples.localhost, 50123) Examples.p2).
  - vm_compute; lia.
  - vm_compute; intros [=].
  - vm_compute; reflexivity.
  - intros [=].
  - reflexivity.
  - reflexivity.
Defined.

(** The same run, event by event. *)
Example own_message_trace :
  (run Examples.text_hash Examples.rounded_pow Examples.left_sum Examples.peer1_with_p2
     [(Examples.all_up, Originate "1700000000.5");
      (Examples.all_up,
       Receive (Examples.localhost, 50123) (Gossip "1700000000.5:127.0.0.1:0"))]).2
  = [Send Examples.p2 (Gossip "1700000000.5:127.0.0.1:0");
     Log (LogGossipReceived "1700000000.5:127.0.0.1:0");
     Send Examples.p2 (Gossip "1700000000.5:127.0.0.1:0")].
Proof. vm_compute. reflexivity. Qed.

(** ** The neighbor set *)

(** C8 (the neighbor set excludes the peer itself), at the input where it
    breaks: [connect_to_peers] skips the peer's own endpoint, but the
    [peer_info] branch of [handle_peer] adds whatever endpoint the frame
    carries, the receiver's own included. *)
Theorem inbound_peer_info_adds_self hash up s addr :
  let s' := (handle_peer hash up s addr (PeerInfo (self s))).1 in
  self s' = self s ∧ self s' ∈ peers s'.
Proof. simpl. split; [done|]. unfold self. simpl. set_solver. Qed.

(** Such a state is reachable from a fresh peer in one step. *)
Example self_among_neighbors :
  let s := (step Examples.text_hash Examples.rounded_pow Examples.left_sum Examples.all_up Examples.peer1
              (Receive (Examples.localhost, 50123) (PeerInfo Examples.p1))).1 in
  reachable Examples.text_hash Examples.rounded_pow Examples.left_sum Examples.localhost 7001 Examples.config s
  ∧ self s = Examples.p1
  ∧ elements (peers s) = [Examples.p1].
Proof.
  split; [apply reach_step, reach_init|].
  split; vm_compute; reflexivity.
Qed.

Lemma connect_to_peers_state up s selected :
  let s' := (connect_to_peers up s selected).1 in
  self s' = self s
  ∧ peers s ⊆ peers s'
  ∧ (∀ n, n ∈ peers s' → n ∈ peers s ∨ (n ∈ selected ∧ n ≠ self s ∧ up n = true)).
Proof.
  revert s. induction selected as [|peer rest IH]; intros s; simpl.
  { split_and!; [done|done|auto]. }
  destruct (bool_decide (peer = self s)) eqn:Eself; [|destruct (up peer) eqn:Eup].
  - destruct (connect_to_peers up s rest) as [s2 evs] eqn:E.
    specialize (IH s). rewrite E in IH. simpl in *.
    destruct IH as (? & ? & IH). split_and!; [done|done|].
    intros n [?|(? & ? & ?)]%IH; [by left|right].
    split_and!; [by right|done|done].
  - destruct (connect_to_peers up _ rest) as [s2 evs] eqn:E.
    specialize (IH (set_peers s (peers s ∪ {[peer]}))). rewrite E in IH.
    simpl in *. destruct IH as (? & ? & IH).
    apply bool_decide_eq_false in Eself.
    split_and!; [done|set_solver|].
    intros n [[?| ->%elem_of_singleton]%elem_of_union|(? & ? & ?)]%IH.
    + by left.
    + right. split_and!; [by left|done|done].
    + right. split_and!; [by right|done|done].
  - destruct (connect_to_peers up s rest) as [s2 evs] eqn:E.
    specialize (IH s). rewrite E in IH. simpl in *.
    destruct IH as (? & ? & IH). split_and!; [done|done|].
    intros n [?|(? & ? & ?)]%IH; [by left|right].
    split_and!; [by right|done|done].
Qed.

Lemma register_with_seed_state up s selected :
  let s' := (register_with_seed up s selected).1 in
  peers s' = peers s ∧ suspicion_votes s' = suspicion_votes s
  ∧ suspicions s' = suspicions s ∧ self s' = self s.
Proof.
  revert s. induction selected as [|seed rest IH]; intros s; simpl; [done|].
  destruct (up seed).
  - destruct (register_with_seed up _ rest) as [s2 evs] eqn:E.
    specialize (IH (set_registered_seeds s (registered_seeds s ∪ {[seed]}))).
    rewrite E in IH. exact IH.
  - destruct (register_with_seed up s rest) as [s2 evs] eqn:E.
    specialize (IH s). rewrite E in IH. exact IH.
Qed.

Lemma start_suspicion_state up s peer :
  let s' := (start_suspicion up s peer).1 in
  peers s' = peers s ∧ suspicion_votes s' = suspicion_votes s
  ∧ registered_seeds s' = registered_seeds s ∧ self s' = self s.
Proof. unfold start_suspicion. by case_bool_decide. Qed.

Lemma ping_one_state up pong s peer :
  let s' := (ping_one up pong s peer).1 in
  peers s' = peers s ∧ suspicion_votes s' = suspicion_votes s
  ∧ registered_seeds s' = registered_seeds s ∧ self s' = self s.
Proof.
  unfold ping_one. destruct (up peer); [destruct (pong peer)|]; simpl; try done.
  - pose proof (start_suspicion_state up s peer) as H.
    by destruct (start_suspicion up s peer).
  - apply start_suspicion_state.
Qed.

Lemma ping_all_state up pong s peers_copy :
  let s' := (ping_all up pong s peers_copy).1 in
  peers s' = peers s ∧ suspicion_votes s' = suspicion_votes s
  ∧ registered_seeds s' = registered_seeds s ∧ self s' = self s.
Proof.
  revert s. induction peers_copy as [|peer rest IH]; intros s; simpl; [done|].
  pose proof (ping_one_state up pong s peer) as H1.
  destruct (ping_one up pong s peer) as [s1 evs].
  specialize (IH s1). destruct (ping_all up pong s1 rest) as [s2 evs'].
  simpl in *. destruct H1 as (<- & <- & <- & <-). exact IH.
Qed.

(** The neighbor set changes in two places only: the handshakes of
    [fetch_peers], which never add the peer itself, and the [peer_info]
    branch of [handle_peer]. *)
Lemma peers_mutated_by_handshakes_only hash pow fsum up s i n :
  n ∉ peers s → n ∈ peers (step hash pow fsum up s i).1 →
  (∃ replies rand, i = FetchPeers replies rand ∧ n ≠ self s ∧ up n = true)
  ∨ (∃ addr, i = Receive addr (PeerInfo n)).
Proof.
  intros Hout Hin. destruct i as [selected|replies rand|now|pong|addr data]; simpl in Hin.
  - by destruct (register_with_seed_state up s selected) as (Hp & _); rewrite Hp in Hin.
  - left. exists replies, rand. split; [done|].
    unfold fetch_peers in Hin. destruct (query_seeds _ _ _) as [all_peers asked].
    set (selected := select_peers_power_law _ _ _ _) in Hin.
    pose proof (connect_to_peers_state up s selected) as (_ & _ & Hnew).
    destruct (connect_to_peers up s selected) as [s' sent]. simpl in *.
    destruct (Hnew n Hin) as [?|(_ & ? & ?)]; done.
  - by destruct (originate_state up s now) as [_ Hp]; rewrite Hp in Hin.
  - unfold ping_peers in Hin.
    by destruct (ping_all_state up pong s (elements (peers s))) as (Hp & _);
      rewrite Hp in Hin.
  - right. exists addr. destruct data; simpl in Hin; try done.
    + apply elem_of_union in Hin as [?| ->%elem_of_singleton]; done.
    + by case_bool_decide.
    + by rewrite handle_suspicion_vote_state in Hin.
Qed.

(** Without a [peer_info] frame that names the receiver, the neighbor set
    stays clear of the peer's own endpoint. *)
Lemma step_self hash pow fsum up s i : self (step hash pow fsum up s i).1 = self s.
Proof.
  destruct i as [selected|replies rand|now|pong|addr data]; simpl.
  - apply register_with_seed_state.
  - unfold fetch_peers. destruct (query_seeds _ _ _) as [all_peers asked].
    set (selected := select_peers_power_law _ _ _ _).
    pose proof (connect_to_peers_state up s selected) as (Hs & _).
    by destruct (connect_to_peers up s selected).
  - unfold originate. by case_bool_decide.
  - apply ping_all_state.
  - destruct data; simpl; try done.
    + by case_bool_decide.
    + by rewrite handle_suspicion_vote_state.
Qed.

Lemma self_excluded_by_honest_frames hash pow fsum up s i :
  (∀ addr, i ≠ Receive addr (PeerInfo (self s))) →
  self s ∉ peers s → self (step hash pow fsum up s i).1 ∉ peers (step hash pow fsum up s i).1.
Proof.
  intros Hhonest Hout Hin. rewrite step_self in Hin.
  destruct (peers_mutated_by_handshakes_only hash pow fsum up s i _ Hout Hin)
    as [(? & ? & _ & ? & _)|(addr & ->)]; [done|].
  by apply (Hhonest addr).
Qed.

(** ** Where [dead_node] reports come from *)

Lemma send_each_quiet up dsts f :
  (∀ n r, f ≠ DeadNode n r) → quiet (send_each up dsts f).
Proof.
  intros Hf. apply Forall_forall. intros e (dst & -> & _)%elem_of_send_each.
  destruct f; simpl; try tauto. by destruct (Hf dead reporter).
Qed.

Lemma register_with_seed_quiet up s selected :
  quiet (register_with_seed up s selected).2.
Proof.
  revert s. induction selected as [|seed rest IH]; intros s; simpl; [constructor|].
  destruct (up seed).
  - specialize (IH (set_registered_seeds s (registered_seeds s ∪ {[seed]}))).
    destruct (register_with_seed up _ rest). simpl in *.
    repeat (constructor; [tauto|]). exact IH.
  - specialize (IH s). destruct (register_with_seed up s rest). simpl in *.
    constructor; [tauto|exact IH].
Qed.

Lemma connect_to_peers_quiet up s selected :
  quiet (connect_to_peers up s selected).2.
Proof.
  revert s. induction selected as [|peer rest IH]; intros s; simpl; [constructor|].
  destruct (bool_decide (peer = self s)); [|destruct (up peer)].
  - specialize (IH s). by destruct (connect_to_peers up s rest).
  - specialize (IH (set_peers s (peers s ∪ {[peer]}))).
    destruct (connect_to_peers up _ rest). simpl in *.
    constructor; [tauto|exact IH].
  - specialize (IH s). by destruct (connect_to_peers up s rest).
Qed.

Lemma query_seeds_quiet up replies seeds : quiet (query_seeds up replies seeds).2.
Proof.
  induction seeds as [|seed rest IH]; simpl; [constructor|].
  destruct (query_seeds up replies rest) as [found evs]. simpl in *.
  destruct (up seed); simpl; [constructor; [tauto|exact IH] | exact IH].
Qed.

Lemma fetch_peers_quiet pow fsum up replies rand s : quiet (fetch_peers pow fsum up replies rand s).2.
Proof.
  unfold fetch_peers.
  pose proof (query_seeds_quiet up replies (elements (registered_seeds s))) as Hq.
  destruct (query_seeds _ _ _) as [all_peers asked].
  set (selected := select_peers_power_law _ _ _ _).
  pose proof (connect_to_peers_quiet up s selected) as Hc.
  destruct (connect_to_peers up s selected) as [s' sent]. simpl in *.
  repeat (apply Forall_app; split); try done.
  constructor; [tauto|constructor].
Qed.

Lemma originate_quiet up s now : quiet (originate up s now).2.
Proof.
  unfold originate. case_bool_decide; simpl; [|constructor].
  by apply send_each_quiet.
Qed.

Lemma start_suspicion_quiet up s peer : quiet (start_suspicion up s peer).2.
Proof.
  unfold start_suspicion. case_bool_decide; simpl; [|constructor].
  by apply send_each_quiet.
Qed.

Lemma ping_one_quiet up pong s peer : quiet (ping_one up pong s peer).2.
Proof.
  unfold ping_one. pose proof (start_suspicion_quiet up s peer) as H.
  destruct (up peer); [destruct (pong peer)|]; simpl; try done.
  - constructor; [tauto|constructor].
  - destruct (start_suspicion up s peer). simpl in *. constructor; [tauto|done].
Qed.

(** A round of pings sends pings and suspicion votes, never a report. *)
Lemma ping_all_quiet up pong s peers_copy :
  quiet (ping_all up pong s peers_copy).2.
Proof.
  revert s. induction peers_copy as [|peer rest IH]; intros s; simpl; [constructor|].
  pose proof (ping_one_quiet up pong s peer) as H1.
  destruct (ping_one up pong s peer) as [s1 evs].
  specialize (IH s1). destruct (ping_all up pong s1 rest) as [s2 evs'].
  simpl in *. by apply Forall_app.
Qed.

Lemma quiet_no_report evs dst n r : quiet evs → Send dst (DeadNode n r) ∉ evs.
Proof.
  intros Hq Hin. rewrite Forall_forall in Hq. by apply (Hq _ Hin).
Qed.

(** A report in the events of a step pins the step down. *)
Lemma report_origin hash pow fsum up s i dst n r :
  Send dst (DeadNode n r) ∈ (step hash pow fsum up s i).2 →
  ∃ addr voter,
    i = Receive addr (SuspicionVote n voter)
    ∧ (quorum_neighbors s ≤ size (accusers s n ∪ {[voter]}))%nat
    ∧ dst ∈ registered_seeds s ∧ up dst = true ∧ r = self s.
Proof.
  intros Hin.
  destruct i as [selected|replies rand|now|pong|addr data]; simpl in Hin.
  - by apply quiet_no_report in Hin; [|apply register_with_seed_quiet].
  - by apply quiet_no_report in Hin; [|apply fetch_peers_quiet].
  - by apply quiet_no_report in Hin; [|apply originate_quiet].
  - by apply quiet_no_report in Hin; [|apply ping_all_quiet].
  - destruct data; simpl in Hin; try by apply elem_of_nil in Hin.
    + case_bool_decide; [|by apply elem_of_nil in Hin].
      apply elem_of_cons in Hin as [[=]|Hin].
      by apply elem_of_broadcast_message in Hin as (? & [=] & _).
    + by repeat (apply elem_of_cons in Hin as [[=]|Hin]);
        apply elem_of_nil in Hin.
    + rewrite handle_suspicion_vote_events in Hin.
      case_bool_decide as Hq; [|by apply elem_of_nil in Hin].
      apply elem_of_cons in Hin as [[=]|Hin].
      apply elem_of_send_each in Hin as (d & [= -> -> ->] & Hd & Hup).
      apply elem_of_elements in Hd. by exists addr, voter.
Qed.

(** C1 (suspicion threshold), as the code has it: a peer sends a
    [dead_node] report for [n] only while handling a received
    [suspicion_vote] for [n], and then the accusers of [n], the new voter
    included, number at least [QN], where [QN = floor(|peers|/2)+1], or 1
    when there are no neighbors; the report goes to registered seeds and
    names the peer as reporter.  Strike counts play no part, and the peer
    need not be among the accusers. *)
Theorem report_only_on_vote_quorum hash pow fsum up s i dst n r :
  Send dst (DeadNode n r) ∈ (step hash pow fsum up s i).2 →
  let s' := (step hash pow fsum up s i).1 in
  ∃ addr voter,
    i = Receive addr (SuspicionVote n voter)
    ∧ voter ∈ accusers s' n
    ∧ (quorum_neighbors s' ≤ size (accusers s' n))%nat
    ∧ quorum_neighbors s'
      = (if bool_decide (peers s' = ∅) then 1 else size (peers s') / 2 + 1)%nat
    ∧ dst ∈ registered_seeds s' ∧ r = self s'.
Proof.
  intros (addr & voter & -> & Hq & Hdst & _ & ->)%report_origin s'.
  exists addr, voter. unfold s'. cbn [step handle_peer].
  rewrite accusers_after_vote, decide_True by done.
  rewrite handle_suspicion_vote_state. split_and!; try done.
  - set_solver.
  - unfold quorum_neighbors, majority. cbn [peers set_suspicion_votes].
    destruct (decide (peers s = ∅)) as [He|Hne].
    + rewrite He, size_empty.
      rewrite (bool_decide_eq_true_2 (∅ = ∅)) by done.
      by rewrite bool_decide_eq_false_2 by lia.
    + rewrite (bool_decide_eq_false_2 (peers s = ∅)) by done.
      rewrite bool_decide_eq_true_2; [done|].
      apply Nat.neq_0_lt_0. by intros ?%size_empty_inv%leibniz_equiv.
Qed.

Lemma report_only_on_vote_quorum_witness :
  let s := Examples.peer1_registered in
  let i := Receive (Examples.localhost, 50123) (SuspicionVote Examples.p4 Examples.p2) in
  let r := step Examples.text_hash Examples.rounded_pow Examples.left_sum Examples.all_up s i in
  Send Examples.s1 (DeadNode Examples.p4 Examples.p1) ∈ r.2
  ∧ ∃ addr voter,
      i = Receive addr (SuspicionVote Examples.p4 voter)
      ∧ voter ∈ accusers r.1 Examples.p4
      ∧ (quorum_neighbors r.1 ≤ size (accusers r.1 Examples.p4))%nat.
Proof.
  intros s i r.
  assert (Send Examples.s1 (DeadNode Examples.p4 Examples.p1) ∈ r.2) as Hin
    by (vm_compute; apply list_elem_of_further, list_elem_of_here).
  split; [exact Hin|].
  destruct (report_only_on_vote_quorum _ _ _ _ _ _ _ _ _ Hin)
    as (addr & voter & H1 & H2 & H3 & _).
  exists addr, voter. split; [exact H1|]. split; [exact H2|exact H3].
Defined.

(** C1 as stated fails: fresh from registration, with no ping ever sent
    and no strike on record, [p1] reports [p4] dead on the word of a single
    stranger, and is not itself among the accusers. *)
Lemma report_without_strikes :
  let s := Examples.peer1_registered in
  let r := step Examples.text_hash Examples.rounded_pow Examples.left_sum Examples.all_up s
             (Receive (Examples.localhost, 50123)
                (SuspicionVote Examples.p4 Examples.p2)) in
  reachable Examples.text_hash Examples.rounded_pow Examples.left_sum Examples.localhost 7001 Examples.config s
  ∧ Send Examples.s1 (DeadNode Examples.p4 Examples.p1) ∈ r.2
  ∧ strikes s Examples.p4 = 0%nat
  ∧ self r.1 ∉ accusers r.1 Examples.p4.
Proof.
  split_and!.
  - apply (reach_step _ _ _ _ _ _ _ Examples.all_up (RegisterWithSeed [Examples.s1; Examples.s2])).
    apply reach_init.
  - vm_compute. apply list_elem_of_further, list_elem_of_here.
  - vm_compute. reflexivity.
  - vm_compute. intros [=].
Qed.

(** ** How often a suspect is reported *)

Lemma occurrences_quiet evs dst n r :
  quiet evs → filter (λ e, e = Send dst (DeadNode n r)) evs = [].
Proof.
  intros Hq. apply occurrences_absent. by apply quiet_no_report.
Qed.

(** C4 (one report per observer and suspect), as the code has it: every
    [suspicion_vote] for a suspect that is handled while the accusers, the
    voter included, number at least [QN] sends one [dead_node] report to
    each registered seed that can be reached, and none otherwise; once
    the accusers have reached [QN] they stay there as long as the neighbor
    set is unchanged, so each further vote, a repeated one too, sends the
    reports again.  A round of pings sends no report at all. *)
Theorem report_on_every_vote_at_quorum hash up s addr suspect voter seed :
  let r := handle_peer hash up s addr (SuspicionVote suspect voter) in
  length (filter (λ e, e = Send seed (DeadNode suspect (self s))) r.2)
    = (if bool_decide ((quorum_neighbors s ≤ size (accusers s suspect ∪ {[voter]}))%nat
                       ∧ seed ∈ registered_seeds s ∧ up seed = true)
       then 1 else 0)%nat
  ∧ ((quorum_neighbors s ≤ size (accusers s suspect))%nat →
     (quorum_neighbors r.1 ≤ size (accusers r.1 suspect))%nat
     ∧ registered_seeds r.1 = registered_seeds s ∧ self r.1 = self s)
  ∧ (∀ pong dst n rep, Send dst (DeadNode n rep) ∉ (ping_peers up pong s).2).
Proof.
  intros r. unfold r. cbn [handle_peer]. split_and!.
  - rewrite handle_suspicion_vote_events. case_bool_decide as Hq.
    + rewrite filter_cons, decide_False by done.
      rewrite send_each_occurrences by apply NoDup_elements.
      rewrite (bool_decide_ext (seed ∈ elements (registered_seeds s) ∧ up seed = true)
                 ((quorum_neighbors s ≤ size (accusers s suspect ∪ {[voter]}))%nat
                  ∧ seed ∈ registered_seeds s ∧ up seed = true)); [done|].
      rewrite elem_of_elements. tauto.
    + rewrite bool_decide_eq_false_2 by tauto. done.
  - intros Hq. rewrite accusers_after_vote, decide_True by done.
    rewrite handle_suspicion_vote_state. split_and!; [|done|done].
    change (quorum_neighbors (set_suspicion_votes s _)) with (quorum_neighbors s).
    etrans; [exact Hq | apply subseteq_size; set_solver].
  - intros pong dst n rep. apply quiet_no_report, ping_all_quiet.
Qed.

Lemma report_on_every_vote_at_quorum_witness :
  let s := (handle_peer Examples.text_hash Examples.all_up Examples.peer1_registered
              (Examples.localhost, 50123)
              (SuspicionVote Examples.p4 Examples.p2)).1 in
  let r := handle_peer Examples.text_hash Examples.all_up s
             (Examples.localhost, 50124) (SuspicionVote Examples.p4 Examples.p3) in
  (quorum_neighbors s ≤ size (accusers s Examples.p4))%nat
  ∧ (quorum_neighbors r.1 ≤ size (accusers r.1 Examples.p4))%nat
  ∧ length (filter (λ e, e = Send Examples.s1 (DeadNode Examples.p4 (self s))) r.2)
    = 1%nat.
Proof.
  intros s r.
  assert (quorum_neighbors s ≤ size (accusers s Examples.p4))%nat as Hq
    by (vm_compute; lia).
  destruct (report_on_every_vote_at_quorum Examples.text_hash Examples.all_up s
              (Examples.localhost, 50124) Examples.p4 Examples.p3 Examples.s1)
    as (Hcount & Hstays & _).
  split; [exact Hq|]. split; [apply (Hstays Hq)|].
  fold r in Hcount. rewrite Hcount. vm_compute. reflexivity.
Defined.

(** C4 as stated fails: [p1], with no neighbors, is told twice by [p2]
    that [p4] is dead, and reports [p4] to seed [s1] both times. *)
Lemma report_repeated_after_quorum :
  let vote := Receive (Examples.localhost, 50123)
                (SuspicionVote Examples.p4 Examples.p2) in
  let script := [(Examples.all_up, RegisterWithSeed [Examples.s1; Examples.s2]);
                 (Examples.all_up, vote); (Examples.all_up, vote)] in
  length (filter (λ e, e = Send Examples.s1 (DeadNode Examples.p4 Examples.p1))
            (run Examples.text_hash Examples.rounded_pow Examples.left_sum Examples.peer1 script).2) = 2%nat.
Proof. vm_compute. reflexivity. Qed.

(** Scenario: four peers, all neighbors of one another ([QN = 2] at [p1],
    which has three neighbors); [p4] stops answering.  After two rounds of
    pings [p1] has two strikes against [p4] and has told its neighbors, but
    records no accuser of its own; the vote of [p2] alone is below the
    quorum, and the vote of [p3] reaches it and triggers the one report. *)
Example failure_detection_scenario :
  let pong : network := λ n, bool_decide (n ≠ Examples.p4) in
  let hello n := (Examples.all_up, Receive (Examples.localhost, 50000) (PeerInfo n)) in
  let vote v := (Examples.all_up,
                 Receive (Examples.localhost, 50000) (SuspicionVote Examples.p4 v)) in
  let r := run Examples.text_hash Examples.rounded_pow Examples.left_sum Examples.peer1_registered
             [hello Examples.p2; hello Examples.p3; hello Examples.p4;
              (Examples.all_up, PingRound pong); (Examples.all_up, PingRound pong)] in
  let r' := run Examples.text_hash Examples.rounded_pow Examples.left_sum r.1 [vote Examples.p2; vote Examples.p3] in
  strikes r.1 Examples.p4 = 2%nat
  ∧ accusers r.1 Examples.p4 = ∅
  ∧ quorum_neighbors r.1 = 2%nat
  ∧ filter (λ e, e = Send Examples.p2 (SuspicionVote Examples.p4 Examples.p1)) r.2
    = [Send Examples.p2 (SuspicionVote Examples.p4 Examples.p1)]
  ∧ filter (λ e, e = Send Examples.s1 (DeadNode Examples.p4 Examples.p1)) r'.2
    = [Send Examples.s1 (DeadNode Examples.p4 Examples.p1)].
Proof. vm_compute. split_and!; reflexivity. Qed.

End PeerFacts.

(** * Properties of the power-law selection *)
Module SelectionFacts.
Import Peer.

Lemma running_length total l : length (running total l) = length l.
Proof.
  revert total. induction l as [|x l IH]; intros total; simpl; [done|].
  by rewrite IH.
Qed.

Lemma accumulate_length l : length (accumulate l) = length l.
Proof. destruct l as [|x l]; simpl; [done|]. by rewrite running_length. Qed.

Lemma running_lookup total l i :
  (i < length l)%nat →
  running total l !! i = Some (foldl PrimFloat.add total (take (S i) l)).
Proof.
  revert total i. induction l as [|x l IH]; intros total i Hi; simpl in *; [lia|].
  destruct i as [|i]; simpl.
  - done.
  - apply IH. lia.
Qed.

(** The [i]-th running total is the first weight with the next [i] weights
    added to it one after the other. *)
Lemma accumulate_lookup l i :
  (i < length l)%nat →
  accumulate l !! i
  = Some (foldl PrimFloat.add (default 0%float (head l)) (take i (tail l))).
Proof.
  destruct l as [|x l]; simpl; [lia|]. intros Hi.
  destruct i as [|i]; simpl; [done|].
  apply running_lookup. lia.
Qed.

Lemma accumulate_last l :
  l ≠ [] →
  last (accumulate l)
  = Some (foldl PrimFloat.add (default 0%float (head l))
            (take (length l - 1) (tail l))).
Proof.
  intros Hne. rewrite last_lookup, accumulate_length.
  replace (Init.Nat.pred (length l)) with (length l - 1)%nat by lia.
  apply accumulate_lookup. destruct l; [done|simpl; lia].
Qed.

Lemma midpoint_between (lo hi : nat) :
  (lo < hi)%nat → (lo ≤ (lo + hi) / 2 ∧ (lo + hi) / 2 < hi)%nat.
Proof.
  intros Hlt. pose proof (Nat.div_mod_eq (lo + hi) 2) as Hdiv.
  pose proof (Nat.mod_upper_bound (lo + hi) 2 ltac:(lia)) as Hmod.
  set (q := ((lo + hi) / 2)%nat) in *. set (r := ((lo + hi) mod 2)%nat) in *. lia.
Qed.

(** The loop of [bisect] ends, within [hi - lo] iterations, at a position
    that the comparisons made on the way justify: the entry before it is
    not above [x], and the entry at it is. *)
Lemma bisect_loop_spec fuel a x lo hi :
  (lo ≤ hi)%nat → (hi - lo ≤ fuel)%nat →
  let i := bisect_loop fuel a x lo hi in
  (lo ≤ i ≤ hi)%nat
  ∧ (i = lo ∨ PrimFloat.ltb x (default 0%float (a !! (i - 1)%nat)) = false)
  ∧ (i = hi ∨ PrimFloat.ltb x (default 0%float (a !! i)) = true).
Proof.
  revert lo hi. induction fuel as [|fuel IH]; intros lo hi Hle Hfuel;
    cbn [bisect_loop].
  { assert (lo = hi) by lia. subst. split; [lia|]. split; by left. }
  case_bool_decide as Hlt.
  2: { assert (lo = hi) by lia. subst. split; [lia|]. split; by left. }
  set (mid := ((lo + hi) / 2)%nat).
  assert (lo ≤ mid ∧ mid < hi)%nat as [Hlo Hhi].
  { by apply midpoint_between. }
  clearbody mid.
  destruct (PrimFloat.ltb x (default 0%float (a !! mid))) eqn:Ecmp.
  - destruct (IH lo mid) as (Hr & Hbelow & Habove); [lia|lia|].
    split; [lia|]. split; [done|].
    destruct Habove as [->|?]; by right.
  - destruct (IH (mid + 1)%nat hi) as (Hr & Hbelow & Habove); [lia|lia|].
    split; [lia|]. split; [|done].
    destruct Hbelow as [->|?]; [|by right].
    right. by replace (mid + 1 - 1)%nat with mid by lia.
Qed.

(** More iterations than [hi - lo] change nothing. *)
Lemma bisect_loop_fuel fuel fuel' a x lo hi :
  (hi - lo ≤ fuel)%nat → (hi - lo ≤ fuel')%nat →
  bisect_loop fuel a x lo hi = bisect_loop fuel' a x lo hi.
Proof.
  revert fuel' lo hi. induction fuel as [|fuel IH]; intros fuel' lo hi H1 H2.
  { destruct fuel'; cbn [bisect_loop]; [done|].
    by rewrite bool_decide_eq_false_2 by lia. }
  destruct fuel' as [|fuel']; cbn [bisect_loop].
  { by rewrite bool_decide_eq_false_2 by lia. }
  case_bool_decide as Hlt; [|done].
  assert (lo ≤ (lo + hi) / 2 ∧ (lo + hi) / 2 < hi)%nat as [Hlo Hhi].
  { by apply midpoint_between. }
  destruct (PrimFloat.ltb _ _); apply IH; lia.
Qed.

Lemma bisect_spec a x hi :
  let i := bisect a x 0 hi in
  (i ≤ hi)%nat
  ∧ (i = 0%nat ∨ PrimFloat.ltb x (default 0%float (a !! (i - 1)%nat)) = false)
  ∧ (i = hi ∨ PrimFloat.ltb x (default 0%float (a !! i)) = true).
Proof.
  unfold bisect.
  destruct (bisect_loop_spec (hi - 0) a x 0 hi) as (? & ? & ?); [lia|lia|].
  split; [lia|]. by split.
Qed.

Lemma power_law_probs_length pow fsum n : length (power_law_probs pow fsum n) = n.
Proof. unfold power_law_probs. by rewrite !length_fmap, length_seq. Qed.

Lemma power_law_probs_lookup pow fsum n i :
  (i < n)%nat →
  power_law_probs pow fsum n !! i
  = Some (pow (i + 1)%nat (-2)%float
          / fsum ((λ i, pow (i + 1)%nat (-2)%float) <$> seq 0 n))%float.
Proof.
  intros Hi. unfold power_law_probs.
  rewrite !list_lookup_fmap, lookup_seq_lt by done. simpl.
  by rewrite <- list_fmap_compose.
Qed.

Lemma choices_lookup rand n weights k j :
  (j < k)%nat →
  choices rand n weights k !! j
  = Some (bisect (accumulate weights)
            (rand j * (default 0%float (last (accumulate weights)) + 0))%float
            0 (n - 1)).
Proof.
  intros Hj. unfold choices. by rewrite list_lookup_fmap, lookup_seq_lt.
Qed.

Lemma choices_length rand n weights k : length (choices rand n weights k) = k.
Proof. unfold choices. by rewrite length_fmap, length_seq. Qed.

(** Whatever the weights and the draws, the indices stay within the
    population. *)
Lemma choices_bound rand n weights k i :
  i ∈ choices rand n weights k → (i ≤ n - 1)%nat.
Proof.
  unfold choices. intros (j & -> & _)%list_elem_of_fmap.
  by destruct (bisect_spec (accumulate weights)
                 (rand j * (default 0%float (last (accumulate weights)) + 0))%float
                 (n - 1)) as (? & _).
Qed.

(** Inverse-transform sampling on the running totals: the draw, scaled by
    the last total, is not below the total before the chosen index and is
    below the total at it. *)
Lemma choices_slice rand n weights k j :
  length weights = n → (0 < n)%nat → (j < k)%nat →
  let cum i := foldl PrimFloat.add (default 0%float (head weights))
                 (take i (tail weights)) in
  let x := (rand j * (cum (n - 1)%nat + 0))%float in
  ∃ i, choices rand n weights k !! j = Some i
       ∧ (i < n)%nat
       ∧ (i = 0%nat ∨ PrimFloat.ltb x (cum (i - 1)%nat) = false)
       ∧ (i = (n - 1)%nat ∨ PrimFloat.ltb x (cum i) = true).
Proof.
  intros Hlen Hn Hj cum x. eexists. split; [by apply choices_lookup|].
  assert (weights ≠ []) as Hne by (intros ->; simpl in Hlen; lia).
  rewrite (accumulate_last weights Hne), Hlen. simpl. fold (cum (n - 1)%nat) x.
  destruct (bisect_spec (accumulate weights) x (n - 1)) as (Hhi & Hbelow & Habove).
  set (i := bisect (accumulate weights) x 0 (n - 1)) in *.
  split; [lia|]. split.
  - destruct Hbelow as [?|Hbelow]; [by left|right].
    by rewrite accumulate_lookup in Hbelow by lia.
  - destruct Habove as [?|Habove]; [by left|right].
    by rewrite accumulate_lookup in Habove by lia.
Qed.

Lemma connect_to_peers_events up s selected e :
  e ∈ (connect_to_peers up s selected).2 →
  ∃ dst, e = Send dst (PeerInfo (self s)) ∧ dst ∈ selected ∧ dst ≠ self s.
Proof.
  revert s. induction selected as [|peer rest IH]; intros s; simpl.
  { by intros ?%elem_of_nil. }
  destruct (bool_decide (peer = self s)) eqn:Eself; [|destruct (up peer)].
  - specialize (IH s). destruct (connect_to_peers up s rest). simpl in *.
    intros (dst & ? & ? & ?)%IH. exists dst. split_and!; [done|by right|done].
  - specialize (IH (set_peers s (peers s ∪ {[peer]}))).
    destruct (connect_to_peers up _ rest). simpl in *.
    apply bool_decide_eq_false in Eself.
    intros [->|(dst & ? & ? & ?)%IH]%elem_of_cons.
    + exists peer. split_and!; [done|by left|done].
    + exists dst. split_and!; [done|by right|done].
  - specialize (IH s). destruct (connect_to_peers up s rest). simpl in *.
    intros (dst & ? & ? & ?)%IH. exists dst. split_and!; [done|by right|done].
Qed.

Lemma query_seeds_events up replies seeds e :
  e ∈ (query_seeds up replies seeds).2 → ∃ seed, e = Send seed GetPeers.
Proof.
  induction seeds as [|seed rest IH]; simpl; [by intros ?%elem_of_nil|].
  destruct (query_seeds up replies rest) as [found evs]. simpl in *.
  destruct (up seed); simpl; [|done].
  intros [->|?]%elem_of_cons; eauto.
Qed.

(** C7 (power-law selection): for a non-empty list of [n] candidates the
    [i]-th weight handed to the sampler is the float [(i+1) ** -2.0]
    divided by the [sum] of all [n] rank weights; [k = min(3, n)] indices
    are drawn, each below [n]; the [j]-th is found from the [j]-th draw
    alone, by bisection of the running totals of the weights: the draw
    scaled by the last total is not below the total before the chosen
    index and is below the total at it, so equal draws choose equal
    indices and earlier choices do not exclude later ones; the result lists
    the candidates at these indices; and no [peer_info] frame sent by
    [fetch_peers] goes to the peer's own endpoint.  All arithmetic is that
    of binary64 floats. *)
Theorem power_law_selection pow fsum rand (candidates : list Endpoint) :
  candidates ≠ [] →
  let n := length candidates in
  let weight i := pow (i + 1)%nat (-2)%float in
  let probs := power_law_probs pow fsum n in
  let cum i := foldl PrimFloat.add (default 0%float (head probs))
                 (take i (tail probs)) in
  let total := (cum (n - 1)%nat + 0)%float in
  let k := (3 `min` n)%nat in
  let idx := choices rand n probs k in
  length probs = n
  ∧ (∀ i, (i < n)%nat →
       probs !! i = Some (weight i / fsum (weight <$> seq 0 n))%float)
  ∧ length idx = k
  ∧ (∀ j, (j < k)%nat →
       ∃ i, idx !! j = Some i ∧ (i < n)%nat
            ∧ (i = 0%nat ∨ PrimFloat.ltb (rand j * total) (cum (i - 1)%nat) = false)
            ∧ (i = (n - 1)%nat ∨ PrimFloat.ltb (rand j * total) (cum i) = true))
  ∧ (∀ j j', (j < k)%nat → (j' < k)%nat → rand j = rand j' → idx !! j = idx !! j')
  ∧ Forall2 (λ i e, candidates !! i = Some e) idx
      (select_peers_power_law pow fsum rand candidates)
  ∧ (∀ up s selected e,
       e ∈ (connect_to_peers up s selected).2 →
       ∃ dst, e = Send dst (PeerInfo (self s)) ∧ dst ∈ selected ∧ dst ≠ self s)
  ∧ (∀ up replies s dst f,
       Send dst (PeerInfo f) ∈ (fetch_peers pow fsum up replies rand s).2 →
       dst ≠ self s ∧ f = self s).
Proof.
  intros Hne n weight probs cum total k idx.
  assert (0 < n)%nat as Hn.
  { unfold n. destruct candidates; [done|simpl; lia]. }
  assert (length probs = n) as Hlen by apply power_law_probs_length.
  split_and!.
  - exact Hlen.
  - intros i Hi. by apply power_law_probs_lookup.
  - apply choices_length.
  - intros j Hj. by apply (choices_slice rand n probs k j Hlen Hn Hj).
  - intros j j' Hj Hj' Heq. unfold idx.
    rewrite !choices_lookup by done. by rewrite Heq.
  - unfold select_peers_power_law. destruct candidates as [|first rest]; [done|].
    fold n probs k idx. apply Forall2_fmap_r, Forall_Forall2_diag.
    apply Forall_lookup. intros j i Hji.
    assert (i ≤ n - 1)%nat as Hi.
    { eapply choices_bound, list_elem_of_lookup_2, Hji. }
    destruct (lookup_lt_is_Some_2 (first :: rest) i) as [e He]; [fold n; lia|].
    unfold compose. by rewrite He.
  - intros up s selected e. apply connect_to_peers_events.
  - intros up replies s dst f. unfold fetch_peers.
    pose proof (query_seeds_events up replies (elements (registered_seeds s))) as Hq.
    destruct (query_seeds _ _ _) as [all_peers asked].
    set (selected := select_peers_power_law _ _ _ _).
    pose proof (connect_to_peers_events up s selected) as Hc.
    destruct (connect_to_peers up s selected) as [s' sent]. simpl in *.
    intros [Hin|[Hin|Hin]%elem_of_app]%elem_of_app.
    + by destruct (Hq _ Hin) as (? & [=]).
    + destruct (Hc _ Hin) as (? & [= -> ->] & _ & ?). done.
    + apply list_elem_of_singleton in Hin. done.
Qed.

Lemma power_law_selection_witness :
  let candidates := [Examples.p2; Examples.p3; Examples.p4] in
  let probs := power_law_probs Examples.rounded_pow Examples.left_sum 3 in
  let idx := choices Examples.draws 3 probs 3 in
  candidates ≠ []
  ∧ length probs = 3%nat
  ∧ length idx = 3%nat
  ∧ idx !! 0%nat = idx !! 2%nat
  ∧ Forall2 (λ i e, candidates !! i = Some e) idx
      (select_peers_power_law Examples.rounded_pow Examples.left_sum
         Examples.draws candidates).
Proof.
  intros candidates probs idx.
  assert (candidates ≠ []) as Hne by done.
  destruct (power_law_selection Examples.rounded_pow Examples.left_sum
              Examples.draws candidates Hne)
    as (Hprobs & _ & Hlen & _ & Hsame & Hsel & _).
  split; [exact Hne|]. split; [exact Hprobs|]. split; [exact Hlen|].
  split; [|exact Hsel].
  apply Hsame; [simpl; lia|simpl; lia|reflexivity].
Defined.

(** Three candidates: the draws 0.5, 0.875 and 0.5 pick the first, the
    second and the first again. *)
Example selection_with_replacement :
  choices Examples.draws 3
    (power_law_probs Examples.rounded_pow Examples.left_sum 3) 3
  = [0; 1; 0]%nat
  ∧ select_peers_power_law Examples.rounded_pow Examples.left_sum Examples.draws
      [Examples.p2; Examples.p3; Examples.p4]
    = [Examples.p2; Examples.p3; Examples.p2].
Proof. split; vm_compute; reflexivity. Qed.

(** Four candidates: the float weights add up to the float just below 1,
    and the third running total is one unit in the last place below
    196/205; the draw [0.9560975609756097] therefore picks the fourth
    candidate. *)
Example selection_rounds_as_floats :
  let probs := power_law_probs Examples.rounded_pow Examples.left_sum 4 in
  probs = [0x1.67a6167a6167ap-1; 0x1.67a6167a6167ap-3;
           0x1.3fb013fb013fap-4; 0x1.67a6167a6167ap-5]%float
  ∧ accumulate probs = [0x1.67a6167a6167ap-1; 0x1.c18f9c18f9c18p-1;
                        0x1.e9859e9859e97p-1; 0x1.fffffffffffffp-1]%float
  ∧ choices (λ _, 0x1.e9859e9859e98p-1%float) 4 probs 1 = [3%nat].
Proof. vm_compute. split_and!; reflexivity. Qed.

(** The peer's own endpoint among the selected ones gets no handshake. *)
Example own_endpoint_skipped :
  (connect_to_peers Examples.all_up Examples.peer1_registered
     [Examples.p1; Examples.p2; Examples.p1]).2
  = [Send Examples.p2 (PeerInfo Examples.p1)].
Proof. vm_compute. reflexivity. Qed.

End SelectionFacts.

(** * More on the seed directory *)
Module SeedMore.
Import Seed SeedFacts.

Lemma elem_of_fan_out up dsts f e :
  e ∈ send_each up dsts f ↔ ∃ dst, e = Send dst f ∧ dst ∈ dsts ∧ up dst = true.
Proof. apply PeerFacts.elem_of_send_each. Qed.

Lemma elem_of_other_seeds s e :
  e ∈ other_seeds s ↔ e ∈ seed_nodes s ∧ e ≠ self s.
Proof.
  unfold other_seeds, self. rewrite list_elem_of_filter. destruct e as [i p]. simpl.
  split.
  - intros [Hne Hin]. split; [done|]. intros [= -> ->]. by apply Hne.
  - intros [Hin Hne]. split; [|done]. intros [-> ->]. by apply Hne.
Qed.

Lemma check_register_quorum_events s peer :
  (check_register_quorum s peer).2 =
    if bool_decide ((quorum s ≤ tally (register_votes s) peer)%nat ∧ peer ∉ peer_list s)
    then [Log (LogRegistered peer)] else [].
Proof.
  unfold check_register_quorum. repeat case_bool_decide; simpl; try done; tauto.
Qed.

Lemma check_dead_quorum_events s peer :
  (check_dead_quorum s peer).2 =
    if bool_decide ((quorum s ≤ tally (dead_votes s) peer)%nat ∧ peer ∈ peer_list s)
    then [Log (LogRemoved peer)] else [].
Proof.
  unfold check_dead_quorum. repeat case_bool_decide; simpl; try done; tauto.
Qed.

Lemma handle_register_request_events up s peer :
  (handle_register_request up s peer).2 =
    Log (LogRegistrationProposal peer)
    :: send_each up (other_seeds s) (RegisterVote peer (self s))
    ++ (handle_register_vote s peer (self s)).2.
Proof.
  unfold handle_register_request, handle_register_vote.
  by destruct (check_register_quorum _ _).
Qed.

Lemma handle_dead_report_events up s peer :
  (handle_dead_report up s peer).2 =
    Log (LogDeadProposal peer)
    :: send_each up (other_seeds s) (DeadVote peer (self s))
    ++ (handle_dead_vote s peer (self s)).2.
Proof.
  unfold handle_dead_report, handle_dead_vote.
  by destruct (check_dead_quorum _ _).
Qed.

Lemma handle_client_register_events up s peer :
  (handle_client up s (Register peer)).2 =
    (handle_register_request up s peer).2 ++ [Reply (StatusReply "pending")].
Proof. simpl. by destruct (handle_register_request up s peer). Qed.

Lemma handle_client_dead_events up s peer reporter :
  (handle_client up s (DeadNode peer reporter)).2 =
    (handle_dead_report up s peer).2 ++ [Reply (StatusReply "received")].
Proof. simpl. by destruct (handle_dead_report up s peer). Qed.

Lemma handle_register_vote_events s peer voter e :
  e ∈ (handle_register_vote s peer voter).2 → e = Log (LogRegistered peer).
Proof.
  unfold handle_register_vote. rewrite check_register_quorum_events.
  case_bool_decide; [by intros ->%list_elem_of_singleton | by intros ?%elem_of_nil].
Qed.

Lemma handle_dead_vote_events s peer voter e :
  e ∈ (handle_dead_vote s peer voter).2 → e = Log (LogRemoved peer).
Proof.
  unfold handle_dead_vote. rewrite check_dead_quorum_events.
  case_bool_decide; [by intros ->%list_elem_of_singleton | by intros ?%elem_of_nil].
Qed.

Lemma elem_of_send_each_log up dsts f entry :
  Log entry ∈ send_each up dsts f ↔ False.
Proof.
  split; [|done]. by intros (? & [=] & _)%PeerFacts.elem_of_send_each.
Qed.

(** X1.  Vote fan-out: whatever the request, a seed writes only to configured
    seeds other than itself, and only its own vote on the subject of a
    [register] or [dead_node] request; such a request reaches every other
    configured seed that can be reached; votes received from other seeds are
    never passed on. *)
Theorem seed_fan_out up s req :
  (∀ dst f, Send dst f ∈ (handle_client up s req).2 →
     dst ∈ seed_nodes s ∧ dst ≠ self s ∧ up dst = true
     ∧ ((∃ peer, req = Register peer ∧ f = RegisterVote peer (self s))
        ∨ (∃ peer reporter, req = DeadNode peer reporter ∧ f = DeadVote peer (self s))))
  ∧ (∀ dst, dst ∈ seed_nodes s → dst ≠ self s → up dst = true →
       (∀ peer, req = Register peer →
          Send dst (RegisterVote peer (self s)) ∈ (handle_client up s req).2)
       ∧ (∀ peer reporter, req = DeadNode peer reporter →
          Send dst (DeadVote peer (self s)) ∈ (handle_client up s req).2)).
Proof.
  split.
  - intros dst f Hin. destruct req; simpl in Hin; try by apply elem_of_nil in Hin.
    + change (Send dst f ∈ (handle_client up s (Register peer)).2) in Hin.
      rewrite handle_client_register_events, handle_register_request_events in Hin.
      apply elem_of_app in Hin as [Hin|Hin]; [|by apply list_elem_of_singleton in Hin].
      apply elem_of_cons in Hin as [[=]|Hin].
      apply elem_of_app in Hin as [Hin|Hin]; [|by apply handle_register_vote_events in Hin].
      apply elem_of_fan_out in Hin as (d & [= -> ->] & [? ?]%elem_of_other_seeds & ?).
      split_and!; [done..|]. left. by exists peer.
    + by apply handle_register_vote_events in Hin.
    + by apply list_elem_of_singleton in Hin.
    + change (Send dst f ∈ (handle_client up s (DeadNode dead reporter)).2) in Hin.
      rewrite handle_client_dead_events, handle_dead_report_events in Hin.
      apply elem_of_app in Hin as [Hin|Hin]; [|by apply list_elem_of_singleton in Hin].
      apply elem_of_cons in Hin as [[=]|Hin].
      apply elem_of_app in Hin as [Hin|Hin]; [|by apply handle_dead_vote_events in Hin].
      apply elem_of_fan_out in Hin as (d & [= -> ->] & [? ?]%elem_of_other_seeds & ?).
      split_and!; [done..|]. right. by exists dead, reporter.
    + by apply handle_dead_vote_events in Hin.
  - intros dst Hcfg Hne Hup. split.
    + intros peer ->.
      rewrite handle_client_register_events, handle_register_request_events.
      apply elem_of_app. left. right. apply elem_of_app. left.
      apply elem_of_fan_out. exists dst. split_and!; [done| |done].
      by apply elem_of_other_seeds.
    + intros peer reporter ->.
      rewrite handle_client_dead_events, handle_dead_report_events.
      apply elem_of_app. left. right. apply elem_of_app. left.
      apply elem_of_fan_out. exists dst. split_and!; [done| |done].
      by apply elem_of_other_seeds.
Qed.


Lemma seed_fan_out_witness :
  Send Examples.s2 (RegisterVote Examples.p1 Examples.s1)
    ∈ (handle_client Examples.all_up Examples.seed1 (Register Examples.p1)).2.
Proof.
  apply (seed_fan_out Examples.all_up Examples.seed1 (Register Examples.p1));
    [vm_compute; apply list_elem_of_further, list_elem_of_here
    | intros [=] | reflexivity | reflexivity].
Defined.

(** ** Votes commute *)

Lemma SeedNode_eq s t :
  ip s = ip t → port s = port t → seed_nodes s = seed_nodes t →
  quorum s = quorum t → peer_list s = peer_list t →
  register_votes s = register_votes t → dead_votes s = dead_votes t → s = t.
Proof. destruct s, t; simpl; by intros -> -> -> -> -> -> ->. Qed.

Lemma handle_register_vote_fields s peer voter :
  let s' := (handle_register_vote s peer voter).1 in
  ip s' = ip s ∧ port s' = port s ∧ seed_nodes s' = seed_nodes s
  ∧ quorum s' = quorum s
  ∧ register_votes s' = add_vote (register_votes s) peer voter
  ∧ dead_votes s' = dead_votes s
  ∧ peer_list s' =
      (if bool_decide (quorum s ≤ size (default ∅ (register_votes s !! peer) ∪ {[voter]}))%nat
       then peer_list s ∪ {[peer]} else peer_list s).
Proof.
  unfold handle_register_vote. split_and!;
    try (unfold check_register_quorum; by case_match).
  rewrite check_register_quorum_list. simpl. unfold tally.
  rewrite voters_add_vote. by rewrite decide_True.
Qed.

Lemma handle_dead_vote_fields s peer voter :
  let s' := (handle_dead_vote s peer voter).1 in
  ip s' = ip s ∧ port s' = port s ∧ seed_nodes s' = seed_nodes s
  ∧ quorum s' = quorum s
  ∧ register_votes s' = register_votes s
  ∧ dead_votes s' = add_vote (dead_votes s) peer voter
  ∧ peer_list s' =
      (if bool_decide (quorum s ≤ size (default ∅ (dead_votes s !! peer) ∪ {[voter]}))%nat
       then peer_list s ∖ {[peer]} else peer_list s).
Proof.
  unfold handle_dead_vote. split_and!;
    try (unfold check_dead_quorum; by case_match).
  rewrite check_dead_quorum_list. simpl. unfold tally.
  rewrite voters_add_vote. by rewrite decide_True.
Qed.

Lemma add_vote_comm votes p1 v1 p2 v2 :
  add_vote (add_vote votes p1 v1) p2 v2 = add_vote (add_vote votes p2 v2) p1 v1.
Proof.
  unfold add_vote. destruct (decide (p1 = p2)) as [->|Hne].
  - rewrite !lookup_insert_eq, !insert_insert_eq. simpl. f_equal. set_solver.
  - rewrite (lookup_insert_ne _ p1 p2), (lookup_insert_ne _ p2 p1) by done.
    by apply insert_insert_ne.
Qed.

Lemma tally_check_same (Q : nat) (X : gset Endpoint) (v1 v2 : Endpoint)
    (A : Type) (f : A → A) (a : A) :
  (∀ x, f (f x) = f x) →
  (let a1 := if bool_decide (Q ≤ size (X ∪ {[v1]}))%nat then f a else a in
   if bool_decide (Q ≤ size (X ∪ {[v1]} ∪ {[v2]}))%nat then f a1 else a1)
  = (if bool_decide (Q ≤ size (X ∪ {[v1]} ∪ {[v2]}))%nat then f a else a).
Proof.
  intros Hf. simpl.
  assert (size (X ∪ {[v1]}) ≤ size (X ∪ {[v1]} ∪ {[v2]}))%nat
    by (apply subseteq_size; set_solver).
  repeat case_bool_decide; try done; lia.
Qed.

Lemma voters_swap (X : gset Endpoint) (v1 v2 : Endpoint) :
  X ∪ {[v2]} ∪ {[v1]} = X ∪ {[v1]} ∪ {[v2]}.
Proof. set_solver. Qed.

Lemma guarded_comm (A : Type) (f g : A → A) (b c : bool) (a : A) :
  (∀ x, f (g x) = g (f x)) →
  (if c then g (if b then f a else a) else (if b then f a else a))
  = (if b then f (if c then g a else a) else (if c then g a else a)).
Proof. intros Hfg. destruct b, c; auto. Qed.

(** X2.  Two votes of the same kind leave the same state in either order. *)
Theorem votes_commute s p1 v1 p2 v2 :
  (handle_register_vote (handle_register_vote s p1 v1).1 p2 v2).1
  = (handle_register_vote (handle_register_vote s p2 v2).1 p1 v1).1
  ∧ (handle_dead_vote (handle_dead_vote s p1 v1).1 p2 v2).1
    = (handle_dead_vote (handle_dead_vote s p2 v2).1 p1 v1).1.
Proof.
  split.
  - destruct (handle_register_vote_fields s p1 v1) as (E1 & E2 & E3 & E4 & E5 & E6 & E7).
    destruct (handle_register_vote_fields s p2 v2) as (F1 & F2 & F3 & F4 & F5 & F6 & F7).
    destruct (handle_register_vote_fields (handle_register_vote s p1 v1).1 p2 v2)
      as (G1 & G2 & G3 & G4 & G5 & G6 & G7).
    destruct (handle_register_vote_fields (handle_register_vote s p2 v2).1 p1 v1)
      as (H1 & H2 & H3 & H4 & H5 & H6 & H7).
    apply SeedNode_eq; try congruence.
    + rewrite G7, H7, E4, F4, E5, F5, E7, F7.
      clear. destruct (decide (p1 = p2)) as [->|Hne]; rewrite !voters_add_vote.
      * rewrite !decide_True by done.
        rewrite (tally_check_same _ _ v1 v2 _ (λ l, l ∪ {[p2]})) by (intros; set_solver).
        rewrite (tally_check_same _ _ v2 v1 _ (λ l, l ∪ {[p2]})) by (intros; set_solver).
        by rewrite voters_swap.
      * rewrite (decide_False (P := p1 = p2)), (decide_False (P := p2 = p1)) by done.
        apply (guarded_comm _ (λ l, l ∪ {[p1]}) (λ l, l ∪ {[p2]})).
        intros; set_solver.
    + rewrite G5, H5, E5, F5. apply add_vote_comm.
  - destruct (handle_dead_vote_fields s p1 v1) as (E1 & E2 & E3 & E4 & E5 & E6 & E7).
    destruct (handle_dead_vote_fields s p2 v2) as (F1 & F2 & F3 & F4 & F5 & F6 & F7).
    destruct (handle_dead_vote_fields (handle_dead_vote s p1 v1).1 p2 v2)
      as (G1 & G2 & G3 & G4 & G5 & G6 & G7).
    destruct (handle_dead_vote_fields (handle_dead_vote s p2 v2).1 p1 v1)
      as (H1 & H2 & H3 & H4 & H5 & H6 & H7).
    apply SeedNode_eq; try congruence.
    + rewrite G7, H7, E4, F4, E6, F6, E7, F7.
      clear. destruct (decide (p1 = p2)) as [->|Hne]; rewrite !voters_add_vote.
      * rewrite !decide_True by done.
        rewrite (tally_check_same _ _ v1 v2 _ (λ l, l ∖ {[p2]})) by (intros; set_solver).
        rewrite (tally_check_same _ _ v2 v1 _ (λ l, l ∖ {[p2]})) by (intros; set_solver).
        by rewrite voters_swap.
      * rewrite (decide_False (P := p1 = p2)), (decide_False (P := p2 = p1)) by done.
        apply (guarded_comm _ (λ l, l ∖ {[p1]}) (λ l, l ∖ {[p2]})).
        intros; set_solver.
    + rewrite G6, H6, E6, F6. apply add_vote_comm.
Qed.


(** ** From request to directory *)

Lemma handle_register_vote_settled s peer voter :
  let s' := (handle_register_vote s peer voter).1 in
  settled s' peer
  ∧ default ∅ (register_votes s' !! peer)
    = default ∅ (register_votes s !! peer) ∪ {[voter]}
  ∧ quorum s' = quorum s ∧ self s' = self s.
Proof.
  destruct (handle_register_vote_fields s peer voter) as (E1 & E2 & E3 & E4 & E5 & E6 & E7).
  assert (default ∅ (register_votes (handle_register_vote s peer voter).1 !! peer)
          = default ∅ (register_votes s !! peer) ∪ {[voter]}) as Hv.
  { rewrite E5, voters_add_vote. by rewrite decide_True. }
  split_and!; [|done|done|unfold self; congruence].
  unfold settled. rewrite Hv, E4, E7. intros Hq.
  rewrite bool_decide_eq_true_2 by done. set_solver.
Qed.

Lemma serve_register_votes s peer votes :
  settled s peer →
  let s' := (serve s (register_votes_for peer votes)).1 in
  settled s' peer
  ∧ default ∅ (register_votes s' !! peer)
    = default ∅ (register_votes s !! peer) ∪ list_to_set votes.*2
  ∧ quorum s' = quorum s.
Proof.
  revert s. induction votes as [|[up v] votes IH]; intros s Hs.
  { simpl. split_and!; [done|set_solver|done]. }
  cbn [register_votes_for fmap list_fmap serve fst snd handle_client].
  fold (register_votes_for peer votes).
  destruct (handle_register_vote_settled s peer v) as (H1 & H2 & H3 & _).
  destruct (handle_register_vote s peer v) as [s1 evs]. simpl in *.
  specialize (IH s1 H1). destruct (serve s1 _) as [s2 evs']. simpl in *.
  destruct IH as (I1 & I2 & I3). split_and!; [done| |congruence].
  rewrite I2, H2. set_solver.
Qed.

(** X3.  Round trip: a [register] request followed by [register_vote]s about
    the same endpoint lists the endpoint as soon as the seed's own vote and
    the distinct voters add up to the quorum, and [get_peers] then returns
    it.  Voters are counted as they come: whether they are configured
    seeds is not looked at. *)
Theorem register_then_get_peers up s peer votes :
  (quorum s ≤ size ({[self s]} ∪ list_to_set votes.*2 : gset Endpoint))%nat →
  let s' := (serve s ((up, Register peer) :: register_votes_for peer votes)).1 in
  peer ∈ peer_list s'
  ∧ ∀ up', ∃ listed,
      handle_client up' s' GetPeers = (s', [Reply (PeersReply listed)])
      ∧ peer ∈ listed.
Proof.
  intros Hq s'.
  assert (peer ∈ peer_list s') as Hin.
  { unfold s'. cbn [serve].
    pose proof (handle_register_vote_settled s peer (self s)) as (H1 & H2 & H3 & _).
    assert ((handle_client up s (Register peer)).1
            = (handle_register_vote s peer (self s)).1) as Hst.
    { rewrite <- (handle_register_request_state up). simpl.
      by destruct (handle_register_request up s peer). }
    destruct (handle_client up s (Register peer)) as [s1 evs]. simpl in Hst. subst s1.
    pose proof (serve_register_votes _ peer votes H1) as (I1 & I2 & I3).
    destruct (serve _ (register_votes_for peer votes)) as [s2 evs']. simpl in *.
    apply I1. rewrite I2, I3, H2, H3.
    etrans; [exact Hq | apply subseteq_size; set_solver]. }
  split; [done|]. intros up'. eexists. split; [done|].
  by apply elem_of_elements.
Qed.

Lemma register_then_get_peers_witness :
  let s := Examples.seed1 in
  let votes := [(Examples.all_up, Examples.s3)] in
  (quorum s ≤ size ({[self s]} ∪ list_to_set votes.*2 : gset Endpoint))%nat
  ∧ Examples.p1 ∈ peer_list
      (serve s ((Examples.all_up, Register Examples.p1)
                :: register_votes_for Examples.p1 votes)).1.
Proof.
  intros s votes.
  assert (quorum s ≤ size ({[self s]} ∪ list_to_set votes.*2 : gset Endpoint))%nat
    as Hq by (vm_compute; lia).
  split; [exact Hq|].
  apply (register_then_get_peers Examples.all_up s Examples.p1 votes Hq).
Defined.

(** ** What the log says *)

(** X4.  The seed logs a registration exactly when the endpoint enters the
    directory, and a removal exactly when it leaves. *)
Theorem directory_changes_logged up s req p :
  (Log (LogRegistered p) ∈ (handle_client up s req).2
   ↔ (p ∉ peer_list s) ∧ p ∈ peer_list (handle_client up s req).1)
  ∧ (Log (LogRemoved p) ∈ (handle_client up s req).2
     ↔ p ∈ peer_list s ∧ p ∉ peer_list (handle_client up s req).1).
Proof.
  assert (∀ s q, (Log (LogRegistered p) ∈ (check_register_quorum s q).2
                  ↔ (p ∉ peer_list s) ∧ p ∈ peer_list (check_register_quorum s q).1)
                 ∧ (Log (LogRemoved p) ∈ (check_register_quorum s q).2
                    ↔ p ∈ peer_list s ∧ p ∉ peer_list (check_register_quorum s q).1))
    as Hreg.
  { clear. intros s q. unfold check_register_quorum.
    destruct (bool_decide _ && bool_decide _) eqn:E; simpl.
    - apply andb_true_iff in E as [_ Hout%bool_decide_eq_true].
      rewrite !list_elem_of_singleton. split.
      + split; [intros [= ->]; set_solver|]. intros [H1 H2].
        apply elem_of_union in H2 as [?| ->%elem_of_singleton]; done.
      + split; [done|]. set_solver.
    - rewrite !elem_of_nil. tauto. }
  assert (∀ s q, (Log (LogRegistered p) ∈ (check_dead_quorum s q).2
                  ↔ (p ∉ peer_list s) ∧ p ∈ peer_list (check_dead_quorum s q).1)
                 ∧ (Log (LogRemoved p) ∈ (check_dead_quorum s q).2
                    ↔ p ∈ peer_list s ∧ p ∉ peer_list (check_dead_quorum s q).1))
    as Hdead.
  { clear. intros s q. unfold check_dead_quorum.
    destruct (bool_decide _ && bool_decide _) eqn:E; simpl.
    - apply andb_true_iff in E as [_ Hin%bool_decide_eq_true].
      rewrite !list_elem_of_singleton. split.
      + split; [done|]. set_solver.
      + split; [intros [= ->]; set_solver|]. intros [H1 H2].
        destruct (decide (p = q)) as [->|]; [done|]. set_solver.
    - rewrite !elem_of_nil. tauto. }
  destruct req; simpl; try (rewrite !elem_of_nil; tauto).
  - unfold handle_register_request.
    specialize (Hreg (set_register_votes s (add_vote (register_votes s) peer (self s))) peer).
    destruct (check_register_quorum _ peer) as [s2 logged]. simpl in *.
    unfold broadcast_to_seeds.
    rewrite !elem_of_cons, !elem_of_app, !elem_of_send_each_log.
    rewrite !list_elem_of_singleton. destruct Hreg as [R1 R2].
    split; [rewrite <- R1|rewrite <- R2]; naive_solver.
  - apply Hreg.
  - rewrite !list_elem_of_singleton. naive_solver.
  - unfold handle_dead_report.
    specialize (Hdead (set_dead_votes s (add_vote (dead_votes s) dead (self s))) dead).
    destruct (check_dead_quorum _ dead) as [s2 logged]. simpl in *.
    unfold broadcast_to_seeds.
    rewrite !elem_of_cons, !elem_of_app, !elem_of_send_each_log.
    rewrite !list_elem_of_singleton. destruct Hdead as [R1 R2].
    split; [rewrite <- R1|rewrite <- R2]; naive_solver.
  - apply Hdead.
Qed.


(** ** A deployment with one seed *)

(** X5.  With at most one configured seed (an unreadable configuration file
    counts as none) the quorum is 1: every [register] request lists its
    endpoint at once and every [dead_node] report removes it at once. *)
Theorem lone_seed_decides_alone ip0 port0 config s up p reporter :
  (length config ≤ 1)%nat →
  reachable ip0 port0 config s →
  quorum s = 1%nat
  ∧ p ∈ peer_list (handle_client up s (Register p)).1
  ∧ p ∉ peer_list (handle_client up s (DeadNode p reporter)).1.
Proof.
  intros Hlen Hs%reachable_interleaved%interleaved_quorum.
  assert (quorum s = 1%nat) as HQ.
  { rewrite Hs. unfold majority.
    destruct config as [|? [|? ?]]; simpl in *; try done; lia. }
  assert (∀ X : gset Endpoint, 1 ≤ size (X ∪ {[self s]}))%nat as Hone.
  { intros X. rewrite <- (size_singleton (C := gset Endpoint) (self s)).
    apply subseteq_size. set_solver. }
  split_and!; [done| |].
  - rewrite handle_client_register_list, handle_register_request_list, HQ.
    rewrite bool_decide_eq_true_2 by apply Hone. set_solver.
  - rewrite handle_client_dead_list, handle_dead_report_list, HQ.
    rewrite bool_decide_eq_true_2 by apply Hone. set_solver.
Qed.

Lemma lone_seed_decides_alone_witness :
  let s := init Examples.localhost 6001 [Examples.s1] in
  (length [Examples.s1] ≤ 1)%nat
  ∧ reachable Examples.localhost 6001 [Examples.s1] s
  ∧ Examples.p1 ∈ peer_list (handle_client (λ _, false) s (Register Examples.p1)).1.
Proof.
  intros s.
  assert (length [Examples.s1] ≤ 1)%nat as Hlen by (simpl; lia).
  assert (reachable Examples.localhost 6001 [Examples.s1] s) as Hs by apply reach_init.
  split; [exact Hlen|]. split; [exact Hs|].
  apply (lone_seed_decides_alone _ _ _ s (λ _, false) Examples.p1 Examples.p2 Hlen Hs).
Defined.

(** ** Majorities *)

(** X6.  The quorum of a seed is a strict majority of its configuration: two
    sets of configured seeds that both reach it have a seed in common. *)
Theorem quorums_intersect (ip0 : string) (port0 : Z) (config : list Endpoint)
    (X Y : gset Endpoint) :
  NoDup config →
  X ⊆ list_to_set config → Y ⊆ list_to_set config →
  (quorum (init ip0 port0 config) ≤ size X)%nat →
  (quorum (init ip0 port0 config) ≤ size Y)%nat →
  ∃ v, v ∈ X ∧ v ∈ Y ∧ v ∈ config.
Proof.
  intros Hnd HX HY. simpl. unfold majority. intros HqX HqY.
  destruct (decide (X ∩ Y = ∅)) as [Hdisj|Hmeet].
  - assert (size (X ∪ Y) ≤ length config)%nat as Hle.
    { rewrite <- (size_list_to_set (C := gset Endpoint) config) by done.
      apply subseteq_size. set_solver. }
    rewrite size_union in Hle by set_solver.
    pose proof (Nat.div_mod_eq (length config) 2).
    pose proof (Nat.mod_upper_bound (length config) 2). lia.
  - apply set_choose_L in Hmeet as [v Hv]. exists v.
    split_and!; [set_solver|set_solver|].
    apply (elem_of_list_to_set (C := gset Endpoint)). set_solver.
Qed.

Lemma quorums_intersect_witness :
  ∃ v, v ∈ ({[Examples.s1; Examples.s2]} : gset Endpoint)
       ∧ v ∈ ({[Examples.s2; Examples.s3]} : gset Endpoint)
       ∧ v ∈ Examples.config.
Proof.
  apply (quorums_intersect Examples.localhost 6001 Examples.config).
  - unfold Examples.config. repeat (constructor; [set_solver|]). constructor.
  - unfold Examples.config. set_solver.
  - unfold Examples.config. set_solver.
  - vm_compute. lia.
  - vm_compute. lia.
Defined.

(** ** Requests are local to their subject *)

Lemma add_vote_other votes peer voter q :
  q ≠ peer → add_vote votes peer voter !! q = votes !! q.
Proof. intros Hne. unfold add_vote. by rewrite lookup_insert_ne. Qed.

(** X7.  A request changes nothing about endpoints other than its subject, a
    request without subject changes nothing at all, registrations never
    touch the dead ledger nor shrink the directory, and death reports
    never touch the register ledger nor grow the directory. *)
Theorem requests_are_local up s req :
  let s' := (handle_client up s req).1 in
  (∀ q, subject req ≠ Some q →
     (q ∈ peer_list s' ↔ q ∈ peer_list s)
     ∧ register_votes s' !! q = register_votes s !! q
     ∧ dead_votes s' !! q = dead_votes s !! q)
  ∧ (subject req = None → s' = s)
  ∧ (∀ p v, req = Register p ∨ req = RegisterVote p v →
       dead_votes s' = dead_votes s ∧ peer_list s ⊆ peer_list s')
  ∧ (∀ p v, req = DeadNode p v ∨ req = DeadVote p v →
       register_votes s' = register_votes s ∧ peer_list s' ⊆ peer_list s).
Proof.
  intros s'. unfold s'. clear s'.
  assert (∀ peer, (handle_client up s (Register peer)).1
                  = (handle_register_vote s peer (self s)).1) as Hreg.
  { intros peer. rewrite <- (handle_register_request_state up). simpl.
    by destruct (handle_register_request up s peer). }
  assert (∀ peer r, (handle_client up s (DeadNode peer r)).1
                    = (handle_dead_vote s peer (self s)).1) as Hdead.
  { intros peer r. rewrite <- (handle_dead_report_state up). simpl.
    by destruct (handle_dead_report up s peer). }
  assert (∀ peer voter q, Some peer ≠ Some q →
            let t := (handle_register_vote s peer voter).1 in
            (q ∈ peer_list t ↔ q ∈ peer_list s)
            ∧ register_votes t !! q = register_votes s !! q
            ∧ dead_votes t !! q = dead_votes s !! q) as Lreg.
  { intros peer voter q Hne t.
    destruct (handle_register_vote_fields s peer voter) as (_ & _ & _ & _ & E5 & E6 & E7).
    fold t in E5, E6, E7. rewrite E5, E6, E7.
    split_and!; [|apply add_vote_other; congruence|done].
    case_bool_decide; [|done]. rewrite elem_of_union, elem_of_singleton.
    split; [intros [?| ->]; [done|congruence] | auto]. }
  assert (∀ peer voter q, Some peer ≠ Some q →
            let t := (handle_dead_vote s peer voter).1 in
            (q ∈ peer_list t ↔ q ∈ peer_list s)
            ∧ register_votes t !! q = register_votes s !! q
            ∧ dead_votes t !! q = dead_votes s !! q) as Ldead.
  { intros peer voter q Hne t.
    destruct (handle_dead_vote_fields s peer voter) as (_ & _ & _ & _ & E5 & E6 & E7).
    fold t in E5, E6, E7. rewrite E5, E6, E7.
    split_and!; [|done|apply add_vote_other; congruence].
    case_bool_decide; [|done]. rewrite elem_of_difference, elem_of_singleton.
    split; [tauto|]. intros ?. split; [done|congruence]. }
  split_and!.
  - intros q Hq. destruct req; try done.
    + rewrite Hreg. by apply Lreg.
    + by apply Lreg.
    + rewrite Hdead. by apply Ldead.
    + by apply Ldead.
  - by destruct req.
  - intros p v [-> | ->]; [rewrite Hreg|simpl];
      destruct (handle_register_vote_fields s p (self s)) as (_ & _ & _ & _ & _ & E6 & E7);
      destruct (handle_register_vote_fields s p v) as (_ & _ & _ & _ & _ & F6 & F7).
    + rewrite E6, E7. split; [done|]. clear. case_bool_decide; set_solver.
    + rewrite F6, F7. split; [done|]. clear. case_bool_decide; set_solver.
  - intros p v [-> | ->]; [rewrite Hdead|simpl];
      destruct (handle_dead_vote_fields s p (self s)) as (_ & _ & _ & _ & E5 & _ & E7);
      destruct (handle_dead_vote_fields s p v) as (_ & _ & _ & _ & F5 & _ & F7).
    + rewrite E5, E7. split; [done|]. clear. case_bool_decide; set_solver.
    + rewrite F5, F7. split; [done|]. clear. case_bool_decide; set_solver.
Qed.

End SeedMore.

(** * More on the peer node *)
Module PeerMore.
Import Peer PeerFacts.

(** ** Projections of event lists *)

Lemma sends_app evs evs' : sends (evs ++ evs') = sends evs ++ sends evs'.
Proof. apply omap_app. Qed.

Lemma logs_app evs evs' : logs (evs ++ evs') = logs evs ++ logs evs'.
Proof. apply omap_app. Qed.

Lemma sends_send_each up dsts f :
  sends (send_each up dsts f) = (λ dst, (dst, f)) <$> filter (λ dst, up dst = true) dsts.
Proof.
  unfold send_each, sends. induction (filter _ dsts) as [|d l IH]; [done|].
  simpl. f_equal. exact IH.
Qed.

Lemma logs_send_each up dsts f : logs (send_each up dsts f) = [].
Proof.
  unfold send_each, logs. induction (filter _ dsts) as [|d l IH]; [done|].
  simpl. exact IH.
Qed.

Lemma elem_of_sends evs dst f : (dst, f) ∈ sends evs ↔ Send dst f ∈ evs.
Proof.
  unfold sends. rewrite list_elem_of_omap. split.
  - intros (e & He & Heq). destruct e; simplify_eq. done.
  - intros He. by exists (Send dst f).
Qed.

Lemma elem_of_logs evs entry : entry ∈ logs evs ↔ Log entry ∈ evs.
Proof.
  unfold logs. rewrite list_elem_of_omap. split.
  - intros (e & He & Heq). destruct e; simplify_eq. done.
  - intros He. by exists (Log entry).
Qed.

(** ** Bootstrap, exactly *)

Lemma set_registered_seeds_id s : set_registered_seeds s (registered_seeds s) = s.
Proof. by destruct s. Qed.

Lemma set_peers_id s : set_peers s (peers s) = s.
Proof. by destruct s. Qed.

Lemma register_with_seed_result up s selected :
  (register_with_seed up s selected).1
  = set_registered_seeds s
      (registered_seeds s ∪ list_to_set (filter (λ seed, up seed = true) selected))
  ∧ sends (register_with_seed up s selected).2
    = (λ seed, (seed, Register (self s))) <$> filter (λ seed, up seed = true) selected
  ∧ logs (register_with_seed up s selected).2
    = (λ seed, if up seed then LogRegistrationSent seed
               else LogSeedRegisterFailed seed) <$> selected.
Proof.
  revert s. induction selected as [|seed rest IH]; intros s.
  { simpl. rewrite union_empty_r_L. by rewrite set_registered_seeds_id. }
  cbn [register_with_seed]. rewrite filter_cons.
  destruct (up seed) eqn:Eup.
  - rewrite decide_True by done.
    specialize (IH (set_registered_seeds s (registered_seeds s ∪ {[seed]}))).
    destruct (register_with_seed up _ rest) as [s2 evs]. simpl in *.
    rewrite Eup. destruct IH as (-> & -> & ->). split_and!; [|done|done].
    unfold set_registered_seeds. simpl. f_equal. set_solver.
  - rewrite decide_False by done.
    specialize (IH s). destruct (register_with_seed up s rest) as [s2 evs].
    simpl in *. rewrite Eup. by destruct IH as (-> & -> & ->).
Qed.

(** X8.  Registration records exactly the selected seeds that could be reached
    and changes nothing else; each of them is sent one [register] frame
    per time it was selected, carrying the peer's own endpoint; and each
    attempt, successful or not, leaves one log line. *)
Theorem register_with_seed_exact up s selected :
  (register_with_seed up s selected).1
  = set_registered_seeds s
      (registered_seeds s ∪ list_to_set (filter (λ seed, up seed = true) selected))
  ∧ sends (register_with_seed up s selected).2
    = (λ seed, (seed, Register (self s))) <$> filter (λ seed, up seed = true) selected
  ∧ logs (register_with_seed up s selected).2
    = (λ seed, if up seed then LogRegistrationSent seed
               else LogSeedRegisterFailed seed) <$> selected.
Proof. exact (register_with_seed_result up s selected). Qed.

Lemma connect_to_peers_result up s selected :
  let joined := filter (λ n, n ≠ self s ∧ up n = true) selected in
  (connect_to_peers up s selected).1 = set_peers s (peers s ∪ list_to_set joined)
  ∧ (connect_to_peers up s selected).2 = (λ n, Send n (PeerInfo (self s))) <$> joined.
Proof.
  revert s. induction selected as [|peer rest IH]; intros s.
  { simpl. rewrite union_empty_r_L. by rewrite set_peers_id. }
  cbn [connect_to_peers]. cbn zeta. rewrite filter_cons.
  destruct (decide (peer = self s)) as [Hself|Hself].
  - rewrite bool_decide_eq_true_2, decide_False by tauto.
    specialize (IH s). destruct (connect_to_peers up s rest) as [s2 evs].
    simpl in *. by destruct IH as (-> & ->).
  - rewrite bool_decide_eq_false_2 by done. destruct (up peer) eqn:Eup.
    + rewrite decide_True by done.
      specialize (IH (set_peers s (peers s ∪ {[peer]}))).
      destruct (connect_to_peers up _ rest) as [s2 evs]. simpl in *.
      destruct IH as (-> & ->). split; [|done].
      unfold set_peers. simpl. f_equal. set_solver.
    + rewrite decide_False by (intros [_ ?]; congruence).
      specialize (IH s). destruct (connect_to_peers up s rest) as [s2 evs].
      simpl in *. by destruct IH as (-> & ->).
Qed.

(** X9.  The handshakes go to exactly the selected endpoints that are not the
    peer's own and could be reached, once per time selected, and these are
    the endpoints that join the neighbor set; nothing else changes. *)
Theorem connect_to_peers_exact up s selected :
  let joined := filter (λ n, n ≠ self s ∧ up n = true) selected in
  (connect_to_peers up s selected).1 = set_peers s (peers s ∪ list_to_set joined)
  ∧ (connect_to_peers up s selected).2 = (λ n, Send n (PeerInfo (self s))) <$> joined.
Proof. exact (connect_to_peers_result up s selected). Qed.


Lemma elem_of_query_seeds up replies seeds n :
  n ∈ (query_seeds up replies seeds).1 ↔
    ∃ seed l, seed ∈ seeds ∧ up seed = true ∧ replies seed = Some l ∧ n ∈ l.
Proof.
  induction seeds as [|seed rest IH]; simpl.
  { split; [by intros ?%elem_of_nil|]. by intros (? & ? & ?%elem_of_nil & _). }
  destruct (query_seeds up replies rest) as [found evs]. simpl in *.
  destruct (up seed) eqn:Eup; simpl.
  - rewrite elem_of_app, IH. split.
    + intros [Hn|(sd & l & ? & ? & ? & ?)].
      * destruct (replies seed) as [l|] eqn:El; [|by apply elem_of_nil in Hn].
        exists seed, l. split_and!; [by left|done..].
      * exists sd, l. split_and!; [by right|done..].
    + intros (sd & l & [->|?]%elem_of_cons & ? & Hl & ?).
      * left. by rewrite Hl.
      * right. by exists sd, l.
  - rewrite IH. split.
    + intros (sd & l & ? & ? & ? & ?). exists sd, l. split_and!; [by right|done..].
    + intros (sd & l & [->|?]%elem_of_cons & ? & Hl & ?); [congruence|].
      by exists sd, l.
Qed.

Lemma query_seeds_asked up replies seeds :
  (query_seeds up replies seeds).2 = send_each up seeds GetPeers.
Proof.
  unfold send_each. induction seeds as [|seed rest IH]; [done|].
  simpl. destruct (query_seeds up replies rest) as [found evs]. simpl in *.
  rewrite filter_cons. destruct (up seed) eqn:Eup; simpl; [by f_equal|done].
Qed.

Lemma size_union_le (X Y : gset Endpoint) : (size (X ∪ Y) ≤ size X + size Y)%nat.
Proof.
  rewrite size_union_alt. apply Nat.add_le_mono_l, subseteq_size. set_solver.
Qed.

Lemma size_list_to_set_le (l : list Endpoint) :
  (size (list_to_set l : gset Endpoint) ≤ length l)%nat.
Proof.
  induction l as [|x l IH]; [by rewrite list_to_set_nil, size_empty|].
  rewrite list_to_set_cons.
  etrans; [apply size_union_le|]. rewrite size_singleton. simpl. lia.
Qed.

Lemma select_peers_power_law_length pow fsum rand candidates :
  length (select_peers_power_law pow fsum rand candidates) = (3 `min` length candidates)%nat.
Proof.
  unfold select_peers_power_law. destruct candidates as [|first rest]; [done|].
  by rewrite length_fmap, SelectionFacts.choices_length.
Qed.

Lemma select_peers_power_law_subset pow fsum rand candidates n :
  n ∈ select_peers_power_law pow fsum rand candidates → n ∈ candidates.
Proof.
  unfold select_peers_power_law. destruct candidates as [|first rest]; [done|].
  set (cs := first :: rest).
  intros (i & -> & Hi)%list_elem_of_fmap.
  apply SelectionFacts.choices_bound in Hi.
  destruct (lookup_lt_is_Some_2 cs i) as [e He]; [simpl in *; lia|].
  rewrite He. simpl.
  by apply list_elem_of_lookup_2 in He.
Qed.

(** X10.  Every neighbor gained in [fetch_peers] was named in the reply of a
    registered seed that could be reached, is not the peer itself, and
    accepted the handshake; at most three are gained per call; and when no
    registered seed names anybody, nothing is sent to any peer and the
    state is as it was. *)
Theorem fetch_peers_provenance pow fsum up replies rand s :
  let s' := (fetch_peers pow fsum up replies rand s).1 in
  (∀ n, n ∈ peers s' → n ∉ peers s →
     n ≠ self s ∧ up n = true
     ∧ ∃ seed l, seed ∈ registered_seeds s ∧ up seed = true
                 ∧ replies seed = Some l ∧ n ∈ l)
  ∧ (size (peers s') ≤ size (peers s) + 3)%nat
  ∧ ((∀ seed l, seed ∈ registered_seeds s → up seed = true →
        replies seed = Some l → l = []) →
     s' = s
     ∧ logs (fetch_peers pow fsum up replies rand s).2 = [LogPeerListObtained []]
     ∧ ∀ dst f, (dst, f) ∈ sends (fetch_peers pow fsum up replies rand s).2 →
                f = GetPeers ∧ dst ∈ registered_seeds s).
Proof.
  intros s'. unfold s', fetch_peers. clear s'.
  pose proof (elem_of_query_seeds up replies (elements (registered_seeds s))) as Hq.
  pose proof (query_seeds_asked up replies (elements (registered_seeds s))) as Hasked.
  destruct (query_seeds _ _ _) as [all_peers asked]. simpl in Hq, Hasked. subst asked.
  set (selected := select_peers_power_law pow fsum rand (elements (list_to_set all_peers))).
  destruct (connect_to_peers_result up s selected) as [Hst Hev].
  destruct (connect_to_peers up s selected) as [s' sent]. simpl in Hst, Hev.
  subst s' sent. cbn [fst snd].
  split_and!.
  - intros n Hin Hout. simpl in Hin.
    apply elem_of_union in Hin as [?|Hin]; [done|].
    apply elem_of_list_to_set, list_elem_of_filter in Hin as [[Hne Hup] Hsel].
    split_and!; [done..|].
    apply select_peers_power_law_subset, elem_of_elements, elem_of_list_to_set in Hsel.
    apply Hq in Hsel as (seed & l & ?%elem_of_elements & ? & ? & ?).
    by exists seed, l.
  - simpl. etrans; [apply size_union_le|]. apply Nat.add_le_mono_l.
    etrans; [apply size_list_to_set_le|].
    etrans; [apply length_filter|].
    unfold selected. rewrite select_peers_power_law_length. lia.
  - intros Hnone.
    assert (all_peers = []) as ->.
    { destruct all_peers as [|n rest]; [done|].
      destruct (proj1 (Hq n) ltac:(left)) as (seed & l & ?%elem_of_elements & ? & Hl & Hn).
      rewrite (Hnone seed l) in Hn by done. by apply elem_of_nil in Hn. }
    assert (selected = []) as Hsel.
    { unfold selected. simpl. by rewrite elements_empty. }
    rewrite Hsel. simpl. rewrite union_empty_r_L, set_peers_id.
    split_and!; [done| |].
    + rewrite logs_app, logs_send_each. done.
    + intros dst f. rewrite sends_app, sends_send_each. simpl. rewrite app_nil_r.
      intros (seed & [= -> ->] & [_ ?%elem_of_elements]%list_elem_of_filter)%list_elem_of_fmap.
      done.
Qed.


(** ** A round of pings *)

Lemma strikes_insert s peer k n :
  strikes (set_suspicions s (<[peer := k]> (suspicions s))) n
  = if decide (n = peer) then k else strikes s n.
Proof.
  unfold strikes. simpl. rewrite lookup_insert.
  destruct (decide (peer = n)) as [->|]; [by rewrite decide_True|].
  by rewrite decide_False by congruence.
Qed.

Lemma start_suspicion_strikes up s peer n :
  strikes (start_suspicion up s peer).1 n
  = if decide (n = peer) then S (strikes s peer) else strikes s n.
Proof.
  unfold start_suspicion. case_bool_decide; simpl;
    rewrite strikes_insert; case_decide; try done; lia.
Qed.

Lemma start_suspicion_events up s peer :
  (start_suspicion up s peer).2
  = if bool_decide (strikes s peer = 1%nat)
    then send_each up (elements (peers s)) (SuspicionVote peer (self s))
    else [].
Proof.
  unfold start_suspicion. rewrite strikes_insert, decide_True by done.
  repeat case_bool_decide; try done; lia.
Qed.

Lemma ping_one_strikes up pong s peer n :
  strikes (ping_one up pong s peer).1 n
  = if decide (n = peer)
    then (if up peer && pong peer then 0%nat else S (strikes s peer))
    else strikes s n.
Proof.
  unfold ping_one. destruct (up peer); [destruct (pong peer)|]; simpl.
  - apply strikes_insert.
  - pose proof (start_suspicion_strikes up s peer n) as H.
    by destruct (start_suspicion up s peer).
  - apply start_suspicion_strikes.
Qed.

Lemma ping_one_events up pong s peer :
  (ping_one up pong s peer).2
  = (if up peer then [Send peer Ping] else [])
    ++ (if bool_decide (up peer && pong peer = false ∧ strikes s peer = 1%nat)
        then send_each up (elements (peers s)) (SuspicionVote peer (self s))
        else []).
Proof.
  unfold ping_one. pose proof (start_suspicion_events up s peer) as H.
  destruct (up peer); [destruct (pong peer)|].
  - by rewrite bool_decide_eq_false_2 by (by intros [? _]).
  - destruct (start_suspicion up s peer) as [s1 evs]. cbn [snd] in *. rewrite H.
    cbn [app]. f_equal.
    apply (f_equal (λ b : bool, if b then _ else _)).
    apply bool_decide_ext. cbn [andb]. tauto.
  - rewrite H. cbn [app].
    apply (f_equal (λ b : bool, if b then _ else _)).
    apply bool_decide_ext. cbn [andb]. tauto.
Qed.

Lemma ping_all_effect up pong peers_copy s :
  NoDup peers_copy →
  let r := ping_all up pong s peers_copy in
  (∀ n, strikes r.1 n
        = if bool_decide (n ∈ peers_copy)
          then (if up n && pong n then 0%nat else S (strikes s n))
          else strikes s n)
  ∧ (∀ e, e ∈ r.2 ↔
       (∃ n, e = Send n Ping ∧ n ∈ peers_copy ∧ up n = true)
       ∨ (∃ dst n, e = Send dst (SuspicionVote n (self s))
                   ∧ n ∈ peers_copy ∧ up n && pong n = false
                   ∧ strikes s n = 1%nat ∧ dst ∈ peers s ∧ up dst = true)).
Proof.
  intros Hnd. revert s. induction Hnd as [|peer rest Hfresh Hnd IH]; intros s.
  { cbn [ping_all fst snd]. split.
    - intros n. by rewrite bool_decide_eq_false_2 by apply not_elem_of_nil.
    - intros e. split; [by intros ?%elem_of_nil|].
      intros [(? & _ & ?%elem_of_nil & _)|(? & ? & _ & ?%elem_of_nil & _)]; done. }
  cbn [ping_all]. cbn zeta.
  pose proof (ping_one_strikes up pong s peer) as Hst.
  pose proof (ping_one_events up pong s peer) as Hev.
  pose proof (ping_one_state up pong s peer) as (Hp & _ & _ & Hself).
  destruct (ping_one up pong s peer) as [s1 evs]. simpl in Hst, Hev, Hp, Hself.
  specialize (IH s1). destruct (ping_all up pong s1 rest) as [s2 evs'].
  simpl in IH. destruct IH as [IHst IHev]. cbn [fst snd]. split.
  - intros n. rewrite IHst, !Hst.
    destruct (decide (n = peer)) as [->|Hne].
    + rewrite (bool_decide_eq_false_2 (peer ∈ rest)) by done.
      by rewrite bool_decide_eq_true_2 by left.
    + rewrite (bool_decide_ext (n ∈ peer :: rest) (n ∈ rest)); [done|].
      rewrite elem_of_cons. tauto.
  - intros e. rewrite elem_of_app, IHev, Hev, elem_of_app, Hself, Hp.
    split.
    + intros [[He|He]|[(n & -> & ? & ?)|(dst & n & -> & Hn & ? & Hs1 & ? & ?)]].
      * destruct (up peer) eqn:Eup; [|by apply elem_of_nil in He].
        apply list_elem_of_singleton in He as ->. left. exists peer.
        split_and!; [done|by left|done].
      * case_bool_decide as Hc; [|by apply elem_of_nil in He].
        apply elem_of_send_each in He as (dst & -> & ?%elem_of_elements & ?).
        right. exists dst, peer. destruct Hc. split_and!; [done|by left|done..].
      * left. exists n. split_and!; [done|by right|done].
      * right. exists dst, n. rewrite Hst, decide_False in Hs1 by (by intros ->).
        split_and!; [done|by right|done..].
    + intros [(n & -> & [->|Hn]%elem_of_cons & Hup)
             |(dst & n & -> & [->|Hn]%elem_of_cons & Hf & Hs & Hd & Hup)].
      * left. left. rewrite Hup. by left.
      * right. left. by exists n.
      * left. right. rewrite bool_decide_eq_true_2 by done.
        apply elem_of_send_each. exists dst. split_and!; [done| |done].
        by apply elem_of_elements.
      * right. right. exists dst, n. rewrite Hst, decide_False by (by intros ->).
        done.
Qed.

(** X11.  After a round of pings the strike count of every neighbor that
    answered is 0, that of every neighbor that did not has grown by one,
    and the others are untouched; a suspicion vote goes out for exactly the
    neighbors whose count moved from 1 to 2, to every neighbor that can be
    reached, naming the peer as voter; and every neighbor that can be
    reached is pinged. *)
Theorem ping_round_effect up pong s :
  let r := ping_peers up pong s in
  (∀ n, strikes r.1 n
        = if bool_decide (n ∈ peers s)
          then (if up n && pong n then 0%nat else S (strikes s n))
          else strikes s n)
  ∧ (∀ dst n voter,
       Send dst (SuspicionVote n voter) ∈ r.2 ↔
         voter = self s ∧ n ∈ peers s ∧ up n && pong n = false
         ∧ strikes s n = 1%nat ∧ dst ∈ peers s ∧ up dst = true)
  ∧ (∀ n, Send n Ping ∈ r.2 ↔ n ∈ peers s ∧ up n = true).
Proof.
  intros r. unfold r, ping_peers.
  destruct (ping_all_effect up pong (elements (peers s)) s (NoDup_elements _))
    as [Hst Hev].
  split_and!.
  - intros n. rewrite Hst.
    apply (f_equal (λ b : bool, if b then _ else _)).
    apply bool_decide_ext, elem_of_elements.
  - intros dst n voter. rewrite Hev. split.
    + intros [(? & [=] & _)|(d & m & [= -> -> ->] & ?%elem_of_elements & ?)]. done.
    + intros (-> & ?%elem_of_elements & ?). right. by exists dst, n.
  - intros n. rewrite Hev. split.
    + intros [(m & [= ->] & ?%elem_of_elements & ?)|(? & ? & [=] & _)]. done.
    + intros [?%elem_of_elements ?]. left. by exists n.
Qed.


(** ** Nothing is ever forgotten *)

Lemma ping_one_suspicions up pong s peer :
  ∃ m, (ping_one up pong s peer).1 = set_suspicions s m.
Proof.
  unfold ping_one, start_suspicion.
  destruct (up peer); [destruct (pong peer)|]; repeat case_bool_decide; simpl; eauto.
Qed.

Lemma ping_all_suspicions up pong s peers_copy :
  ∃ m, (ping_all up pong s peers_copy).1 = set_suspicions s m.
Proof.
  revert s. induction peers_copy as [|peer rest IH]; intros s; simpl.
  { exists (suspicions s). by destruct s. }
  destruct (ping_one_suspicions up pong s peer) as [m1 H1].
  destruct (ping_one up pong s peer) as [s1 evs]. simpl in H1. subst s1.
  destruct (IH (set_suspicions s m1)) as [m2 H2].
  destruct (ping_all up pong _ rest) as [s2 evs']. simpl in *. subst s2.
  by exists m2.
Qed.

(** What a step does to the state, field by field. *)
Lemma step_shape hash pow fsum up s i :
  let s' := (step hash pow fsum up s i).1 in
  (∃ r, registered_seeds s ⊆ r ∧ s' = set_registered_seeds s r)
  ∨ (∃ p, peers s ⊆ p ∧ s' = set_peers s p)
  ∨ (∃ l, message_list s ⊆ l ∧ s' = set_message_list s l)
  ∨ ((message_count s < 10)%nat ∧ s' = set_message_count s (message_count s + 1))
  ∨ (∃ m, s' = set_suspicions s m)
  ∨ (∃ q v, s' = set_suspicion_votes s (<[q := accusers s q ∪ {[v]}]> (suspicion_votes s)))
  ∨ s' = s.
Proof.
  destruct i as [selected|replies rand|now|pong|addr data]; simpl.
  - left. eexists. split; [|apply register_with_seed_result]. set_solver.
  - right. left. unfold fetch_peers.
    destruct (query_seeds _ _ _) as [all_peers asked].
    set (selected := select_peers_power_law _ _ _ _).
    destruct (connect_to_peers_result up s selected) as [Hst _].
    destruct (connect_to_peers up s selected) as [s' sent]. simpl in *.
    eexists. split; [|exact Hst]. set_solver.
  - unfold originate. case_bool_decide; simpl; [|by repeat right].
    do 3 right. left. done.
  - do 4 right. left. apply ping_all_suspicions.
  - destruct data; simpl; try by repeat right.
    + right. left. eexists. split; [|done]. set_solver.
    + case_bool_decide; simpl; [|by repeat right].
      do 2 right. left. eexists. split; [|done]. set_solver.
    + do 5 right. left. exists suspect, voter. apply handle_suspicion_vote_state.
Qed.

Lemma step_grows hash pow fsum up s i :
  let s' := (step hash pow fsum up s i).1 in
  peers s ⊆ peers s'
  ∧ registered_seeds s ⊆ registered_seeds s'
  ∧ message_list s ⊆ message_list s'
  ∧ (∀ q, accusers s q ⊆ accusers s' q)
  ∧ (message_count s ≤ message_count s')%nat
  ∧ self s' = self s ∧ seed_nodes s' = seed_nodes s.
Proof.
  intros s'. unfold s'.
  destruct (step_shape hash pow fsum up s i)
    as [(r & ? & ->)|[(p & ? & ->)|[(l & ? & ->)|[[? ->]|[[m ->]|[(q & v & ->)| ->]]]]]];
    simpl; split_and!; try done; try lia.
  intros q'. unfold accusers at 2. simpl. rewrite lookup_insert.
  case_decide; [subst; simpl; set_solver|done].
Qed.

(** X12.  No step ever removes a neighbor, a registered seed, a seen
    fingerprint or an accuser, lowers the message counter, or changes the
    peer's identity and seed list: in particular a neighbor that was
    reported dead stays a neighbor. *)
Theorem peer_state_grows hash pow fsum up s i :
  let s' := (step hash pow fsum up s i).1 in
  peers s ⊆ peers s'
  ∧ registered_seeds s ⊆ registered_seeds s'
  ∧ message_list s ⊆ message_list s'
  ∧ (∀ q, accusers s q ⊆ accusers s' q)
  ∧ (message_count s ≤ message_count s')%nat
  ∧ self s' = self s ∧ seed_nodes s' = seed_nodes s.
Proof. exact (step_grows hash pow fsum up s i). Qed.

(** ** Origination *)

(** X13.  A running peer has originated at most ten messages; up to then each
    call sends the next message, whose text carries the counter, to every
    neighbor that can be reached and to nobody else, and advances the
    counter, without recording anything as seen; from then on the call
    does nothing. *)
Theorem origination_bounded hash pow fsum ip0 port0 config s up now :
  reachable hash pow fsum ip0 port0 config s →
  (message_count s ≤ 10)%nat
  ∧ ((message_count s < 10)%nat →
     (originate up s now).1 = set_message_count s (message_count s + 1)
     ∧ (originate up s now).2
       = (λ n, Send n (Gossip (own_message s now)))
           <$> filter (λ n, up n = true) (elements (peers s)))
  ∧ (message_count s = 10%nat → originate up s now = (s, [])).
Proof.
  intros Hs.
  assert (message_count s ≤ 10)%nat as Hle.
  { clear up now. induction Hs as [|s up i Hs IH]; [simpl; lia|].
    destruct (step_shape hash pow fsum up s i)
      as [(r & ? & ->)|[(p & ? & ->)|[(l & ? & ->)|[[? ->]|[[m ->]|[(q & v & ->)| ->]]]]]];
      simpl; lia. }
  split_and!; [done| |].
  - intros Hlt. unfold originate. rewrite bool_decide_eq_true_2 by done.
    split; [done|]. simpl. unfold broadcast_message, send_each. do 2 f_equal.
    induction (elements (peers s)) as [|n l IH]; [done|].
    rewrite filter_cons, decide_True by done. by rewrite IH.
  - intros Heq. unfold originate. by rewrite bool_decide_eq_false_2 by lia.
Qed.

Lemma origination_bounded_witness :
  let s := Examples.peer1_with_p2 in
  reachable Examples.text_hash Examples.rounded_pow Examples.left_sum Examples.localhost 7001 Examples.config s
  ∧ (message_count s ≤ 10)%nat
  ∧ (message_count s < 10)%nat
  ∧ (originate Examples.all_up s "1700000000.5").2
    = (λ n, Send n (Gossip (own_message s "1700000000.5")))
        <$> filter (λ n, Examples.all_up n = true) (elements (peers s)).
Proof.
  intros s.
  assert (reachable Examples.text_hash Examples.rounded_pow Examples.left_sum Examples.localhost 7001 Examples.config s)
    as Hs.
  { apply (reach_step _ _ _ _ _ _ _ Examples.all_up
             (Receive (Examples.localhost, 50123) (PeerInfo Examples.p2))).
    apply (reach_step _ _ _ _ _ _ _ Examples.all_up
             (RegisterWithSeed [Examples.s1; Examples.s2])).
    apply reach_init. }
  assert (message_count s < 10)%nat as Hlt by (vm_compute; lia).
  destruct (origination_bounded _ _ _ _ _ _ _ Examples.all_up "1700000000.5" Hs)
    as (Hle & Hsend & _).
  split; [exact Hs|]. split; [exact Hle|]. split; [exact Hlt|].
  exact (proj2 (Hsend Hlt)).
Defined.

(** ** Duplicate suppression is by fingerprint *)

(** X14.  Two messages with the same fingerprint are the same message to the
    receiver: once one of them has been received, the other is dropped
    without a log line, a relay or any change of state. *)
Theorem colliding_message_dropped hash up up' s addr addr' m1 m2 :
  hash m1 = hash m2 →
  let s1 := (handle_peer hash up s addr (Gossip m1)).1 in
  handle_peer hash up' s1 addr' (Gossip m2) = (s1, []).
Proof.
  intros Heq s1. unfold s1. cbn [handle_peer]. rewrite <- Heq.
  destruct (bool_decide (hash m1 ∉ message_list s)) eqn:E; simpl.
  - rewrite bool_decide_eq_false_2; [done|]. set_solver.
  - by rewrite E.
Qed.

Lemma colliding_message_dropped_witness :
  let s1 := (handle_peer Examples.text_hash Examples.all_up Examples.peer1_with_p2
               Examples.p3 (Gossip "hello")).1 in
  Examples.text_hash "hello" = Examples.text_hash "world"
  ∧ handle_peer Examples.text_hash Examples.all_up s1 Examples.p3 (Gossip "world")
    = (s1, []).
Proof.
  intros s1.
  assert (Examples.text_hash "hello" = Examples.text_hash "world") as Heq by reflexivity.
  split; [exact Heq|].
  apply (colliding_message_dropped Examples.text_hash Examples.all_up Examples.all_up
           Examples.peer1_with_p2 Examples.p3 Examples.p3 "hello" "world" Heq).
Defined.

Lemma logs_step hash pow fsum up s i m :
  LogGossipReceived m ∈ logs (step hash pow fsum up s i).2 →
  ∃ addr, i = Receive addr (Gossip m).
Proof.
  destruct i as [selected|replies rand|now|pong|addr data]; simpl.
  - destruct (register_with_seed_result up s selected) as (_ & _ & ->).
    intros (seed & Hs & _)%list_elem_of_fmap. by destruct (up seed).
  - unfold fetch_peers.
    pose proof (query_seeds_asked up replies (elements (registered_seeds s))) as Hq.
    destruct (query_seeds _ _ _) as [all_peers asked]. simpl in Hq. subst asked.
    set (selected := select_peers_power_law _ _ _ _).
    destruct (connect_to_peers_result up s selected) as [_ Hev].
    destruct (connect_to_peers up s selected) as [s' sent]. simpl in *. subst sent.
    rewrite !logs_app, logs_send_each. simpl.
    intros [Hin|Hin]%elem_of_app.
    + apply elem_of_logs, list_elem_of_fmap in Hin as (? & [=] & _).
    + by apply list_elem_of_singleton in Hin.
  - unfold originate. case_bool_decide; simpl; [|by intros ?%elem_of_nil].
    unfold broadcast_message. rewrite logs_send_each. by intros ?%elem_of_nil.
  - intros Hin%elem_of_logs. unfold ping_peers in Hin.
    apply (ping_all_effect up pong (elements (peers s)) s (NoDup_elements _)) in Hin.
    by destruct Hin as [(? & [=] & _)|(? & ? & [=] & _)].
  - destruct data; simpl; try by intros ?%elem_of_nil.
    + case_bool_decide; simpl; [|by intros ?%elem_of_nil].
      unfold broadcast_message. rewrite logs_send_each.
      intros [= ->]%list_elem_of_singleton. by exists addr.
    + by intros [=]%list_elem_of_singleton.
    + rewrite handle_suspicion_vote_events. case_bool_decide; [|by intros ?%elem_of_nil].
      simpl. rewrite logs_send_each. by intros [=]%list_elem_of_singleton.
Qed.

Lemma logs_receive_gossip hash up s addr m :
  logs (handle_peer hash up s addr (Gossip m)).2
  = if bool_decide (hash m ∉ message_list s) then [LogGossipReceived m] else [].
Proof.
  simpl. case_bool_decide; [|done]. simpl.
  unfold broadcast_message. by rewrite logs_send_each.
Qed.

Lemma receipts_step hash pow fsum up s i m :
  receipts m (step hash pow fsum up s i).2
  = if receives_gossip m i && bool_decide (hash m ∉ message_list s)
    then 1%nat else 0%nat.
Proof.
  unfold receipts.
  destruct (receives_gossip m i && bool_decide (hash m ∉ message_list s)) eqn:Hc.
  - apply andb_true_iff in Hc as [Hi Hnew%bool_decide_eq_true].
    destruct i as [| | | |addr []]; try done. simpl in Hi.
    apply bool_decide_eq_true in Hi as ->. cbn [step].
    rewrite logs_receive_gossip, bool_decide_eq_true_2 by done.
    by rewrite filter_cons, decide_True.
  - rewrite occurrences_absent; [done|].
    intros Hin. destruct (logs_step _ _ _ _ _ _ _ Hin) as [addr ->].
    cbn [step] in Hin. rewrite logs_receive_gossip in Hin.
    simpl in Hc. rewrite bool_decide_eq_true_2 in Hc by done. simpl in Hc.
    rewrite Hc in Hin. by apply elem_of_nil in Hin.
Qed.

Lemma receipts_app m evs evs' : receipts m (evs ++ evs') = (receipts m evs + receipts m evs')%nat.
Proof. unfold receipts. by rewrite logs_app, filter_app, length_app. Qed.

(** X15.  Over any run of a peer, the receipt of a given message is logged at
    most once, and never if its fingerprint was already on record. *)
Theorem gossip_logged_once hash pow fsum s script m :
  (receipts m (run hash pow fsum s script).2
   ≤ if bool_decide (hash m ∈ message_list s) then 0 else 1)%nat.
Proof.
  revert s. induction script as [|[up i] rest IH]; intros s.
  { simpl. case_bool_decide; unfold receipts; simpl; lia. }
  cbn [run]. pose proof (receipts_step hash pow fsum up s i m) as Hstep.
  destruct (step_grows hash pow fsum up s i) as (_ & _ & Hmono & _).
  assert (receives_gossip m i = true → hash m ∉ message_list s →
          hash m ∈ message_list (step hash pow fsum up s i).1) as Hrec.
  { intros Hi Hnew. destruct i as [| | | |addr []]; try done. simpl in Hi.
    apply bool_decide_eq_true in Hi as ->. simpl.
    rewrite bool_decide_eq_true_2 by done. simpl. set_solver. }
  destruct (step hash pow fsum up s i) as [s1 evs]. simpl in Hstep, Hmono, Hrec.
  specialize (IH s1). destruct (run hash pow fsum s1 rest) as [s2 evs']. cbn [fst snd] in *.
  rewrite receipts_app, Hstep.
  destruct (receives_gossip m i); simpl in *;
    repeat case_bool_decide; try lia; try (exfalso; set_solver).
Qed.

End PeerMore.

(** * The seed list file *)
Module ConfigFacts.
Import Config.

(** ** Splitting *)

Lemma split_nonempty sep s : split sep s ≠ [].
Proof.
  induction s as [|c s IH]; simpl; [done|].
  case_decide; [done|]. by destruct (split sep s).
Qed.

Lemma append_cons x (a b : string) : (String x a +:+ b = String x (a +:+ b))%string.
Proof. done. Qed.

Lemma append_nil_l (b : string) : ("" +:+ b = b)%string.
Proof. done. Qed.

Lemma append_assoc (a b c : string) : ((a +:+ b) +:+ c = a +:+ b +:+ c)%string.
Proof.
  induction a as [|x a IH]; [done|]. rewrite !append_cons. by f_equal.
Qed.

Lemma append_nil_r (a : string) : (a +:+ "" = a)%string.
Proof. induction a as [|x a IH]; [done|]. rewrite append_cons. by f_equal. Qed.

Lemma concat_cons (sep x y : string) (l : list string) :
  String.concat sep (x :: y :: l) = (x +:+ sep +:+ String.concat sep (y :: l))%string.
Proof. done. Qed.

Lemma split_pieces sep s :
  String.concat (String sep EmptyString) (split sep s) = s
  ∧ Forall (λ piece, ¬ occurs sep piece) (split sep s)
  ∧ (∀ a b, split sep s = [a; b] ↔
            s = (a +:+ String sep b)%string ∧ ¬ occurs sep a ∧ ¬ occurs sep b).
Proof.
  induction s as [|c s (IHj & IHf & IH2)].
  { simpl. split_and!; [done|apply Forall_singleton; by intros []|].
    intros a b. split; [done|]. intros [H _]. by destruct a. }
  cbn [split]. destruct (decide (c = sep)) as [->|Hne].
  - destruct (split sep s) as [|head tail] eqn:E; [by apply split_nonempty in E|].
    split_and!.
    + rewrite concat_cons, IHj. reflexivity.
    + constructor; [by intros []|done].
    + intros a b. split.
      * intros [= <- <- ->]. simpl in IHj.
        rewrite Forall_singleton in IHf. rewrite append_nil_l.
        split_and!; [by subst|by intros []|done].
      * intros (Hs & Ha & Hb). destruct a as [|x a].
        -- rewrite append_nil_l in Hs. injection Hs as ->. f_equal.
           destruct tail as [|t tail]; [by simpl in IHj; subst|].
           exfalso. rewrite concat_cons in IHj. rewrite <- IHj in Hb.
           clear -Hb. induction head as [|y h IH].
           ++ rewrite append_nil_l, append_cons in Hb. simpl in Hb. tauto.
           ++ rewrite append_cons in Hb. simpl in Hb. tauto.
        -- rewrite append_cons in Hs. injection Hs as -> _. simpl in Ha. tauto.
  - destruct (split sep s) as [|head tail] eqn:E; [by apply split_nonempty in E|].
    split_and!.
    + destruct tail as [|t tail]; [by simpl in *; rewrite IHj|].
      rewrite concat_cons in *. rewrite append_cons. by rewrite IHj.
    + apply Forall_cons in IHf as [Hh Ht]. constructor; [|done]. simpl. tauto.
    + intros a b. split.
      * intros [= <- ->]. destruct (proj1 (IH2 head b) eq_refl) as (-> & ? & ?).
        split_and!; [done| |done]. simpl. tauto.
      * intros (Hs & Ha & Hb). destruct a as [|x a].
        { rewrite append_nil_l in Hs. by injection Hs as ->. }
        rewrite append_cons in Hs. injection Hs as -> ->. simpl in Ha.
        assert (head :: tail = [a; b]) as [= -> ->] by (apply IH2; tauto). done.
Qed.

(** X19.  Splitting loses nothing: joining the pieces with the separator gives
    the string back, no piece holds the separator, and there are exactly
    two pieces when the separator occurs exactly once. *)
Theorem split_join sep s :
  String.concat (String sep EmptyString) (split sep s) = s
  ∧ Forall (λ piece, ¬ occurs sep piece) (split sep s)
  ∧ (∀ a b, split sep s = [a; b] ↔
            s = (a +:+ String sep b)%string ∧ ¬ occurs sep a ∧ ¬ occurs sep b).
Proof. exact (split_pieces sep s). Qed.

(** ** Reading the seed list *)

Section Reading.
Variable strip : string → string.
Variable int : string → option Z.

Lemma parse_entry_blank line :
  strip line = EmptyString → parse_entry strip int line = None.
Proof. intros H. unfold parse_entry. by rewrite H. Qed.

Lemma read_lines_acc lines seeds :
  read_lines strip int lines seeds = seeds ++ read_lines strip int lines [].
Proof.
  revert seeds. induction lines as [|line rest IH]; intros seeds; simpl.
  { by rewrite app_nil_r. }
  case_decide; [done|]. destruct (parse_entry strip int line) as [seed|].
  - rewrite (IH (seeds ++ [seed])), (IH [seed]). by rewrite <- app_assoc.
  - by rewrite app_nil_r.
Qed.

(** A line is an entry exactly when, stripped, it reads [ip:text] with
    no further colon and [int] accepts [text]. *)
Lemma parse_entry_Some line ip port :
  parse_entry strip int line = Some (ip, port) ↔
    ∃ text, strip line = (ip +:+ String colon text)%string
            ∧ ¬ occurs colon ip ∧ ¬ occurs colon text ∧ int text = Some port.
Proof.
  unfold parse_entry. destruct (split_pieces colon (strip line)) as (_ & _ & H2).
  split.
  - destruct (split colon (strip line)) as [|a [|b [|? ?]]] eqn:E; try done.
    destruct (int b) eqn:Eb; [|done]. intros [= -> ->].
    destruct (proj1 (H2 ip b) eq_refl) as (? & ? & ?). by exists b.
  - intros (text & Hs & Ha & Hb & Hint).
    rewrite (proj2 (H2 ip text)) by done. by rewrite Hint.
Qed.

(** X20.  The seed list that is read consists of the entries of the file up to
    the first line that is neither blank nor an entry; that line and all
    after it are dropped without further notice.  A file that cannot be
    opened gives the empty list. *)
Theorem read_seed_nodes_prefix lines :
  read_seed_nodes strip int None = []
  ∧ ∃ ok rest,
      lines = ok ++ rest
      ∧ Forall (well_formed strip int) ok
      ∧ (∀ bad rest', rest = bad :: rest' → ¬ well_formed strip int bad)
      ∧ read_seed_nodes strip int (Some lines) = omap (parse_entry strip int) ok.
Proof.
  split; [done|]. simpl. induction lines as [|line rest IH].
  { exists [], []. split_and!; [done|constructor|done|done]. }
  destruct IH as (ok & rest' & -> & Hok & Hbad & Hread). simpl.
  destruct (decide (strip line = EmptyString)) as [Hblank|Hblank].
  - exists (line :: ok), rest'. split_and!; [done| |done|].
    + constructor; [by left|done].
    + simpl. by rewrite parse_entry_blank.
  - destruct (parse_entry strip int line) as [seed|] eqn:E.
    + exists (line :: ok), rest'. split_and!; [done| |done|].
      * constructor; [right; by rewrite E|done].
      * simpl. rewrite E. rewrite read_lines_acc. simpl. by f_equal.
    + exists [], (line :: ok ++ rest'). split_and!; [done|constructor| |done].
      intros bad ? [= <- _] [?|Hsome]; [done|]. rewrite E in Hsome.
      by destruct Hsome.
Qed.

End Reading.

(** ** The seed's own entry *)

Lemma prefix_refl_app (s t : string) : String.prefix s (s +:+ t) = true.
Proof.
  induction s as [|c s IH]; [by destruct t|].
  rewrite append_cons. simpl. by destruct (Ascii.ascii_dec c c).
Qed.

Lemma contains_prefix (needle haystack : string) :
  String.prefix needle haystack = true → contains needle haystack = true.
Proof.
  intros H. destruct haystack; unfold contains; fold contains; by rewrite H.
Qed.

Lemma contains_app (before needle after : string) :
  contains needle (before +:+ needle +:+ after) = true.
Proof.
  induction before as [|c before IH].
  - rewrite append_nil_l. apply contains_prefix, prefix_refl_app.
  - rewrite append_cons. simpl. rewrite IH. by rewrite orb_true_r.
Qed.

(** X21.  The seed adds its entry to the file only when the text of the entry
    occurs nowhere in it, as a line or as part of one: a file that holds
    the text anywhere is left as it is; otherwise the entry and a line
    break are appended; and a second start leaves the file of the first. *)
Theorem ensure_listed_once content ip port :
  (∀ before after,
     content = (before +:+ entry ip port +:+ after)%string →
     ensure_listed content ip port = content)
  ∧ (ensure_listed content ip port = content
     ∨ ensure_listed content ip port = (content +:+ entry ip port +:+ newline)%string)
  ∧ contains (entry ip port) (ensure_listed content ip port) = true
  ∧ ensure_listed (ensure_listed content ip port) ip port
    = ensure_listed content ip port.
Proof.
  assert (contains (entry ip port) (ensure_listed content ip port) = true) as Hin.
  { unfold ensure_listed. destruct (contains _ content) eqn:E; [done|].
    apply contains_app. }
  split_and!.
  - intros before after ->. unfold ensure_listed. by rewrite contains_app.
  - unfold ensure_listed. destruct (contains _ content); auto.
  - done.
  - unfold ensure_listed at 1. by rewrite Hin.
Qed.

End ConfigFacts.

(** * Choosing the seeds to register with *)
Module StartupFacts.
Import Peer Startup.

Lemma majority_le n : (0 < n)%nat → (majority n ≤ n)%nat.
Proof.
  intros Hn. unfold majority.
  pose proof (Nat.div_mod_eq n 2). pose proof (Nat.mod_upper_bound n 2).
  destruct n as [|[|n]]; simpl in *; lia.
Qed.

Lemma submseteq_NoDup (l k : list Endpoint) : l ⊆+ k → NoDup k → NoDup l.
Proof.
  intros [k' Hk]%submseteq_Permutation Hnd. rewrite Hk in Hnd.
  by apply NoDup_app in Hnd as [? _].
Qed.

Lemma filter_all_up (up : network) (l : list Endpoint) :
  (∀ x, x ∈ l → up x = true) → filter (λ x, up x = true) l = l.
Proof.
  induction l as [|x l IH]; intros Hup; [done|].
  rewrite filter_cons, decide_True by (apply Hup; left).
  f_equal. apply IH. intros y Hy. apply Hup. by right.
Qed.

(** X18.  The seeds a peer registers with: an empty seed list makes the
    selection raise, so the registration never starts; otherwise a strict
    majority of the configured entries is selected, and when the entries
    are pairwise different and every selected seed can be reached, a
    freshly started peer ends up registered with exactly that many. *)
Theorem select_seed_nodes_majority sample up s :
  samples sample →
  (seed_nodes s = [] →
     select_seed_nodes sample s = None ∧ register sample up s = None)
  ∧ (seed_nodes s ≠ [] →
     ∃ selected,
       select_seed_nodes sample s = Some selected
       ∧ register sample up s = Some (register_with_seed up s selected)
       ∧ length selected = majority (length (seed_nodes s))
       ∧ selected ⊆+ seed_nodes s
       ∧ (NoDup (seed_nodes s) → registered_seeds s = ∅ →
          (∀ seed, seed ∈ selected → up seed = true) →
          size (registered_seeds (register_with_seed up s selected).1)
          = majority (length (seed_nodes s)))).
Proof.
  intros Hsample. split.
  - intros Hnil. unfold register, select_seed_nodes. rewrite Hnil.
    destruct (Hsample [] (majority (length (@nil Endpoint)))) as [Hraise _].
    rewrite Hraise by (unfold majority; simpl; lia). done.
  - intros Hne. unfold register, select_seed_nodes.
    destruct (Hsample (seed_nodes s) (majority (length (seed_nodes s)))) as [_ Hok].
    destruct Hok as (selected & Hsel & Hlen & Hsub).
    { apply majority_le. destruct (seed_nodes s); [done|simpl; lia]. }
    exists selected. rewrite Hsel. split_and!; [done..|].
    intros Hnd Hfresh Hup.
    destruct (PeerMore.register_with_seed_result up s selected) as (-> & _).
    simpl. rewrite Hfresh, union_empty_l_L, filter_all_up by done.
    rewrite size_list_to_set by (by eapply submseteq_NoDup). done.
Qed.

(** A sampler that meets the contract: the first [k] elements. *)
Lemma take_samples :
  samples (λ population k,
             if decide (k ≤ length population)%nat then Some (take k population)
             else None).
Proof.
  intros population k. split.
  - intros Hlt. by rewrite decide_False by lia.
  - intros Hle. rewrite decide_True by done. eexists. split; [done|].
    split; [by rewrite length_take_le|apply submseteq_take].
Qed.

Lemma select_seed_nodes_majority_witness :
  let sample := λ (population : list Endpoint) k,
                  if decide (k ≤ length population)%nat
                  then Some (take k population) else None in
  samples sample
  ∧ seed_nodes Examples.peer1 ≠ []
  ∧ ∃ selected,
      select_seed_nodes sample Examples.peer1 = Some selected
      ∧ length selected = 2%nat.
Proof.
  intros sample.
  assert (seed_nodes Examples.peer1 ≠ []) as Hne by done.
  split; [exact take_samples|]. split; [exact Hne|].
  destruct (select_seed_nodes_majority sample Examples.all_up Examples.peer1 take_samples)
    as [_ Hsome].
  destruct (Hsome Hne) as (selected & Hsel & _ & Hlen & _).
  exists selected. split; [exact Hsel|exact Hlen].
Defined.

End StartupFacts.

(** * The growth simulation *)
Module SimulationFacts.
Import Simulation.

Lemma name_inj i j : name i = name j → i = j.
Proof.
  unfold name. intros H%(inj (String.append "Peer"))%(inj pretty). lia.
Qed.

Lemma names_S n : names (S n) = names n ++ [name n].
Proof. unfold names. by rewrite seq_S, fmap_app. Qed.

Lemma names_length n : length (names n) = n.
Proof. unfold names. by rewrite length_fmap, length_seq. Qed.

Lemma elem_of_names n p : p ∈ names n ↔ ∃ i, p = name i ∧ (i < n)%nat.
Proof.
  unfold names. rewrite list_elem_of_fmap. split.
  - intros (i & -> & Hi%elem_of_seq). exists i. split; [done|lia].
  - intros (i & -> & Hi). exists i. split; [done|]. apply elem_of_seq. lia.
Qed.

Lemma name_fresh n : name n ∉ names n.
Proof. intros (i & ->%name_inj & ?)%elem_of_names. lia. Qed.

Lemma NoDup_names n : NoDup (names n).
Proof.
  induction n as [|n IH]; [constructor|].
  rewrite names_S. apply NoDup_app. split_and!; [done| |apply NoDup_singleton].
  intros p Hp ->%list_elem_of_singleton. by apply (name_fresh n).
Qed.

Lemma sum_same (f g : string → nat) (l : list string) :
  (∀ q, q ∈ l → g q = f q) → sum_list_with g l = sum_list_with f l.
Proof.
  induction l as [|x l IH]; intros H; [done|]. simpl.
  rewrite (H x) by left. f_equal. apply IH. intros q ?. apply H. by right.
Qed.

Lemma sum_bump (f g : string → nat) (l : list string) (p : string) :
  NoDup l → p ∈ l → g p = S (f p) → (∀ q, q ≠ p → q ∈ l → g q = f q) →
  sum_list_with g l = S (sum_list_with f l).
Proof.
  induction 1 as [|x l Hx Hnd IH]; [by intros ?%elem_of_nil|].
  intros [->|Hp]%elem_of_cons Hgp Hother; simpl.
  - rewrite Hgp, (sum_same f g l); [lia|].
    intros q Hq. apply Hother; [by intros ->|by right].
  - rewrite (Hother x), IH; [lia|done..| |by intros ->|by left].
    intros q ? ?. apply Hother; [done|by right].
Qed.

Lemma select_one pow fsum rand net first rest :
  (∀ p, p ∈ first :: rest → is_Some (degrees net !! p)) →
  ∃ p, p ∈ first :: rest
       ∧ select_peers_power_law pow fsum rand net (first :: rest) = Some [p].
Proof.
  intros Hdeg. unfold select_peers_power_law.
  destruct (mapM_is_Some_2 (λ peer, (λ d, d + 1)%nat <$> degrees net !! peer)
              (first :: rest)) as [degs ->].
  { apply Forall_forall. intros p Hp. simpl.
    destruct (Hdeg p Hp) as [d ->]. by eexists. }
  set (cs := first :: rest). cbn zeta.
  replace (1 `min` length cs)%nat with 1%nat by (simpl; lia).
  set (probabilities := (λ p : float, (p / _)%float) <$> _).
  pose proof (SelectionFacts.choices_length rand (length cs) probabilities 1) as Hlen.
  destruct (Peer.choices rand (length cs) probabilities 1) as [|i [|? ?]] eqn:Eidx;
    try done.
  assert (i < length cs)%nat as Hi.
  { pose proof (SelectionFacts.choices_bound rand (length cs) probabilities 1 i) as Hle.
    rewrite Eidx in Hle. specialize (Hle ltac:(left)). simpl in *. lia. }
  cbn [fmap list_fmap].
  destruct (lookup_lt_is_Some_2 cs i Hi) as [p Hp].
  exists p. split; [by apply list_elem_of_lookup_2 in Hp|].
  by rewrite Hp.
Qed.

Lemma add_peer_step pow fsum rand net :
  consistent net →
  let new := name (length (peers net)) in
  ∃ net',
    add_peer pow fsum rand net = Some net'
    ∧ consistent net'
    ∧ peers net' = peers net ++ [new]
    ∧ (peers net = [] → degree net' new = 0%nat)
    ∧ (peers net ≠ [] →
       degree net' new = 1%nat
       ∧ ∃ p, p ∈ peers net ∧ degree net' p = S (degree net p)
              ∧ ∀ q, q ∈ peers net → q ≠ p → degree net' q = degree net q).
Proof.
  intros [Hnames Hdeg] new. unfold add_peer. fold (name (length (peers net))). fold new.
  assert (new ∉ peers net) as Hfresh.
  { rewrite Hnames. unfold new. apply name_fresh. }
  assert (∀ ps, ps = peers net ++ [new] → ps = names (length ps)) as Hnames'.
  { intros ps ->. rewrite length_app, Nat.add_1_r, names_S. simpl.
    by rewrite <- Hnames. }
  destruct (peers net) as [|first rest] eqn:Epeers.
  - rewrite bool_decide_eq_false_2 by (simpl; lia).
    eexists. split; [done|]. split_and!; [| done | | done].
    + split; [by apply Hnames'|]. simpl.
      intros p ->%list_elem_of_singleton. by rewrite lookup_insert_eq.
    + intros _. unfold degree. simpl. by rewrite lookup_insert_eq.
  - rewrite bool_decide_eq_true_2 by (rewrite length_app; simpl; lia).
    rewrite take_app_length' by (rewrite length_app; simpl; lia).
    destruct (select_one pow fsum rand
                {| peers := (first :: rest) ++ [new];
                   degrees := <[new := 0%nat]> (degrees net) |} first rest)
      as (p & Hp & ->).
    { intros q Hq. simpl. rewrite lookup_insert_ne by (by intros ->).
      by apply Hdeg. }
    destruct (Hdeg p Hp) as [d Hd].
    assert (p ≠ new) as Hne by (by intros ->).
    unfold connect, increment.
    rewrite lookup_insert_ne, Hd by done.
    rewrite lookup_insert_ne, lookup_insert_eq by done.
    eexists. split; [done|]. split_and!; [|done|done|].
    + split; [by apply Hnames'|]. simpl. intros q Hq.
      destruct (decide (q = new)) as [->|?]; [by rewrite lookup_insert_eq|].
      rewrite lookup_insert_ne by done.
      destruct (decide (q = p)) as [->|?]; [by rewrite lookup_insert_eq|].
      rewrite !lookup_insert_ne by done.
      apply Hdeg. change (q ∈ (first :: rest) ++ [new]) in Hq.
      apply elem_of_app in Hq as [?|?%list_elem_of_singleton]; done.
    + intros _. unfold degree. simpl. split; [by rewrite lookup_insert_eq|].
      exists p. split_and!; [done| |].
      * rewrite lookup_insert_ne, lookup_insert_eq, Hd by done. simpl. lia.
      * intros q Hq Hqp.
        assert (q ≠ new) by (by intros ->).
        by rewrite !lookup_insert_ne by done.
Qed.

Lemma add_peer_sound pow fsum rand net :
  sound net →
  ∃ net', add_peer pow fsum rand net = Some net' ∧ sound net'
          ∧ length (peers net') = S (length (peers net)).
Proof.
  intros (Hcons & Htotal & Hmin).
  destruct (add_peer_step pow fsum rand net Hcons) as (net' & Hadd & Hcons' & Hpeers & H0 & H1).
  exists net'. split; [done|]. split; [|by rewrite Hpeers, length_app, Nat.add_1_r].
  split; [done|].
  assert (NoDup (peers net)) as Hnd by (destruct Hcons as [-> _]; apply NoDup_names).
  unfold total_degree in *. rewrite Hpeers, sum_list_with_app, length_app. simpl.
  destruct (decide (peers net = [])) as [Hnil|Hne].
  - rewrite Hnil in *. simpl in *. rewrite (H0 eq_refl). split; [done|]. lia.
  - destruct (H1 Hne) as (Hnew & p & Hp & Hbump & Hsame).
    rewrite Hnew, (sum_bump (degree net) (degree net') (peers net) p), Htotal;
      [|done|done|done|by intros q ? ?; apply Hsame].
    assert (0 < length (peers net))%nat by (destruct (peers net); [done|simpl; lia]).
    split; [lia|]. intros _ q [Hq | ->%list_elem_of_singleton]%elem_of_app; [|lia].
    destruct (decide (q = p)) as [->|Hqp]; [lia|].
    rewrite Hsame by done. apply Hmin; [|done].
    destruct (peers net) as [|x [|y l]]; [done| |simpl; lia].
    apply list_elem_of_singleton in Hq, Hp. congruence.
Qed.

Lemma simulate_from_sound pow fsum draws t num_peers net :
  sound net →
  ∃ net', simulate_from pow fsum draws t num_peers net = Some net' ∧ sound net'
          ∧ length (peers net') = (length (peers net) + num_peers)%nat.
Proof.
  revert t net. induction num_peers as [|n IH]; intros t net Hs; simpl.
  { exists net. split_and!; [done|done|lia]. }
  destruct (add_peer_sound pow fsum (draws t) net Hs) as (net1 & -> & Hs1 & Hlen).
  destruct (IH (S t) net1 Hs1) as (net' & -> & Hs' & Hlen').
  exists net'. split_and!; [done|done|lia].
Qed.

(** X22.  The simulation never fails on a missing degree.  After [n] calls of
    [add_peer] on the empty network the peers are [Peer1] to [Peer<n>] in
    this order, the degrees add up to [2(n-1)] (each peer after the first
    brought one link), and from two peers on nobody is left without a
    link, whatever the random draws. *)
Theorem simulate_links pow fsum draws num_peers :
  ∃ net,
    simulate pow fsum draws num_peers empty = Some net
    ∧ peers net = names num_peers
    ∧ total_degree net = (2 * (num_peers - 1))%nat
    ∧ ((2 ≤ num_peers)%nat → ∀ p, p ∈ peers net → (1 ≤ degree net p)%nat).
Proof.
  assert (sound empty) as Hs.
  { split_and!; [split; [done|by intros ? ?%elem_of_nil]|done|simpl; lia]. }
  destruct (simulate_from_sound pow fsum draws 0 num_peers empty Hs)
    as (net & Hsim & ([Hnames _] & Htotal & Hmin) & Hlen).
  simpl in Hlen. exists net. rewrite Hlen in *. by split_and!.
Qed.

End SimulationFacts.

(** * The process launcher *)
Module StarterFacts.
Import Starter.

Lemma first_free_spec free used ports :
  match first_free free used ports with
  | Some port =>
      ∃ i, ports !! i = Some port ∧ (port ∉ used) ∧ free port = true
           ∧ ∀ j q, (j < i)%nat → ports !! j = Some q → q ∈ used ∨ free q = false
  | None => ∀ q, q ∈ ports → q ∈ used ∨ free q = false
  end.
Proof.
  induction ports as [|port rest IH]; simpl.
  { by intros q ?%elem_of_nil. }
  case_bool_decide as Hused; [|destruct (free port) eqn:Efree].
  - destruct (first_free free used rest) as [p|].
    + destruct IH as (i & Hi & ? & ? & Hbefore). exists (S i).
      split_and!; [done..|]. intros [|j] q Hj Hq; simpl in Hq.
      * injection Hq as <-. by left.
      * apply (Hbefore j); [lia|done].
    + intros q [->|?]%elem_of_cons; [by left|by apply IH].
  - exists 0%nat. split_and!; [done..|]. intros; lia.
  - destruct (first_free free used rest) as [p|].
    + destruct IH as (i & Hi & ? & ? & Hbefore). exists (S i).
      split_and!; [done..|]. intros [|j] q Hj Hq; simpl in Hq.
      * injection Hq as <-. by right.
      * apply (Hbefore j); [lia|done].
    + intros q [->|?]%elem_of_cons; [by right|by apply IH].
Qed.

Lemma first_fit free m :
  match get_free_peer_port free m with
  | Some (port, m') =>
      (peer_port_start m ≤ port ≤ peer_port_end m)%Z
      ∧ (port ∉ used_ports m) ∧ free port = true
      ∧ (∀ q, (peer_port_start m ≤ q < port)%Z → q ∈ used_ports m ∨ free q = false)
      ∧ m' = {| peer_port_start := peer_port_start m;
                peer_port_end := peer_port_end m;
                used_ports := used_ports m ∪ {[port]};
                peer_processes := peer_processes m;
                seed_processes := seed_processes m |}
  | None =>
      ∀ q, (peer_port_start m ≤ q ≤ peer_port_end m)%Z →
           q ∈ used_ports m ∨ free q = false
  end.
Proof.
  unfold get_free_peer_port.
  pose proof (first_free_spec free (used_ports m)
                (seqZ (peer_port_start m) (peer_port_end m + 1 - peer_port_start m)))
    as Hspec.
  destruct (first_free _ _ _) as [port|].
  - destruct Hspec as (i & Hi & Hfresh & Hfree & Hbefore).
    apply lookup_seqZ in Hi as [-> Hi]. simpl.
    split_and!; [lia|lia|done|done| |done].
    intros q Hq. apply (Hbefore (Z.to_nat (q - peer_port_start m))); [lia|].
    apply lookup_seqZ. lia.
  - intros q Hq. apply Hspec, elem_of_seqZ. lia.
Qed.

(** X23.  First fit: [get_free_peer_port] returns the lowest port of the range
    that is neither marked as used nor busy, and marks it as used; it fails
    exactly when every port of the range is marked or busy (in particular
    when the range is empty).  Ports found busy are skipped, not marked. *)
Theorem get_free_peer_port_first_fit free m :
  match get_free_peer_port free m with
  | Some (port, m') =>
      (peer_port_start m ≤ port ≤ peer_port_end m)%Z
      ∧ (port ∉ used_ports m) ∧ free port = true
      ∧ (∀ q, (peer_port_start m ≤ q < port)%Z → q ∈ used_ports m ∨ free q = false)
      ∧ m' = {| peer_port_start := peer_port_start m;
                peer_port_end := peer_port_end m;
                used_ports := used_ports m ∪ {[port]};
                peer_processes := peer_processes m;
                seed_processes := seed_processes m |}
  | None =>
      ∀ q, (peer_port_start m ≤ q ≤ peer_port_end m)%Z →
           q ∈ used_ports m ∨ free q = false
  end.
Proof. exact (first_fit free m). Qed.

(** X17.  Spawning and killing: in a manager that marks the port of every child
    it knows, [spawn_peer] records a child under a port that had none,
    with that port on its command line, and keeps the marking; killing
    that child gives back the manager as it was, port released; killing a
    port without child changes nothing. *)
Theorem spawn_then_kill free m :
  dom (peer_processes m) ⊆ used_ports m →
  (∀ port m', spawn_peer free m = Some (port, m') →
     peer_processes m !! port = None
     ∧ peer_processes m' !! port = Some (peer_command port)
     ∧ port ∈ used_ports m'
     ∧ dom (peer_processes m') ⊆ used_ports m'
     ∧ kill_peer m' port = m)
  ∧ (∀ port, dom (peer_processes (kill_peer m port)) ⊆ used_ports (kill_peer m port)
             ∧ peer_processes (kill_peer m port) !! port = None
             ∧ (peer_processes m !! port = None → kill_peer m port = m)).
Proof.
  intros Hinv. split.
  - intros port m'. unfold spawn_peer.
    pose proof (first_fit free m) as Hfit.
    destruct (get_free_peer_port free m) as [[p m1]|]; [|done].
    destruct Hfit as (_ & Hfresh & _ & _ & ->).
    intros [= -> <-]. simpl.
    assert (peer_processes m !! port = None) as Hnone.
    { apply not_elem_of_dom. set_solver. }
    split_and!; [done|by rewrite lookup_insert_eq|set_solver| |].
    + rewrite dom_insert_L. set_solver.
    + unfold kill_peer. cbn [peer_processes]. rewrite lookup_insert_eq.
      cbn [peer_processes used_ports peer_port_start peer_port_end seed_processes].
      rewrite delete_insert_eq, delete_id by done.
      destruct m as [a b used procs seeds]. simpl in *. f_equal.
      apply set_eq. intros q. rewrite elem_of_difference, elem_of_union, elem_of_singleton.
      split; [tauto|]. intros Hq. split; [by left|]. by intros ->.
  - intros port. unfold kill_peer.
    destruct (peer_processes m !! port) eqn:E; simpl.
    + split_and!; [|by rewrite lookup_delete_eq|done].
      rewrite dom_delete_L. set_solver.
    + split_and!; [done|done|done].
Qed.

Lemma spawn_then_kill_witness :
  let m := init 7001 7003 in
  let free : Z → bool := λ port, bool_decide (port ≠ 7001%Z) in
  dom (peer_processes m) ⊆ used_ports m
  ∧ ∃ m', spawn_peer free m = Some (7002%Z, m') ∧ kill_peer m' 7002 = m.
Proof.
  intros m free.
  assert (dom (peer_processes m) ⊆ used_ports m) as Hinv by (simpl; set_solver).
  split; [exact Hinv|].
  destruct (spawn_peer free m) as [[port m']|] eqn:E; [|by vm_compute in E].
  assert (port = 7002%Z) as -> by (vm_compute in E; congruence).
  exists m'. split; [done|].
  by apply (spawn_then_kill free m Hinv).
Defined.

End StarterFacts.
